(** * Process-graph construction and flattening (openeo/internal/graphbuilder.py)
      and the nested accessor [deep_get] with the other helpers of
      openeo/util.py.

    Python values are embedded as JSON-like trees.  Dictionaries are
    association lists in insertion order (the order in which Python iterates
    them) with unique keys.  An object that the code stores by reference in a
    second place (the builder's root embedded into the arguments of the next
    node, the roots of two builders embedded by [combine]) is a cell of an
    explicit store and is referred to by its address ([PRef]); an object with
    a single owner is kept inline.  A builder holds the address of its root.
    A deep copy is a tree without references.  An object that the code
    changes in place while a list still holds it (the references that a merge
    rewrites) is located by its cell and a path.  Exceptions are an error
    result. *)

From Stdlib Require Import List String Ascii ZArith Bool Arith Lia.
From Stdlib Require Import DecimalString DecimalNat FinFun.
From Stdlib Require Import Sorted Permutation.
Import ListNotations.
Local Open Scope list_scope.
Local Open Scope string_scope.

(** ** Exceptions *)

Inductive exn : Type :=
| KeyError
| TypeError
| AttributeError
| RecursionError.

Inductive outcome (A : Type) : Type :=
| Ok (a : A)
| Raise (e : exn).
Arguments Ok {A} a.
Arguments Raise {A} e.

Definition bind {A B : Type} (c : outcome A) (k : A -> outcome B) : outcome B :=
  match c with
  | Ok a => k a
  | Raise e => Raise e
  end.

Notation "x <- c ;; k" := (bind c (fun x => k))
  (at level 61, c at next level, right associativity).
Notation "' p <- c ;; k" := (bind c (fun x => let 'p := x in k))
  (at level 61, p pattern, c at next level, right associativity).

(** ** Values *)

Definition addr := nat.

Unset Elimination Schemes.
Inductive pyval : Type :=
| PNone
| PBool (b : bool)
| PInt (n : Z)
| PStr (s : string)
| PBuiltin (name : string)          (* a builtin function object, e.g. [id] *)
| PRef (a : addr)                   (* an object held by reference *)
| PList (l : list pyval)
| PDict (d : list (string * pyval)).
Set Elimination Schemes.

Definition dict := list (string * pyval).
Definition heap := list pyval.

(** Induction principle that reaches below lists and dictionaries. *)
Section pyval_ind'.
Variable P : pyval -> Prop.
Hypothesis HNone : P PNone.
Hypothesis HBool : forall b, P (PBool b).
Hypothesis HInt : forall n, P (PInt n).
Hypothesis HStr : forall s, P (PStr s).
Hypothesis HBuiltin : forall s, P (PBuiltin s).
Hypothesis HRef : forall a, P (PRef a).
Hypothesis HList : forall l, Forall P l -> P (PList l).
Hypothesis HDict : forall d, Forall (fun kv => P (snd kv)) d -> P (PDict d).

Fixpoint pyval_ind' (v : pyval) : P v :=
  match v with
  | PNone => HNone
  | PBool b => HBool b
  | PInt n => HInt n
  | PStr s => HStr s
  | PBuiltin s => HBuiltin s
  | PRef a => HRef a
  | PList l =>
      HList l ((fix go (l : list pyval) : Forall P l :=
                  match l with
                  | [] => Forall_nil _
                  | x :: l' => Forall_cons _ (pyval_ind' x) (go l')
                  end) l)
  | PDict d =>
      HDict d ((fix go (d : dict) : Forall (fun kv => P (snd kv)) d :=
                  match d with
                  | [] => Forall_nil _
                  | kv :: d' => Forall_cons _ (pyval_ind' (snd kv)) (go d')
                  end) d)
  end.
End pyval_ind'.

(** ** Dictionaries *)

(** [d[k]] / [d.get(k)] *)
Fixpoint dict_get {A : Type} (k : string) (d : list (string * A)) : option A :=
  match d with
  | [] => None
  | (k', v) :: d' => if String.eqb k k' then Some v else dict_get k d'
  end.

(** [k in d] *)
Definition dict_has {A : Type} (k : string) (d : list (string * A)) : bool :=
  match dict_get k d with Some _ => true | None => false end.

(** [d[k] = v]: an existing key keeps its position, a new key goes last. *)
Fixpoint dict_set {A : Type} (k : string) (v : A) (d : list (string * A))
  : list (string * A) :=
  match d with
  | [] => [(k, v)]
  | (k', v') :: d' =>
      if String.eqb k k' then (k', v) :: d' else (k', v') :: dict_set k v d'
  end.

Definition keys {A : Type} (d : list (string * A)) : list string := map fst d.

(** [dict_get] composed with a function applied to the value found, in a form
    whose recursion on the dictionary is visible to the termination check. *)
Section dict_with.
Context {A B : Type} (k : string) (f : A -> B).
Fixpoint dict_with (d : list (string * A)) : option B :=
  match d with
  | [] => None
  | (k', v) :: d' => if String.eqb k k' then Some (f v) else dict_with d'
  end.
End dict_with.

(** A loop over a list whose body threads a state and may raise. *)
Section mapM.
Context {S A B : Type} (f : A -> S -> outcome (B * S)).
Fixpoint mapM (l : list A) (s : S) : outcome (list B * S) :=
  match l with
  | [] => Ok ([], s)
  | x :: l' =>
      '(y, s1) <- f x s ;;
      '(ys, s2) <- mapM l' s1 ;;
      Ok (y :: ys, s2)
  end.
End mapM.

(** ** FlatGraphKeyGenerator *)

(** [_counters = collections.defaultdict(int)] *)
Record FlatGraphKeyGenerator : Type := { _counters : list (string * nat) }.

Definition FlatGraphKeyGenerator_init : FlatGraphKeyGenerator :=
  {| _counters := [] |}.

Definition counter (process_id : string) (kg : FlatGraphKeyGenerator) : nat :=
  match dict_get process_id (_counters kg) with
  | Some c => c
  | None => 0
  end.

(** [process_id.replace('_', '')] *)
Fixpoint replace_underscore (s : string) : string :=
  match s with
  | EmptyString => EmptyString
  | String c s' =>
      if Ascii.eqb c "_"%char then replace_underscore s'
      else String c (replace_underscore s')
  end.

(** Decimal rendering of a counter, as ["{c}".format(c=...)] does. *)
Definition str_of_nat (n : nat) : string :=
  NilEmpty.string_of_uint (Nat.to_uint n).

Definition generate (process_id : string) (kg : FlatGraphKeyGenerator)
  : string * FlatGraphKeyGenerator :=
  let c := S (counter process_id kg) in
  (replace_underscore process_id ++ str_of_nat c,
   {| _counters := dict_set process_id c (_counters kg) |}).

(** The keys returned by a sequence of [generate] calls on one instance. *)
Fixpoint generate_all (process_ids : list string) (kg : FlatGraphKeyGenerator)
  : list string * FlatGraphKeyGenerator :=
  match process_ids with
  | [] => ([], kg)
  | p :: ps =>
      let (k, kg1) := generate p kg in
      let (ks, kg2) := generate_all ps kg1 in
      (k :: ks, kg2)
  end.


(** ** The store of shared objects *)

Definition alloc (v : pyval) (h : heap) : addr * heap := (List.length h, (h ++ [v])%list).

Definition heap_get (a : addr) (h : heap) : option pyval := nth_error h a.

Fixpoint heap_set (a : addr) (v : pyval) (h : heap) : heap :=
  match h, a with
  | [], _ => []
  | _ :: h', 0 => v :: h'
  | x :: h', S a' => x :: heap_set a' v h'
  end.

(** The bodies of the loops of a deep copy over a list and over a
    dictionary. *)
Definition copy_item (copy : pyval -> outcome pyval) (x : pyval) (_ : unit)
  : outcome (pyval * unit) :=
  x' <- copy x ;; Ok (x', tt).

Definition copy_entry (copy : pyval -> outcome pyval) (kv : string * pyval) (_ : unit)
  : outcome ((string * pyval) * unit) :=
  x' <- copy (snd kv) ;; Ok ((fst kv, x'), tt).

(** [copy.deepcopy]: the copy holds no reference into the store.  Every
    dereference spends one unit of fuel; [deepcopy] gives as many units as the
    store has cells, which is enough unless the object graph is cyclic.  An
    address outside the store does not arise from the operations below; it is
    answered like exhausted fuel.  The copy is a tree: an object reached
    twice is copied twice, where Python would keep it shared inside the copy
    and the hooks of a traversal would rewrite it once for both places.  The
    nested form has no sharing; what is stated of the nodes that [flatten]
    visits is stated for stores in which no object is reached twice
    ([unshared] below), where the two copies are the same. *)
Fixpoint deepcopy_fuel (fuel : nat) (h : heap) : pyval -> outcome pyval :=
  fix copy (v : pyval) : outcome pyval :=
    match v with
    | PRef a =>
        match fuel with
        | 0 => Raise RecursionError
        | S fuel' =>
            match heap_get a h with
            | Some o => deepcopy_fuel fuel' h o
            | None => Raise RecursionError
            end
        end
    | PList l => '(l', _) <- mapM (copy_item copy) l tt ;; Ok (PList l')
    | PDict d => '(d', _) <- mapM (copy_entry copy) d tt ;; Ok (PDict d')
    | _ => Ok v
    end.

Definition deepcopy (h : heap) (v : pyval) : outcome pyval :=
  deepcopy_fuel (List.length h) h v.



(** The addresses that a deep copy of [v] dereferences, in order, each as
    often as it is reached. *)
Fixpoint reached_fuel (fuel : nat) (h : heap) : pyval -> list addr :=
  fix reach (v : pyval) : list addr :=
    match v with
    | PRef a =>
        a :: match fuel with
             | 0 => []
             | S fuel' =>
                 match heap_get a h with
                 | Some o => reached_fuel fuel' h o
                 | None => []
                 end
             end
    | PList l => flat_map reach l
    | PDict d => flat_map (fun kv => reach (snd kv)) d
    | _ => []
    end.

(** No object under [v] is reached twice: the object graph is a tree, as the
    nested form is, and the tree that [deepcopy] yields is the copy that
    Python takes. *)
Definition unshared (h : heap) (v : pyval) : Prop :=
  NoDup (reached_fuel (List.length h) h v).

(** ** GraphBuilder *)

(** [result_node] is the address of the root object; [None] when the
    attribute was never assigned ([GraphBuilder()] leaves it unset). *)
Record GraphBuilder : Type := { result_node : option addr }.

(** [GraphBuilder()] *)
Definition GraphBuilder_init : GraphBuilder := {| result_node := None |}.

Definition shallow_copy (self : GraphBuilder) (h : heap)
  : outcome (GraphBuilder * heap) :=
  match result_node self with
  | None => Raise AttributeError
  | Some r =>
      c <- deepcopy h (PRef r) ;;
      let (a, h') := alloc c h in
      Ok ({| result_node := Some a |}, h')
  end.

Definition from_process_graph (graph : pyval) (h : heap)
  : outcome (GraphBuilder * heap) :=
  c <- deepcopy h graph ;;
  let (a, h') := alloc c h in
  Ok ({| result_node := Some a |}, h').

(** [process] returns the name [id], which is not bound in the method and so
    denotes the builtin function. *)
Definition process (self : GraphBuilder) (process_id : pyval) (args : dict)
  (h : heap) : outcome (pyval * GraphBuilder * heap) :=
  args' <- (if dict_has "from_node" args then
              match result_node self with
              | Some r => Ok (dict_set "from_node" (PRef r) args)
              | None => Raise AttributeError
              end
            else Ok args) ;;
  let new_process :=
    PDict [("process_id", process_id); ("arguments", PDict args')] in
  let (a, h') := alloc new_process h in
  Ok (PBuiltin "id", {| result_node := Some a |}, h').

(** [self.result_node["result"] = result] *)
Definition set_result (r : addr) (result : pyval) (h : heap) : outcome heap :=
  match heap_get r h with
  | Some (PDict node) => Ok (heap_set r (PDict (dict_set "result" result node)) h)
  | _ => Raise TypeError
  end.

(** [add_process(process_id, result=None, **args)]; [PNone] is [None]. *)
Definition add_process (self : GraphBuilder) (process_id : pyval)
  (result : pyval) (args : dict) (h : heap)
  : outcome (pyval * GraphBuilder * heap) :=
  '(id, self', h1) <- process self process_id args h ;;
  match result with
  | PNone => Ok (id, self', h1)
  | _ =>
      match result_node self' with
      | Some r => h2 <- set_result r result h1 ;; Ok (id, self', h2)
      | None => Raise AttributeError
      end
  end.

(** Names already bound by [add_process]'s own parameters cannot be passed
    again through [**args]. *)
Definition bound_parameter (name : string) : bool :=
  String.eqb name "self" || String.eqb name "process_id"
  || String.eqb name "result".

Definition combine (operator : pyval) (first second : GraphBuilder)
  (arg_name : string) (h : heap) : outcome (GraphBuilder * heap) :=
  let merged := GraphBuilder_init in
  match result_node first, result_node second with
  | Some a, Some b =>
      let args :=
        [(arg_name, PList [PDict [("from_node", PRef a)];
                           PDict [("from_node", PRef b)]])] in
      if bound_parameter arg_name then Raise TypeError
      else
        '(_, merged', h') <- add_process merged operator (PBool true) args h ;;
        Ok (merged', h')
  | _, _ => Raise AttributeError
  end.

(** ** Flattening *)

(** The state a [flatten] call works on: the key generator and the flat graph
    of the enclosing scope, the class attribute [Flattener.last_node_id], and
    the store. *)
Record Flattener : Type := {
  key_generator : FlatGraphKeyGenerator;
  flat_graph : dict;
  last_node_id : pyval;
  store : heap
}.

(** [generate] needs a string: [replace] is a method of [str]. *)
Definition leaveProcess (process_id : pyval) (arguments : dict) (st : Flattener)
  : outcome Flattener :=
  match process_id with
  | PStr p =>
      let (node_id, kg) := generate p (key_generator st) in
      Ok {| key_generator := kg;
            flat_graph :=
              dict_set node_id
                (PDict [("process_id", PStr p); ("arguments", PDict arguments)])
                (flat_graph st);
            last_node_id := PStr node_id;
            store := store st |}
  | PList _ | PDict _ | PRef _ => Raise TypeError
  | _ => Raise AttributeError
  end.

Definition arrayElementDone (node : dict) (st : Flattener) : dict :=
  if dict_has "from_node" node
  then dict_set "from_node" (last_node_id st) node
  else node.

(** [flat_graph[flattener.last_node_id]['result'] = True] *)
Definition mark_result (flat : dict) (last : pyval) : outcome dict :=
  match last with
  | PStr k =>
      match dict_get k flat with
      | Some (PDict node) =>
          Ok (dict_set k (PDict (dict_set "result" (PBool true) node)) flat)
      | Some _ => Raise TypeError
      | None => Raise KeyError
      end
  | _ => Raise KeyError
  end.

Definition flat_result : Type := dict * FlatGraphKeyGenerator * heap.

(** The body of [flatten] once the deep copy is taken: the copy becomes a new
    object of the store, [visit] is the traversal of that copy, which rewrites
    it in place, and the last key is marked. *)
Definition flatten_copy (visit : Flattener -> outcome (pyval * Flattener))
  (copy : pyval) (kg : FlatGraphKeyGenerator) (h : heap) : outcome flat_result :=
  let (w, h1) := alloc copy h in
  '(copy', st) <- visit {| key_generator := kg; flat_graph := [];
                           last_node_id := PNone; store := h1 |} ;;
  flat <- mark_result (flat_graph st) (last_node_id st) ;;
  Ok (flat, key_generator st, heap_set w copy' (store st)).

(** [GraphBuilder.from_process_graph(callback).flatten(key_generator)] for a
    callback that lies inside the working copy: both deep copies are of a value
    that holds no reference, hence equal to it. *)
Definition flatten_callback (visit : Flattener -> outcome (pyval * Flattener))
  (callback : pyval) (kg : FlatGraphKeyGenerator) (h : heap) : outcome flat_result :=
  let (_, h0) := alloc callback h in
  flatten_copy visit callback kg h0.

(** [flat_callback] is the flattening of [node['callback']] with the shared
    key generator, when the node has a callback. *)
Definition leaveArgument
  (flat_callback : option (FlatGraphKeyGenerator -> heap -> outcome flat_result))
  (node : dict) (st : Flattener) : outcome (dict * Flattener) :=
  let node1 := if dict_has "from_node" node
               then dict_set "from_node" (last_node_id st) node
               else node in
  match flat_callback with
  | Some run =>
      '(flat, kg, h) <- run (key_generator st) (store st) ;;
      Ok (dict_set "callback" (PDict flat) node1,
          {| key_generator := kg; flat_graph := flat_graph st;
             last_node_id := last_node_id st; store := h |})
  | None => Ok (node1, st)
  end.

(** The traversal that drives the hooks.  The recursive function [accept] is
    a parameter of the layers below and is closed after them; a value looked
    up in a dictionary is handed to it through [dict_with]. *)
Section Traversal.
Variable accept : pyval -> Flattener -> outcome (pyval * Flattener).

(** Modelled from the spec: [ProcessGraphVisitor] and its [accept]
    (openeo/internal/process_graph_visitor.py) are not among the sources.  The
    traversal is depth first and post order: the arguments of a node are taken
    in their declared order; an element of a sequence-valued argument is
    visited and then reported by [arrayElementDone]; any other argument value
    is visited and then reported by [leaveArgument]; [leaveProcess] comes once
    all arguments of the node are done.  Only mapping-shaped values are
    reported to the hooks, a literal passes through unchanged.  Visiting a
    reference, here, descends into the node it embeds. *)
Definition visit_reference (value : dict) (st : Flattener) : outcome Flattener :=
  match dict_with "from_node" accept value with
  | Some run => '(_, st') <- run st ;; Ok st'
  | None => Ok st
  end.

(** Modelled from the spec: one element of a sequence-valued argument, and
    the element as [arrayElementDone] leaves it. *)
Definition visit_element (element : pyval) (st : Flattener)
  : outcome (pyval * Flattener) :=
  match element with
  | PDict node =>
      st' <- visit_reference node st ;;
      Ok (PDict (arrayElementDone node st'), st')
  | _ => Ok (element, st)
  end.

(** Modelled from the spec: one argument of a node, and the argument as the
    hooks leave it. *)
Definition visit_argument (argument : string * pyval) (st : Flattener)
  : outcome ((string * pyval) * Flattener) :=
  match snd argument with
  | PList elements =>
      '(elements', st') <- mapM visit_element elements st ;;
      Ok ((fst argument, PList elements'), st')
  | PDict node =>
      st1 <- visit_reference node st ;;
      '(node', st2) <-
        leaveArgument
          (dict_with "callback"
             (fun callback => flatten_callback (accept callback) callback) node)
          node st1 ;;
      Ok ((fst argument, PDict node'), st2)
  | _ => Ok (argument, st)
  end.

(** Modelled from the spec: the arguments of a node, in declared order; they
    are a mapping. *)
Definition visit_arguments (arguments : pyval) (st : Flattener)
  : outcome (dict * Flattener) :=
  match arguments with
  | PDict args => mapM visit_argument args st
  | _ => Raise TypeError
  end.

(** Modelled from the spec: a node is a mapping with a [process_id]; it is
    left once its arguments are done, and nothing is visited in a mapping
    without [process_id].  A node without [arguments] has none. *)
Definition visit_process (node : dict) (st : Flattener)
  : outcome (pyval * Flattener) :=
  match dict_get "process_id" node with
  | None => Ok (PDict node, st)
  | Some process_id =>
      match dict_with "arguments" visit_arguments node with
      | Some run =>
          '(arguments, st1) <- run st ;;
          st2 <- leaveProcess process_id arguments st1 ;;
          Ok (PDict (dict_set "arguments" (PDict arguments) node), st2)
      | None =>
          st1 <- leaveProcess process_id [] st ;;
          Ok (PDict node, st1)
      end
  end.
End Traversal.

(** Modelled from the spec: [ProcessGraphVisitor.accept].  The value returned
    with the state is the visited object as the hooks have rewritten it. *)
Fixpoint accept (node : pyval) (st : Flattener) {struct node}
  : outcome (pyval * Flattener) :=
  match node with
  | PDict d => visit_process accept d st
  | _ => Ok (node, st)
  end.

Definition flatten (self : GraphBuilder)
  (key_generator : option FlatGraphKeyGenerator) (h : heap) : outcome flat_result :=
  match result_node self with
  | None => Raise AttributeError
  | Some r =>
      copy <- deepcopy h (PRef r) ;;
      flatten_copy (accept copy) copy
        (match key_generator with
         | Some kg => kg
         | None => FlatGraphKeyGenerator_init
         end) h
  end.

(** ** Merging *)

(** An object inside the store is located by the cell that owns it and the
    path of subscripts that leads to it. *)
Inductive step : Type :=
| Key (k : string)
| Index (i : nat).

Definition path := list step.
Definition site : Type := addr * path.

Fixpoint list_set {A : Type} (i : nat) (x : A) (l : list A) : list A :=
  match l, i with
  | [], _ => []
  | _ :: l', 0 => x :: l'
  | y :: l', S i' => y :: list_set i' x l'
  end.

Fixpoint path_get (p : path) (v : pyval) : option pyval :=
  match p with
  | [] => Some v
  | Key k :: p' =>
      match v with
      | PDict d =>
          match dict_get k d with
          | Some x => path_get p' x
          | None => None
          end
      | _ => None
      end
  | Index i :: p' =>
      match v with
      | PList l =>
          match nth_error l i with
          | Some x => path_get p' x
          | None => None
          end
      | _ => None
      end
  end.

(** Assignment below an existing path; the last subscript may add a key. *)
Fixpoint path_set (p : path) (x : pyval) (v : pyval) : pyval :=
  match p with
  | [] => x
  | [Key k] =>
      match v with
      | PDict d => PDict (dict_set k x d)
      | _ => v
      end
  | Key k :: p' =>
      match v with
      | PDict d =>
          match dict_get k d with
          | Some y => PDict (dict_set k (path_set p' x y) d)
          | None => v
          end
      | _ => v
      end
  | Index i :: p' =>
      match v with
      | PList l =>
          match nth_error l i with
          | Some y => PList (list_set i (path_set p' x y) l)
          | None => v
          end
      | _ => v
      end
  end.

Definition site_get (s : site) (h : heap) : option pyval :=
  match heap_get (fst s) h with
  | Some o => path_get (snd s) o
  | None => None
  end.

Definition site_set (s : site) (x : pyval) (h : heap) : heap :=
  match heap_get (fst s) h with
  | Some o => heap_set (fst s) (path_set (snd s) x o) h
  | None => h
  end.

(** The [from_node] entry of the reference object at a site. *)
Definition from_node_of (s : site) : site := (fst s, (snd s ++ [Key "from_node"])%list).

(** [isinstance(x, dict) and 'from_node' in x] *)
Definition is_node_ref (x : pyval) : bool :=
  match x with
  | PDict d => dict_has "from_node" d
  | _ => false
  end.

(** The reference objects among the elements of the list at [(a, p)]. *)
Fixpoint element_refs (h : heap) (a : addr) (p : path) (i : nat)
  (elements : list pyval) : list site :=
  match elements with
  | [] => []
  | element :: rest =>
      (match element with
       | PRef r =>
           match heap_get r h with
           | Some o => if is_node_ref o then [(r, [])] else []
           | None => []
           end
       | _ => if is_node_ref element then [(a, (p ++ [Index i])%list)] else []
       end ++ element_refs h a p (S i) rest)%list
  end.

(** The reference objects found in the argument value [argument], which is
    the object at [(a, p)]. *)
Definition argument_refs (h : heap) (a : addr) (p : path) (argument : pyval)
  : list site :=
  match argument with
  | PDict d => if dict_has "from_node" d then [(a, p)] else []
  | PList l => element_refs h a p 0 l
  | _ => []
  end.

(** [_extract_node_references(arguments)], where [arguments] is the
    ['arguments'] entry of the node object at [node].  The list returned holds
    the objects themselves: here, their sites. *)
Definition _extract_node_references (h : heap) (node : addr) (arguments : dict)
  : list site :=
  flat_map
    (fun argument : string * pyval =>
       match snd argument with
       | PRef r =>
           match heap_get r h with
           | Some o => argument_refs h r [] o
           | None => []
           end
       | x => argument_refs h node [Key "arguments"; Key (fst argument)] x
       end)
    arguments.

(** [sorted(processes.items())]: keys are unique, so the order is the
    lexicographic order of the keys. *)
Fixpoint insert_sorted (kv : string * pyval) (l : dict) : dict :=
  match l with
  | [] => [kv]
  | kv' :: l' =>
      if String.leb (fst kv) (fst kv') then kv :: l
      else kv' :: insert_sorted kv l'
  end.

Definition sorted_items (d : dict) : dict := fold_right insert_sorted [] d.

(** [id != key] for a key that is a string. *)
Definition differs_from_key (id : pyval) (key : string) : bool :=
  match id with
  | PStr s => negb (String.eqb s key)
  | _ => true
  end.

Record Merge : Type := {
  merged : GraphBuilder;
  key_map : dict;
  node_refs : list site;
  merge_store : heap
}.

(** [d[k]] for any value [d]. *)
Definition getitem (k : string) (d : pyval) : outcome pyval :=
  match d with
  | PDict d' =>
      match dict_get k d' with
      | Some v => Ok v
      | None => Raise KeyError
      end
  | _ => Raise TypeError
  end.

(** [sub in s] for two strings: [sub] occurs in [s]. *)
Fixpoint contains (sub s : string) : bool :=
  String.prefix sub s
  || match s with
     | EmptyString => false
     | String _ s' => contains sub s'
     end.

(** [process] on arguments that are a string or a list.  When ['from_node']
    is in them (as a part of the string, as an element of the list) the
    assignment [args['from_node'] = self.result_node] raises: [AttributeError]
    on a builder without a root, whose attribute is read first, and
    [TypeError] otherwise.  When it is not, [process] returns and
    [_extract_node_references] raises [AttributeError] at
    [arguments.values()]. *)
Definition process_not_mapping (self : GraphBuilder) (has_from_node : bool)
  : exn :=
  if has_from_node then
    match result_node self with
    | Some _ => TypeError
    | None => AttributeError
    end
  else AttributeError.

(** One round of the first loop of [_merge_processes]. *)
Definition merge_process (item : string * pyval) (st : Merge) : outcome (unit * Merge) :=
  let (key, process_) := item in
  process_id <- getitem "process_id" process_ ;;
  args <- getitem "arguments" process_ ;;
  args_copy <- deepcopy (merge_store st) args ;;
  match args_copy with
  | PDict args_copy =>
      '(id, self, h) <- process (merged st) process_id args_copy (merge_store st) ;;
      match result_node self with
      | Some a =>
          match site_get (a, [Key "arguments"]) h with
          | Some (PDict arguments) =>
              Ok (tt,
                  {| merged := self;
                     key_map := if differs_from_key id key
                                then dict_set key id (key_map st)
                                else key_map st;
                     node_refs := (node_refs st
                                   ++ _extract_node_references h a arguments)%list;
                     merge_store := h |})
          | _ => Raise TypeError
          end
      | None => Raise AttributeError
      end
  | PStr s => Raise (process_not_mapping (merged st) (contains "from_node" s))
  | PList l =>
      Raise (process_not_mapping (merged st)
               (existsb (fun x => match x with
                                  | PStr k => String.eqb k "from_node"
                                  | _ => false
                                  end) l))
  | _ => Raise TypeError
  end.

(** [old_node_id in key_map]: the key when it can be one, [TypeError] when the
    value is not hashable. *)
Definition hashable_key (h : heap) (x : pyval) : outcome (option string) :=
  match x with
  | PStr k => Ok (Some k)
  | PList _ | PDict _ => Raise TypeError
  | PRef r =>
      match heap_get r h with
      | Some (PStr k) => Ok (Some k)
      | Some (PList _) | Some (PDict _) | Some (PRef _) | None => Raise TypeError
      | Some _ => Ok None
      end
  | _ => Ok None
  end.

(** One round of the second loop of [_merge_processes]. *)
Definition rewrite_ref (key_map : dict) (node_ref : site) (h : heap)
  : outcome (unit * heap) :=
  match site_get (from_node_of node_ref) h with
  | Some old_node_id =>
      k <- hashable_key h old_node_id ;;
      match k with
      | Some k =>
          match dict_get k key_map with
          | Some new => Ok (tt, site_set (from_node_of node_ref) new h)
          | None => Ok (tt, h)
          end
      | None => Ok (tt, h)
      end
  | None => Raise KeyError
  end.

Definition _merge_processes (self : GraphBuilder) (processes : dict) (h : heap)
  : outcome (GraphBuilder * dict * heap) :=
  '(_, st) <- mapM merge_process (sorted_items processes)
                {| merged := self; key_map := []; node_refs := [];
                   merge_store := h |} ;;
  '(_, h') <- mapM (rewrite_ref (key_map st)) (node_refs st) (merge_store st) ;;
  Ok (merged st, key_map st, h').

(** [GraphBuilder(graph)]: the constructor reads [graph.result_node] and then
    iterates [graph.items()].  A builder has no [items] and a dictionary has no
    [result_node], so either kind of argument raises. *)
Inductive graph_argument : Type :=
| OfBuilder (b : GraphBuilder)
| OfDict (d : dict).

Definition GraphBuilder_new (graph : option graph_argument) (h : heap)
  : outcome (GraphBuilder * heap) :=
  match graph with
  | None => Ok (GraphBuilder_init, h)
  | Some (OfBuilder _) => Raise AttributeError
  | Some (OfDict _) => Raise AttributeError
  end.

(** ** Characters *)

(** The decimal digits.  A character is a code point below 256, and among
    those the class [\d] of a regular expression holds the ten ASCII digits
    only. *)
Definition is_digit (c : ascii) : bool :=
  (48 <=? nat_of_ascii c)%nat && (nat_of_ascii c <=? 57)%nat.

(** ** Nested accessor (openeo/util.py) *)

Module Util.

(** Keys and indexes of a deep path.  A Python [bool] is an [int]; it is
    the integer 0 or 1 here. *)
Inductive key : Type :=
| KStr (s : string)
| KInt (i : Z).

Definition key_eqb (a b : key) : bool :=
  match a, b with
  | KStr s, KStr t => String.eqb s t
  | KInt i, KInt j => Z.eqb i j
  | _, _ => false
  end.

Inductive atom : Type :=
| ANone
| ABool (b : bool)
| AInt (i : Z)
| AStr (s : string).

(** Nested structure of dicts, lists and tuples over atoms. *)
Unset Elimination Schemes.
Inductive data : Type :=
| Atom (a : atom)
| Dict (d : list (key * data))
| List (l : list data)
| Tuple (l : list data).
Set Elimination Schemes.

Fixpoint lookup (k : key) (d : list (key * data)) : option data :=
  match d with
  | [] => None
  | (k', v) :: d' => if key_eqb k k' then Some v else lookup k d'
  end.

(** [l[i]] for [0 <= i < len(l)] *)
Definition item (i : Z) (l : list data) : option data :=
  if (0 <=? i)%Z && (i <? Z.of_nat (List.length l))%Z
  then nth_error l (Z.to_nat i)
  else None.

Inductive error : Type :=
| DeepKeyError (k : key) (ks : list key).

(** One round of the loop: the value under [k], if the step is there. *)
Definition deep_step (dat : data) (k : key) : option data :=
  match dat with
  | Dict d => lookup k d
  | List l | Tuple l =>
      match k with
      | KInt i => item i l
      | KStr _ => None
      end
  | Atom _ => None
  end.

Fixpoint deep_loop (all_keys : list key) (default : option data)
  (dat : data) (ks : list key) : data + error :=
  match ks with
  | [] => inl dat
  | k :: ks' =>
      match deep_step dat k with
      | Some dat' => deep_loop all_keys default dat' ks'
      | None =>
          match default with
          | None => inr (DeepKeyError k all_keys)
          | Some d => inl d
          end
      end
  end.

(** [deep_get(data, *keys, default=...)]; [default = None] stands for the
    sentinel [_deep_get_default_undefined]. *)
Definition deep_get (dat : data) (ks : list key) (default : option data)
  : data + error :=
  deep_loop ks default dat ks.

(** The claim's own words: when a step of a path is present, and what
    following a path reaches. *)
Inductive present : data -> key -> data -> Prop :=
| present_dict d k v :
    lookup k d = Some v -> present (Dict d) k v
| present_list l i v :
    (0 <= i < Z.of_nat (List.length l))%Z ->
    nth_error l (Z.to_nat i) = Some v -> present (List l) (KInt i) v
| present_tuple l i v :
    (0 <= i < Z.of_nat (List.length l))%Z ->
    nth_error l (Z.to_nat i) = Some v -> present (Tuple l) (KInt i) v.

Inductive reaches : data -> list key -> data -> Prop :=
| reaches_nil dat : reaches dat [] dat
| reaches_cons dat k dat' ks v :
    present dat k dat' -> reaches dat' ks v -> reaches dat (k :: ks) v.

(** Some step of the path is absent. *)
Definition absent (dat : data) (ks : list key) : Prop :=
  forall v, ~ reaches dat ks v.

(** *** Small helpers *)

(** The exceptions the helpers below raise. *)
Inductive raised : Type :=
| ValueError
| TypeError
| AssertionError
| NotImplementedError.

(** [x is None] *)
Definition is_none (x : data) : bool :=
  match x with
  | Atom ANone => true
  | _ => false
  end.

(** [dict_no_none]: the keyword arguments [kwargs] are a mapping from names,
    in the order given. *)
Definition dict_no_none (kwargs : list (string * data)) : list (string * data) :=
  filter (fun kv => negb (is_none (snd kv))) kwargs.

(** [first_not_none] on the positional arguments [args]. *)
Fixpoint first_not_none (args : list data) : data + raised :=
  match args with
  | [] => inr ValueError
  | item :: rest => if is_none item then first_not_none rest else inl item
  end.

(** A key as a value. *)
Definition key_data (k : key) : data :=
  match k with
  | KStr s => Atom (AStr s)
  | KInt i => Atom (AInt i)
  end.

(** The one-character strings of a string, in order. *)
Fixpoint characters (s : string) : list data :=
  match s with
  | EmptyString => []
  | String c s' => Atom (AStr (String c EmptyString)) :: characters s'
  end.

(** [list(x)]: the elements of a list or tuple, the keys of a dict, the
    characters of a string; anything else is not iterable. *)
Definition list_of (x : data) : list data + raised :=
  match x with
  | List l | Tuple l => inl l
  | Dict d => inl (map (fun kv => key_data (fst kv)) d)
  | Atom (AStr s) => inl (characters s)
  | Atom _ => inr TypeError
  end.

(** [ensure_list(x)]: [list(x)], and [[x]] when that raises [TypeError]. *)
Definition ensure_list (x : data) : data :=
  match list_of x with
  | inl l => List l
  | inr _ => List [x]
  end.

(** *** Dates *)

(** [datetime.date] and [datetime.datetime]; [tzinfo] is the offset of an
    aware datetime and [None] for a naive one. *)
Record date : Type := { year : N; month : N; day : N }.

Record datetime : Type := {
  on : date;
  hour : N;
  minute : N;
  second : N;
  tzinfo : option Z
}.

(** The values handed to the date helpers. *)
Unset Elimination Schemes.
Inductive value : Type :=
| VNone
| VBool (b : bool)
| VInt (i : Z)
| VStr (s : string)
| VDate (d : date)
| VDateTime (d : datetime)
| VList (l : list value)
| VTuple (l : list value).
Set Elimination Schemes.

(** Decimal rendering of a natural number. *)
Definition str_of_N (n : N) : string :=
  NilEmpty.string_of_uint (N.to_uint n).

(** [%m], [%d], [%H], [%M], [%S]: two digits, zero-padded. *)
Definition two_digits (n : N) : string :=
  if (n <? 10)%N then "0" ++ str_of_N n else str_of_N n.

(** [d.strftime('%Y-%m-%d')].  [%Y] is the year in decimal as the C library
    renders it, without padding; from the year 1000 on that is four digits on
    every platform. *)
Definition strftime_date (d : date) : string :=
  str_of_N (year d) ++ "-" ++ two_digits (month d) ++ "-" ++ two_digits (day d).

(** [d.strftime('%Y-%m-%dT%H:%M:%SZ')] *)
Definition strftime_datetime (d : datetime) : string :=
  strftime_date (on d) ++ "T" ++ two_digits (hour d) ++ ":"
  ++ two_digits (minute d) ++ ":" ++ two_digits (second d) ++ "Z".

(** [\d{n}] at the start of [s]: the rest of [s] when it matches. *)
Fixpoint digits (n : nat) (s : string) : option string :=
  match n with
  | 0 => Some s
  | S n' =>
      match s with
      | String c s' => if is_digit c then digits n' s' else None
      | EmptyString => None
      end
  end.

(** [-] at the start of [s]. *)
Definition hyphen (s : string) : option string :=
  match s with
  | String c s' => if Ascii.eqb c "-"%char then Some s' else None
  | EmptyString => None
  end.

Definition then_ {A B : Type} (x : option A) (f : A -> option B) : option B :=
  match x with
  | Some a => f a
  | None => None
  end.

(** [_rfc3339_date_format.match(s)] for the pattern [\d{4}-\d{2}-\d{2}]:
    [match] anchors the pattern at the start of [s] and not at its end. *)
Definition _rfc3339_date_format (s : string) : bool :=
  match then_ (then_ (then_ (then_ (digits 4 s) hyphen) (digits 2)) hyphen) (digits 2) with
  | Some _ => true
  | None => false
  end.

Definition date_to_rfc3339 (d : value) : value + raised :=
  match d with
  | VStr s => if _rfc3339_date_format s then inl d else inr NotImplementedError
  | VDateTime t =>
      match tzinfo t with
      | None => inl (VStr (strftime_datetime t))
      | Some _ => inr AssertionError
      end
  | VDate t => inl (VStr (strftime_date t))
  | _ => inr NotImplementedError
  end.

(** [x is None] and the truth value of [x]. *)
Definition is_None (x : value) : bool :=
  match x with
  | VNone => true
  | _ => false
  end.

Definition truth (x : value) : bool :=
  match x with
  | VNone => false
  | VBool b => b
  | VInt i => negb (i =? 0)%Z
  | VStr s => negb (String.eqb s "")
  | VDate _ | VDateTime _ => true
  | VList l | VTuple l => match l with [] => false | _ => true end
  end.

(** [a, b = x]: [x] is iterated; a string gives its characters. *)
Definition unpack_pair (x : value) : value * value + raised :=
  match x with
  | VList l | VTuple l =>
      match l with
      | [a; b] => inl (a, b)
      | _ => inr ValueError
      end
  | VStr s =>
      match s with
      | String a (String b EmptyString) =>
          inl (VStr (String a EmptyString), VStr (String b EmptyString))
      | _ => inr ValueError
      end
  | _ => inr TypeError
  end.

(** [convertor(x) if x else None] *)
Definition convert_if (convertor : value -> value + raised) (x : value)
  : value + raised :=
  if truth x then convertor x else inl VNone.

(** [get_temporal_extent] on the positional arguments [args] and the keywords
    [start_date], [end_date], [extent] and [convertor]; a keyword left out has
    its default [None].  An [assert] that fails raises
    [AssertionError]. *)
Definition get_temporal_extent (args : list value)
  (start_date end_date extent : value) (convertor : value -> value + raised)
  : value * value + raised :=
  let dates :=
    match args with
    | _ :: _ =>
        if is_None start_date && is_None end_date && is_None extent then
          match args with
          | [a; b] => inl (a, b)
          | [arg] =>
              match arg with
              | VList _ | VTuple _ => unpack_pair arg
              | _ => inl (arg, VNone)
              end
          | _ => inr ValueError
          end
        else inr AssertionError
    | [] =>
        if truth extent then
          if is_None start_date && is_None end_date then unpack_pair extent
          else inr AssertionError
        else inl (start_date, end_date)
    end in
  match dates with
  | inl (start_date, end_date) =>
      match convert_if convertor start_date with
      | inl s =>
          match convert_if convertor end_date with
          | inl e => inl (s, e)
          | inr x => inr x
          end
      | inr x => inr x
      end
  | inr x => inr x
  end.

(** *** Shapes used in the statements *)

(** The concatenation of a list of strings. *)
Fixpoint join (l : list data) : string :=
  match l with
  | Atom (AStr s) :: l' => s ++ join l'
  | _ => EmptyString
  end.

(** A date as [datetime.date] admits it, from the year 1000 on. *)
Definition valid_date (d : date) : bool :=
  (1000 <=? year d)%N && (year d <=? 9999)%N
  && (1 <=? month d)%N && (month d <=? 12)%N
  && (1 <=? day d)%N && (day d <=? 31)%N.

(** Every date inside a value is valid. *)
Fixpoint well_formed (x : value) : bool :=
  match x with
  | VDate d => valid_date d
  | VDateTime t => valid_date (on t)
  | VList l | VTuple l => forallb well_formed l
  | _ => true
  end.

(** [None], or a string that starts with a date. *)
Definition dated (x : value) : bool :=
  match x with
  | VNone => true
  | VStr s => _rfc3339_date_format s
  | _ => false
  end.

End Util.

(** ** Shape of nested graphs *)

(** A value with a [process_id] entry is a process node. *)
Definition is_node (v : pyval) : bool :=
  match v with
  | PDict d => dict_has "process_id" d
  | _ => false
  end.

Definition is_str (v : pyval) : bool :=
  match v with
  | PStr _ => true
  | _ => false
  end.

(** A value that holds no reference into the store, as a deep copy does. *)
Fixpoint ref_free (v : pyval) : bool :=
  match v with
  | PRef _ => false
  | PList l => forallb ref_free l
  | PDict d => forallb (fun kv => ref_free (snd kv)) d
  | _ => true
  end.

(** The values the traversal goes through without raising: the operation of
    every node it meets is a string, the arguments of a node, when it has any,
    are a mapping, and a callback is itself a node. *)
Section Visitable.
Variable visitable : pyval -> bool.

Definition reference_ok (node : dict) : bool :=
  match dict_with "from_node" visitable node with
  | Some b => b
  | None => true
  end.

Definition callback_ok (node : dict) : bool :=
  match dict_with "callback" (fun cb => is_node cb && visitable cb) node with
  | Some b => b
  | None => true
  end.

Definition element_ok (element : pyval) : bool :=
  match element with
  | PDict node => reference_ok node
  | _ => true
  end.

Definition argument_ok (value : pyval) : bool :=
  match value with
  | PList elements => forallb element_ok elements
  | PDict node => reference_ok node && callback_ok node
  | _ => true
  end.

Definition arguments_ok (arguments : pyval) : bool :=
  match arguments with
  | PDict args => forallb (fun kv => argument_ok (snd kv)) args
  | _ => false
  end.

Definition process_ok (node : dict) : bool :=
  match dict_get "process_id" node with
  | None => true
  | Some process_id =>
      is_str process_id
      && match dict_with "arguments" arguments_ok node with
         | Some b => b
         | None => true
         end
  end.
End Visitable.

Fixpoint visitable (v : pyval) : bool :=
  match v with
  | PDict d => process_ok visitable d
  | _ => true
  end.

(** A non-empty nested graph: a root node that can be traversed. *)
Definition nested_graph (v : pyval) : Prop :=
  is_node v = true /\ visitable v = true.

(** The process ids in the order in which their nodes are left, the nodes of
    a callback in the place where the callback is flattened. *)
Section Postorder.
Variable postorder : pyval -> list string.

Definition postorder_reference (node : dict) : list string :=
  match dict_with "from_node" postorder node with
  | Some ps => ps
  | None => []
  end.

Definition postorder_callback (node : dict) : list string :=
  match dict_with "callback" postorder node with
  | Some ps => ps
  | None => []
  end.

Definition postorder_element (element : pyval) : list string :=
  match element with
  | PDict node => postorder_reference node
  | _ => []
  end.

Definition postorder_argument (value : pyval) : list string :=
  match value with
  | PList elements => flat_map postorder_element elements
  | PDict node => (postorder_reference node ++ postorder_callback node)%list
  | _ => []
  end.

Definition postorder_arguments (arguments : pyval) : list string :=
  match arguments with
  | PDict args => flat_map (fun kv => postorder_argument (snd kv)) args
  | _ => []
  end.

Definition postorder_process (node : dict) : list string :=
  match dict_get "process_id" node with
  | Some (PStr p) =>
      (match dict_with "arguments" postorder_arguments node with
       | Some ps => ps
       | None => []
       end ++ [p])%list
  | _ => []
  end.
End Postorder.

Fixpoint postorder (v : pyval) : list string :=
  match v with
  | PDict d => postorder_process postorder d
  | _ => []
  end.

(** The result marker of a flat entry. *)
Definition has_result (entry : pyval) : bool :=
  match entry with
  | PDict node => dict_has "result" node
  | _ => false
  end.

Definition result_entries (flat : dict) : dict :=
  filter (fun kv => has_result (snd kv)) flat.

(** The objects of [h] are still there in [h'], unchanged. *)
Definition preserves (h h' : heap) : Prop :=
  List.length h <= List.length h'
  /\ forall a, a < List.length h -> heap_get a h' = heap_get a h.

(** Flattening once per key generator of a list, on one builder. *)
Fixpoint flatten_each (self : GraphBuilder)
  (key_generators : list (option FlatGraphKeyGenerator)) (h : heap)
  : outcome (list dict * heap) :=
  match key_generators with
  | [] => Ok ([], h)
  | kg :: rest =>
      '(flat, _, h1) <- flatten self kg h ;;
      '(flats, h2) <- flatten_each self rest h1 ;;
      Ok (flat :: flats, h2)
  end.

(** ** Invariants of a traversal *)

(** [c] occurs in [s]. *)
Fixpoint mentions (c : ascii) (s : string) : bool :=
  match s with
  | EmptyString => false
  | String c' s' => Ascii.eqb c c' || mentions c s'
  end.

(** An entry as [leaveProcess] writes it, under a key without underscore. *)
Definition entry_ok (kv : string * pyval) : Prop :=
  mentions "_"%char (fst kv) = false
  /\ exists p args,
      snd kv = PDict [("process_id", PStr p); ("arguments", PDict args)].

Definition flat_ok (flat : dict) : Prop :=
  NoDup (keys flat) /\ Forall entry_ok flat.

(** What a part of the traversal that leaves the nodes [ps] does to the
    state. *)
Definition step_ok (ps : list string) (st st' : Flattener) : Prop :=
  preserves (store st) (store st')
  /\ key_generator st' = snd (generate_all ps (key_generator st))
  /\ (flat_ok (flat_graph st) -> flat_ok (flat_graph st')).

(** A traversal state whose flat graph and last key hold no reference. *)
Definition ref_free_state (st : Flattener) : Prop :=
  ref_free (PDict (flat_graph st)) = true /\ ref_free (last_node_id st) = true.

(** ** Shape of flat graphs handed to a merge *)

Definition step_eqb (a b : step) : bool :=
  match a, b with
  | Key k, Key k' => String.eqb k k'
  | Index i, Index j => Nat.eqb i j
  | _, _ => false
  end.

(** Two paths part ways at some subscript: neither leads into the other. *)
Fixpoint diverge (p q : path) : bool :=
  match p, q with
  | a :: p', b :: q' => if step_eqb a b then diverge p' q' else true
  | _, _ => false
  end.

(** The paths at which [_extract_node_references] finds a reference. *)
Inductive site_form : path -> Prop :=
| form_object : site_form []
| form_object_element i : site_form [Index i]
| form_argument name : site_form [Key "arguments"; Key name]
| form_element name i : site_form [Key "arguments"; Key name; Index i].

(** A reference whose [from_node] holds a key. *)
Definition key_reference (x : pyval) : bool :=
  match x with
  | PDict d =>
      match dict_get "from_node" d with
      | Some (PStr _) => true
      | Some _ => false
      | None => true
      end
  | PRef _ => false
  | _ => true
  end.

(** An argument value of a flat graph: references, directly or one level
    into a sequence, hold keys. *)
Definition flat_argument (x : pyval) : bool :=
  ref_free x
  && match x with
     | PList l => forallb key_reference l
     | _ => key_reference x
     end.

Fixpoint unique_keys (ks : list string) : bool :=
  match ks with
  | [] => true
  | k :: ks' => negb (existsb (String.eqb k) ks') && unique_keys ks'
  end.

(** A node of a flat graph: an operation, and a mapping of arguments with
    distinct names, none of them [from_node]. *)
Definition flat_node (process_ : pyval) : bool :=
  match process_ with
  | PDict node =>
      dict_has "process_id" node
      && match dict_get "arguments" node with
         | Some (PDict args) =>
             negb (dict_has "from_node" args)
             && unique_keys (keys args)
             && forallb (fun kv => flat_argument (snd kv)) args
         | _ => false
         end
  | _ => false
  end.

Definition flat_graph_shape (processes : dict) : Prop :=
  forallb (fun kv => flat_node (snd kv)) processes = true.

(** The state [_merge_processes] starts its first loop in. *)
Definition merge_start (self : GraphBuilder) (h : heap) : Merge :=
  {| merged := self; key_map := []; node_refs := []; merge_store := h |}.

(** The reference at [s] holds a key. *)
Definition holds_key (h : heap) (s : site) : Prop :=
  exists k, site_get (from_node_of s) h = Some (PStr k).

(** The reference at [s] holds a key or what [process] returned. *)
Definition holds_key_or_id (h : heap) (s : site) : Prop :=
  holds_key h s \/ site_get (from_node_of s) h = Some (PBuiltin "id").

(** Two traversal states that differ in the store only. *)
Definition same_but_store (st1 st2 : Flattener) : Prop :=
  key_generator st1 = key_generator st2
  /\ flat_graph st1 = flat_graph st2
  /\ last_node_id st1 = last_node_id st2.

(** ** Single-node graphs *)

(** An argument value in which the traversal has nothing to visit: no mapping,
    directly or as an element of a sequence, and no reference into the
    store. *)
Definition plain_value (x : pyval) : bool :=
  ref_free x
  && match x with
     | PDict _ => false
     | PList l => forallb (fun e => match e with PDict _ => false | _ => true end) l
     | _ => true
     end.

(** The node that [process] builds for the operation [p] with the arguments
    [args]. *)
Definition node_of (p : string) (args : dict) : pyval :=
  PDict [("process_id", PStr p); ("arguments", PDict args)].

(** A graph of a single node: none of its arguments embeds another node. *)
Definition single_node (p : string) (args : dict) (v : pyval) : Prop :=
  v = node_of p args /\ forallb (fun kv => plain_value (snd kv)) args = true.

(** ** Two statements of the specification, as worded *)

(** Chaining as the specification words it: an argument value that is a
    reference comes out wrapping the root the builder held before the call. *)
Definition chaining_as_claimed : Prop :=
  forall self process_id result args h r id self' h' name value,
    result_node self = Some r ->
    dict_get name args = Some value ->
    is_node_ref value = true ->
    add_process self process_id result args h = Ok (id, self', h') ->
    exists a d,
      result_node self' = Some a /\
      site_get (a, [Key "arguments"; Key name]) h' = Some (PDict d) /\
      dict_get "from_node" d = Some (PRef r).


(** A flat graph of two nodes; the second refers to the first, and to a key
    ["zzz"] that the graph does not have. *)
Definition example_flat_graph : dict :=
  [("loadcollection1",
    PDict [("process_id", PStr "load_collection");
           ("arguments", PDict [("id", PStr "S2")])]);
   ("filterbands1",
    PDict [("process_id", PStr "filter_bands");
           ("arguments",
            PDict [("data", PDict [("from_node", PStr "loadcollection1")]);
                   ("bands", PList [PStr "B02"; PDict [("from_node", PStr "zzz")]])]);
           ("result", PBool true)])].

(** ** Shapes used in the further properties *)

(** Every character of [s] is a decimal digit. *)
Fixpoint all_digits (s : string) : bool :=
  match s with
  | EmptyString => true
  | String c s' => is_digit c && all_digits s'
  end.

(** The last character of [s] is a decimal digit. *)
Fixpoint ends_in_digit (s : string) : bool :=
  match s with
  | EmptyString => false
  | String c EmptyString => is_digit c
  | String _ s' => ends_in_digit s'
  end.

(** Process ids that [generate] tells apart: without its underscores none
    ends in a digit, and no two differ by underscores only. *)
Definition unambiguous (process_ids : list string) : Prop :=
  Forall (fun p => ends_in_digit (replace_underscore p) = false) process_ids
  /\ forall p q,
      In p process_ids -> In q process_ids ->
      replace_underscore p = replace_underscore q -> p = q.

(** The [n] integers from [a] on. *)
Fixpoint N_range (a : N) (n : nat) : list N :=
  match n with
  | 0 => []
  | S n' => a :: N_range (N.succ a) n'
  end.

(** The order in which [sorted] puts the items of a dictionary: by key. *)
Definition key_le (a b : string * pyval) : Prop :=
  String.leb (fst a) (fst b) = true.

(** ** References of nested and of flat graphs *)

(** A nested graph whose references embed nodes: the [from_node] of every
    reference that the traversal meets holds a node, and so on inside that
    node and inside callbacks. *)
Section Linked.
Variable linked : pyval -> bool.

Definition reference_linked (node : dict) : bool :=
  match dict_with "from_node" (fun x => is_node x && linked x) node with
  | Some b => b
  | None => true
  end.

Definition callback_linked (node : dict) : bool :=
  match dict_with "callback" linked node with
  | Some b => b
  | None => true
  end.

Definition element_linked (element : pyval) : bool :=
  match element with
  | PDict node => reference_linked node
  | _ => true
  end.

Definition argument_linked (value : pyval) : bool :=
  match value with
  | PList elements => forallb element_linked elements
  | PDict node => reference_linked node && callback_linked node
  | _ => true
  end.

Definition arguments_linked (arguments : pyval) : bool :=
  match arguments with
  | PDict args => forallb (fun kv => argument_linked (snd kv)) args
  | _ => true
  end.

Definition process_linked (node : dict) : bool :=
  match dict_get "process_id" node with
  | None => true
  | Some _ =>
      match dict_with "arguments" arguments_linked node with
      | Some b => b
      | None => true
      end
  end.
End Linked.

Fixpoint linked (v : pyval) : bool :=
  match v with
  | PDict d => process_linked linked d
  | _ => true
  end.

(** A flat graph whose references are resolved: a reference that is the value
    of an argument, or an element of a list-valued argument, holds a key of
    the map that its entry belongs to, and the flat graph of a callback is
    resolved in itself. *)
Section Resolved.
Variable resolved : pyval -> bool.

Definition reference_resolved (ks : list string) (node : dict) : bool :=
  match dict_get "from_node" node with
  | Some (PStr k) => existsb (String.eqb k) ks
  | Some _ => false
  | None => true
  end.

Definition callback_resolved (node : dict) : bool :=
  match dict_with "callback" resolved node with
  | Some b => b
  | None => true
  end.

Definition element_resolved (ks : list string) (element : pyval) : bool :=
  match element with
  | PDict node => reference_resolved ks node
  | _ => true
  end.

Definition argument_resolved (ks : list string) (value : pyval) : bool :=
  match value with
  | PList elements => forallb (element_resolved ks) elements
  | PDict node => reference_resolved ks node && callback_resolved node
  | _ => true
  end.

Definition arguments_resolved (ks : list string) (arguments : pyval) : bool :=
  match arguments with
  | PDict args => forallb (fun kv => argument_resolved ks (snd kv)) args
  | _ => false
  end.

Definition entry_resolved (ks : list string) (entry : pyval) : bool :=
  match entry with
  | PDict e =>
      match dict_with "arguments" (arguments_resolved ks) e with
      | Some b => b
      | None => false
      end
  | _ => false
  end.
End Resolved.

Fixpoint resolved (flat : pyval) : bool :=
  match flat with
  | PDict d => forallb (fun kv => entry_resolved resolved (keys d) (snd kv)) d
  | _ => false
  end.

(** What a part of the traversal does to the flat graph: the keys it had are
    still there, and if its references were resolved they still are. *)
Definition grows (st st' : Flattener) : Prop :=
  (forall k, In k (keys (flat_graph st)) -> In k (keys (flat_graph st')))
  /\ (resolved (PDict (flat_graph st)) = true ->
      resolved (PDict (flat_graph st')) = true).

(** The key of the node left last is a key of the flat graph. *)
Definition last_key_known (st : Flattener) : Prop :=
  exists k, last_node_id st = PStr k /\ In k (keys (flat_graph st)).

(** * Properties *)

(** ** Dictionaries, lists and the store *)

Lemma dict_get_set_same {A : Type} (k : string) (v : A) d :
  dict_get k (dict_set k v d) = Some v.
Proof.
  induction d as [|[k' v'] d IH]; simpl.
  - now rewrite String.eqb_refl.
  - destruct (String.eqb k k') eqn:E; simpl; rewrite E; auto.
Qed.

Lemma dict_get_set_other {A : Type} (k k' : string) (v : A) d :
  k <> k' -> dict_get k (dict_set k' v d) = dict_get k d.
Proof.
  intros Hne. induction d as [|[k0 v0] d IH]; simpl.
  - destruct (String.eqb k k') eqn:E; auto.
    apply String.eqb_eq in E. contradiction.
  - destruct (String.eqb k' k0) eqn:E; simpl.
    + apply String.eqb_eq in E. subst k0.
      destruct (String.eqb k k') eqn:E'; auto.
      apply String.eqb_eq in E'. contradiction.
    + destruct (String.eqb k k0); auto.
Qed.

Lemma dict_with_get {A B : Type} (k : string) (f : A -> B) d :
  dict_with k f d = option_map f (dict_get k d).
Proof.
  induction d as [|[k' v] d IH]; simpl; auto.
  destruct (String.eqb k k'); auto.
Qed.

Lemma dict_has_set_same {A : Type} (k : string) (v : A) d :
  dict_has k (dict_set k v d) = true.
Proof. unfold dict_has. now rewrite dict_get_set_same. Qed.

Lemma keys_dict_set_in {A : Type} (k : string) (v : A) d :
  dict_has k d = true -> keys (dict_set k v d) = keys d.
Proof.
  unfold dict_has, keys. induction d as [|[k' v'] d IH]; simpl.
  - discriminate.
  - destruct (String.eqb k k') eqn:E; simpl; auto.
    intros H. now rewrite IH.
Qed.

Lemma keys_dict_set_new {A : Type} (k : string) (v : A) d :
  dict_has k d = false -> keys (dict_set k v d) = (keys d ++ [k])%list.
Proof.
  unfold dict_has, keys. induction d as [|[k' v'] d IH]; simpl; auto.
  destruct (String.eqb k k') eqn:E; simpl; try discriminate.
  intros H. now rewrite IH.
Qed.

Lemma dict_get_in_keys {A : Type} (k : string) (v : A) d :
  dict_get k d = Some v -> In k (keys d).
Proof.
  unfold keys. induction d as [|[k' v'] d IH]; simpl; try discriminate.
  destruct (String.eqb k k') eqn:E.
  - apply String.eqb_eq in E. auto.
  - auto.
Qed.

Lemma dict_get_not_in_keys {A : Type} (k : string) (d : list (string * A)) :
  ~ In k (keys d) -> dict_get k d = None.
Proof.
  destruct (dict_get k d) eqn:E; auto.
  intros H. apply dict_get_in_keys in E. contradiction.
Qed.

Lemma in_keys_dict_get {A : Type} (k : string) (d : list (string * A)) :
  In k (keys d) -> exists v, dict_get k d = Some v.
Proof.
  unfold keys. induction d as [|[k' v'] d IH]; simpl; [tauto|].
  intros [H | H].
  - subst. rewrite String.eqb_refl. eauto.
  - destruct (String.eqb k k'); eauto.
Qed.

Lemma heap_get_alloc_new v h :
  heap_get (fst (alloc v h)) (snd (alloc v h)) = Some v.
Proof.
  unfold heap_get, alloc; simpl.
  rewrite nth_error_app2 by lia. now rewrite Nat.sub_diag.
Qed.

Lemma heap_get_alloc_old v h a :
  a < List.length h -> heap_get a (snd (alloc v h)) = heap_get a h.
Proof. intros H. unfold heap_get, alloc; simpl. now rewrite nth_error_app1. Qed.

Lemma heap_get_app_old (h t : heap) a :
  a < List.length h -> heap_get a (h ++ t)%list = heap_get a h.
Proof. intros H. unfold heap_get. now rewrite nth_error_app1. Qed.

Lemma heap_set_length a v h : List.length (heap_set a v h) = List.length h.
Proof.
  revert a. induction h as [|x h IH]; intros [|a]; simpl; auto.
Qed.

Lemma heap_get_set_same a v h :
  a < List.length h -> heap_get a (heap_set a v h) = Some v.
Proof.
  unfold heap_get. revert a. induction h as [|x h IH]; intros [|a]; simpl;
    intros H; try lia; auto.
  apply IH. lia.
Qed.

Lemma heap_get_set_other a b v h :
  a <> b -> heap_get a (heap_set b v h) = heap_get a h.
Proof.
  unfold heap_get. revert a b.
  induction h as [|x h IH]; intros [|a] [|b]; simpl; intros H; auto;
    try contradiction.
Qed.

Lemma heap_get_lt a h v : heap_get a h = Some v -> a < List.length h.
Proof. intros H. apply nth_error_Some. unfold heap_get in H. congruence. Qed.

(** ** Key generation *)

Example generate_load_collection :
  fst (generate_all ["load_collection"; "load_collection"] FlatGraphKeyGenerator_init)
  = ["loadcollection1"; "loadcollection2"].
Proof. reflexivity. Qed.

Lemma str_of_nat_inj n m : str_of_nat n = str_of_nat m -> n = m.
Proof.
  unfold str_of_nat. intros H. apply DecimalNat.Unsigned.to_uint_inj.
  assert (E : Some (Nat.to_uint n) = Some (Nat.to_uint m))
    by (rewrite <- !NilEmpty.usu; now rewrite H).
  now injection E.
Qed.

Lemma append_inj_l (p s t : string) : p ++ s = p ++ t -> s = t.
Proof. induction p as [|c p IH]; simpl; intros H; auto. injection H. auto. Qed.

Lemma counter_after_generate p kg :
  counter p (snd (generate p kg)) = S (counter p kg).
Proof. unfold generate, counter. simpl. now rewrite dict_get_set_same. Qed.

Lemma generate_all_repeat p n :
  forall kg,
    fst (generate_all (repeat p n) kg)
    = map (fun i => replace_underscore p ++ str_of_nat i) (seq (S (counter p kg)) n).
Proof.
  induction n as [|n IH]; intros kg; [reflexivity|].
  cbn [repeat generate_all seq map].
  pose proof (counter_after_generate p kg) as Hc.
  destruct (generate p kg) as [k kg1] eqn:G. specialize (IH kg1).
  destruct (generate_all (repeat p n) kg1) as [ks kg2]. cbn [fst snd] in *.
  rewrite IH, Hc. f_equal.
  unfold generate in G. now injection G as <- _.
Qed.

(** What does hold of [generate]: the keys drawn for one process id are
    pairwise distinct. *)
Lemma generate_same_id_distinct p n kg :
  NoDup (fst (generate_all (repeat p n) kg)).
Proof.
  rewrite generate_all_repeat. apply Injective_map_NoDup; [|apply seq_NoDup].
  intros i j H. apply append_inj_l in H. now apply str_of_nat_inj.
Qed.

(** C1 (the code does not keep the claim).  Two calls on one generator return
    the same key when the process ids differ only by underscores: the counter
    is kept per process id as given, the key uses the id without underscores.
    The same happens when one id is the other followed by digits: the 21st
    key for ["arctan"] and the first key for ["arctan2"] are both
    ["arctan21"].  A node ["ab"] that embeds a node ["a_b"] then flattens to a
    map of a single entry, the second key having overwritten the first, and
    its reference names the entry it sits in. *)
Theorem generate_returns_equal_keys :
  fst (generate_all ["a_b"; "ab"] FlatGraphKeyGenerator_init) = ["ab1"; "ab1"]
  /\ (let ks := fst (generate_all (repeat "arctan" 21 ++ ["arctan2"])%list
                       FlatGraphKeyGenerator_init) in
      nth 20 ks "" = "arctan21" /\ nth 21 ks "" = "arctan21")
  /\ (let graph :=
        PDict [("process_id", PStr "ab");
               ("arguments",
                PDict [("data",
                        PDict [("from_node",
                                PDict [("process_id", PStr "a_b");
                                       ("arguments", PDict [])])])])] in
      exists kg h,
        flatten {| result_node := Some 0 |} None [graph]
        = Ok ([("ab1",
                PDict [("process_id", PStr "ab");
                       ("arguments",
                        PDict [("data", PDict [("from_node", PStr "ab1")])]);
                       ("result", PBool true)])], kg, h)).
Proof.
  split; [reflexivity|]. split; [split; vm_compute; reflexivity|].
  eexists; eexists. vm_compute. reflexivity.
Qed.

(** ** Adding a process *)

Lemma process_spec self process_id args h r :
  result_node self = Some r ->
  process self process_id args h
  = Ok (PBuiltin "id", {| result_node := Some (List.length h) |},
        (h ++ [PDict [("process_id", process_id);
                      ("arguments",
                       PDict (if dict_has "from_node" args
                              then dict_set "from_node" (PRef r) args
                              else args))]])%list).
Proof.
  intros Hr. unfold process. rewrite Hr.
  destruct (dict_has "from_node" args); reflexivity.
Qed.

Lemma process_spec_unchained self process_id args h :
  dict_has "from_node" args = false ->
  process self process_id args h
  = Ok (PBuiltin "id", {| result_node := Some (List.length h) |},
        (h ++ [PDict [("process_id", process_id); ("arguments", PDict args)]])%list).
Proof. intros Hf. unfold process. rewrite Hf. reflexivity. Qed.

Lemma heap_get_app_new (h : heap) v : heap_get (List.length h) (h ++ [v])%list = Some v.
Proof. apply (heap_get_alloc_new v h). Qed.

(** What [add_process] leaves in the store, given what [process] built. *)
Lemma add_process_after_process self process_id result args h args' :
  process self process_id args h
  = Ok (PBuiltin "id", {| result_node := Some (List.length h) |},
        (h ++ [PDict [("process_id", process_id); ("arguments", PDict args')]])%list) ->
  exists node,
    add_process self process_id result args h
    = Ok (PBuiltin "id", {| result_node := Some (List.length h) |}, (h ++ [PDict node])%list)
    /\ dict_get "process_id" node = Some process_id
    /\ dict_get "arguments" node = Some (PDict args')
    /\ dict_get "result" node = match result with PNone => None | _ => Some result end.
Proof.
  intros Hp. unfold add_process. rewrite Hp. simpl.
  assert (Hset : forall x,
             set_result (List.length h) x
               (h ++ [PDict [("process_id", process_id); ("arguments", PDict args')]])%list
             = Ok (h ++ [PDict [("process_id", process_id);
                                ("arguments", PDict args'); ("result", x)]])%list).
  { intros x. unfold set_result. rewrite heap_get_app_new. simpl. f_equal.
    clear. induction h as [|y h IH]; simpl; [reflexivity|]. now rewrite IH. }
  destruct result;
    try (rewrite Hset; simpl; eexists; repeat split; reflexivity).
  eexists; repeat split; reflexivity.
Qed.

(** C10.  [add_process] with [result] not [None] leaves the entry
    ["result": result] in the new root, also for [result=False]; with
    [result=None] the new root has no ["result"] entry.  The call returns
    whenever it does not ask for chaining on a builder without a root. *)
Theorem add_process_writes_result self process_id result args h :
  (dict_has "from_node" args = true -> result_node self <> None) ->
  exists id self' h' a node,
    add_process self process_id result args h = Ok (id, self', h')
    /\ result_node self' = Some a
    /\ heap_get a h' = Some (PDict node)
    /\ dict_get "process_id" node = Some process_id
    /\ dict_get "result" node = match result with PNone => None | _ => Some result end.
Proof.
  intros Hroot.
  assert (Hp : exists args',
             process self process_id args h
             = Ok (PBuiltin "id", {| result_node := Some (List.length h) |},
                   (h ++ [PDict [("process_id", process_id);
                                 ("arguments", PDict args')]])%list)).
  { destruct (dict_has "from_node" args) eqn:Hf.
    - destruct (result_node self) as [r|] eqn:Hr; [|exfalso; now apply Hroot].
      eexists. apply process_spec. exact Hr.
    - eexists. apply process_spec_unchained. exact Hf. }
  destruct Hp as [args' Hp].
  destruct (add_process_after_process _ _ result _ _ _ Hp) as (node & Hadd & Hpid & _ & Hres).
  exists (PBuiltin "id"), {| result_node := Some (List.length h) |},
    (h ++ [PDict node])%list, (List.length h), node.
  repeat split; auto. apply heap_get_app_new.
Qed.

Lemma add_process_writes_result_witness :
  exists id self' h' a node,
    add_process GraphBuilder_init (PStr "load_collection") (PBool false)
      [("id", PStr "S2")] [] = Ok (id, self', h')
    /\ result_node self' = Some a
    /\ heap_get a h' = Some (PDict node)
    /\ dict_get "process_id" node = Some (PStr "load_collection")
    /\ dict_get "result" node = Some (PBool false).
Proof.
  apply (add_process_writes_result GraphBuilder_init (PStr "load_collection")
           (PBool false) [("id", PStr "S2")] []).
  simpl. discriminate.
Defined.

(** C4 as claimed fails.  The code has no notion of a reference that points
    at the current result other than the argument name [from_node]: a
    reference that wraps the current root, passed under that name, is replaced
    by the root itself and wraps nothing afterwards (and a reference passed
    under any other name is kept as it was given, whatever it holds). *)
Lemma chaining_as_claimed_fails : ~ chaining_as_claimed.
Proof.
  intros H.
  destruct (H {| result_node := Some 0 |} (PStr "filter_bands") PNone
              [("from_node", PDict [("from_node", PRef 0)])]
              [PDict [("process_id", PStr "load_collection"); ("arguments", PDict [])]]
              0 (PBuiltin "id") {| result_node := Some 1 |}
              [PDict [("process_id", PStr "load_collection"); ("arguments", PDict [])];
               PDict [("process_id", PStr "filter_bands");
                      ("arguments", PDict [("from_node", PRef 0)])]]
              "from_node" (PDict [("from_node", PRef 0)])
              eq_refl eq_refl eq_refl eq_refl)
    as (a & d & Ha & Hs & Hd).
  simpl in Ha. injection Ha as <-.
  vm_compute in Hs. discriminate.
Qed.

Example chaining_other_name_kept :
  add_process {| result_node := Some 0 |} (PStr "filter_bands") PNone
    [("data", PDict [("from_node", PNone)])]
    [PDict [("process_id", PStr "load_collection"); ("arguments", PDict [])]]
  = Ok (PBuiltin "id", {| result_node := Some 1 |},
        [PDict [("process_id", PStr "load_collection"); ("arguments", PDict [])];
         PDict [("process_id", PStr "filter_bands");
                ("arguments", PDict [("data", PDict [("from_node", PNone)])])]]).
Proof. reflexivity. Qed.

(** C4 (amended).  On a builder that holds a root, [add_process] replaces the
    value of the argument named [from_node], when the call has one, by the
    builder's current root, held by reference; every argument under another
    name is stored as given; the new node becomes the root and the objects
    already in the store are unchanged. *)
Theorem add_process_chains_from_node self process_id result args h r :
  result_node self = Some r ->
  exists id h',
    add_process self process_id result args h
    = Ok (id, {| result_node := Some (List.length h) |}, h')
    /\ (dict_has "from_node" args = true ->
        site_get (List.length h, [Key "arguments"; Key "from_node"]) h' = Some (PRef r))
    /\ (forall name, name <> "from_node" ->
        site_get (List.length h, [Key "arguments"; Key name]) h' = dict_get name args)
    /\ (dict_has "from_node" args = false ->
        site_get (List.length h, [Key "arguments"; Key "from_node"]) h' = None)
    /\ (forall a, a < List.length h -> heap_get a h' = heap_get a h).
Proof.
  intros Hr.
  pose proof (process_spec self process_id args h r Hr) as Hp.
  destruct (add_process_after_process _ _ result _ _ _ Hp) as (node & Hadd & _ & Hargs & _).
  exists (PBuiltin "id"), (h ++ [PDict node])%list.
  split; [exact Hadd|].
  assert (Hsite : forall name,
             site_get (List.length h, [Key "arguments"; Key name]) (h ++ [PDict node])%list
             = dict_get name (if dict_has "from_node" args
                              then dict_set "from_node" (PRef r) args else args)).
  { intros name. unfold site_get. simpl fst. rewrite heap_get_app_new.
    simpl. rewrite Hargs. now destruct (dict_get name _). }
  repeat split.
  - intros Hf. rewrite Hsite, Hf. apply dict_get_set_same.
  - intros name Hne. rewrite Hsite.
    destruct (dict_has "from_node" args); auto.
    now apply dict_get_set_other.
  - intros Hf. rewrite Hsite, Hf. unfold dict_has in Hf.
    now destruct (dict_get "from_node" args).
  - intros a Ha. now apply heap_get_app_old.
Qed.

Lemma add_process_chains_from_node_witness :
  exists id h',
    add_process {| result_node := Some 0 |} (PStr "filter_bands") PNone
      [("from_node", PNone); ("bands", PList [PStr "B02"])]
      [PDict [("process_id", PStr "load_collection"); ("arguments", PDict [])]]
    = Ok (id, {| result_node := Some 1 |}, h')
    /\ site_get (1, [Key "arguments"; Key "from_node"]) h' = Some (PRef 0)
    /\ site_get (1, [Key "arguments"; Key "bands"]) h' = Some (PList [PStr "B02"]).
Proof.
  destruct (add_process_chains_from_node {| result_node := Some 0 |}
              (PStr "filter_bands") PNone
              [("from_node", PNone); ("bands", PList [PStr "B02"])]
              [PDict [("process_id", PStr "load_collection"); ("arguments", PDict [])]]
              0 eq_refl) as (id & h' & Hadd & Hfrom & Hother & _ & _).
  exists id, h'. split; [exact Hadd|]. split.
  - apply Hfrom. reflexivity.
  - apply (Hother "bands"). discriminate.
Defined.

(** ** Combining two graphs *)

(** C5 (the code does not keep the claim; same defect as C1).  For the
    single-node graphs ["a_b"] and ["ab"], both nodes receive the key ["ab1"]:
    the flat map of [combine("sum", A, B)] has two entries instead of three,
    A's node is lost and both references of ["sum"] name B's node. *)
Theorem combine_sum_loses_a_node :
  let A := PDict [("process_id", PStr "a_b"); ("arguments", PDict [])] in
  let B := PDict [("process_id", PStr "ab"); ("arguments", PDict [])] in
  exists merged h kg h',
    combine (PStr "sum") {| result_node := Some 0 |} {| result_node := Some 1 |}
      "data" [A; B] = Ok (merged, h)
    /\ flatten merged None h
       = Ok ([("ab1", B);
              ("sum1",
               PDict [("process_id", PStr "sum");
                      ("arguments",
                       PDict [("data", PList [PDict [("from_node", PStr "ab1")];
                                              PDict [("from_node", PStr "ab1")]])]);
                      ("result", PBool true)])], kg, h').
Proof.
  do 4 eexists. split; vm_compute; reflexivity.
Qed.

(** ** Nested accessor *)

Module UtilFacts.
Import Util.

Lemma item_spec i l v :
  item i l = Some v <->
  (0 <= i < Z.of_nat (List.length l))%Z /\ nth_error l (Z.to_nat i) = Some v.
Proof.
  unfold item.
  destruct (0 <=? i)%Z eqn:E1; destruct (i <? Z.of_nat (List.length l))%Z eqn:E2;
    simpl; split; try discriminate;
    try (intros [[H1 H2] _]; lia).
  - intros H. split; [lia | exact H].
  - now intros [_ H].
Qed.

Lemma deep_step_present dat k v : deep_step dat k = Some v <-> present dat k v.
Proof.
  split.
  - destruct dat as [a|d|l|l]; simpl; try discriminate.
    + now constructor.
    + destruct k as [s|i]; [discriminate|].
      intros H. apply item_spec in H as [H1 H2]. now constructor.
    + destruct k as [s|i]; [discriminate|].
      intros H. apply item_spec in H as [H1 H2]. now constructor.
  - intros H. destruct H; simpl; auto; now apply item_spec.
Qed.

Lemma present_functional dat k v w : present dat k v -> present dat k w -> v = w.
Proof.
  intros H1 H2. apply deep_step_present in H1, H2. congruence.
Qed.

Lemma reaches_functional dat ks v w : reaches dat ks v -> reaches dat ks w -> v = w.
Proof.
  intros H. revert w. induction H; intros w Hw; inversion Hw; subst; auto.
  apply IHreaches.
  now rewrite (present_functional _ _ _ _ H H4).
Qed.

Lemma deep_loop_found all default dat ks v :
  reaches dat ks v -> deep_loop all default dat ks = inl v.
Proof.
  induction 1; simpl; auto.
  apply deep_step_present in H. now rewrite H.
Qed.

Lemma deep_loop_missing all dat ks :
  absent dat ks ->
  (exists k, In k ks /\ deep_loop all None dat ks = inr (DeepKeyError k all))
  /\ forall d, deep_loop all (Some d) dat ks = inl d.
Proof.
  unfold absent. revert dat.
  induction ks as [|k ks IH]; intros dat Habs.
  - exfalso. apply (Habs dat). constructor.
  - simpl. destruct (deep_step dat k) as [dat'|] eqn:E.
    + apply deep_step_present in E.
      destruct (IH dat') as [(k' & Hin & Hk') Hd].
      { intros v Hv. apply (Habs v). econstructor; eauto. }
      split; [exists k'; auto | exact Hd].
    + split; [exists k; auto | reflexivity].
Qed.

Lemma reaches_or_absent dat ks : (exists v, reaches dat ks v) \/ absent dat ks.
Proof.
  revert dat. induction ks as [|k ks IH]; intros dat.
  - left. exists dat. constructor.
  - destruct (deep_step dat k) as [dat'|] eqn:E.
    + apply deep_step_present in E.
      destruct (IH dat') as [[v Hv] | Habs].
      * left. exists v. econstructor; eauto.
      * right. intros v Hv. inversion Hv; subst.
        rewrite (present_functional _ _ _ _ H2 E) in H4. now apply (Habs v).
    + right. intros v Hv. inversion Hv; subst.
      apply deep_step_present in H2. congruence.
Qed.

(** C9.  Without a default, [deep_get] returns the value the path reaches
    and raises [DeepKeyError], for a key of the path, exactly when some step
    is absent; a step is present in a dict that has the key and in a list or
    tuple at an integer index [0 <= i < len].  With a default, the value
    reached is returned when there is one and the default otherwise. *)
Theorem deep_get_follows_path dat ks :
  (forall v, deep_get dat ks None = inl v <-> reaches dat ks v)
  /\ ((exists k, In k ks /\ deep_get dat ks None = inr (DeepKeyError k ks))
      <-> absent dat ks)
  /\ (forall e, deep_get dat ks None = inr e -> absent dat ks)
  /\ (forall d v, reaches dat ks v -> deep_get dat ks (Some d) = inl v)
  /\ (forall d, absent dat ks -> deep_get dat ks (Some d) = inl d).
Proof.
  unfold deep_get.
  assert (Hraise : forall e, deep_loop ks None dat ks = inr e -> absent dat ks).
  { intros e He. destruct (reaches_or_absent dat ks) as [[w Hw] | Habs]; auto.
    rewrite (deep_loop_found ks None _ _ _ Hw) in He. discriminate. }
  repeat split.
  - intros H. destruct (reaches_or_absent dat ks) as [[w Hw] | Habs].
    + rewrite (deep_loop_found ks None _ _ _ Hw) in H. now injection H as <-.
    + destruct (deep_loop_missing ks _ _ Habs) as [(k & _ & Hk) _]. congruence.
  - apply deep_loop_found.
  - intros (k & _ & Hk). now apply (Hraise _ Hk).
  - intros Habs. now destruct (deep_loop_missing ks _ _ Habs) as [Hk _].
  - exact Hraise.
  - intros d v Hv. now apply deep_loop_found.
  - intros d Habs. now destruct (deep_loop_missing ks _ _ Habs) as [_ Hd].
Qed.

Example deep_get_negative_index :
  deep_get (List [Atom (AInt 1); Atom (AInt 2)]) [KInt (-1)] None
  = inr (DeepKeyError (KInt (-1)) [KInt (-1)]).
Proof. reflexivity. Qed.

End UtilFacts.

(** ** Traversal: general facts *)

Lemma bind_ok {A B : Type} (c : outcome A) (k : A -> outcome B) (b : B) :
  bind c k = Ok b -> exists a, c = Ok a /\ k a = Ok b.
Proof. destruct c as [a|e]; simpl; [eauto | discriminate]. Qed.

Ltac bind_inv H :=
  let a := fresh "x" in
  let Ha := fresh "Hx" in
  apply bind_ok in H; destruct H as (a & Ha & H).

Lemma mapM_step {S A B : Type} (f : A -> S -> outcome (B * S)) (R : list A -> S -> S -> Prop) :
  (forall s, R [] s s) ->
  (forall x l s y s1 s2,
      f x s = Ok (y, s1) -> R l s1 s2 -> R (x :: l) s s2) ->
  forall l s ys s', mapM f l s = Ok (ys, s') -> R l s s'.
Proof.
  intros Hnil Hcons. induction l as [|x l IH]; simpl; intros s ys s' H.
  - injection H as <- <-. apply Hnil.
  - bind_inv H. destruct x0 as [y s1]. bind_inv H. destruct x0 as [ys' s2].
    injection H as <- <-. eapply Hcons; eauto.
Qed.

Lemma preserves_refl h : preserves h h.
Proof. split; auto. Qed.

Lemma preserves_trans h1 h2 h3 : preserves h1 h2 -> preserves h2 h3 -> preserves h1 h3.
Proof.
  intros [L1 G1] [L2 G2]. split; [lia|].
  intros a Ha. rewrite G2 by lia. now apply G1.
Qed.

Lemma preserves_alloc v h : preserves h (snd (alloc v h)).
Proof.
  split.
  - simpl. rewrite length_app. lia.
  - intros a Ha. now apply heap_get_alloc_old.
Qed.

Lemma preserves_set h h' a v :
  preserves h h' -> List.length h <= a -> preserves h (heap_set a v h').
Proof.
  intros [L G] Ha. split.
  - now rewrite heap_set_length.
  - intros b Hb. rewrite heap_get_set_other by lia. now apply G.
Qed.

Lemma generate_all_app ps qs kg :
  generate_all (ps ++ qs) kg
  = ((fst (generate_all ps kg) ++ fst (generate_all qs (snd (generate_all ps kg))))%list,
     snd (generate_all qs (snd (generate_all ps kg)))).
Proof.
  revert kg. induction ps as [|p ps IH]; intros kg; simpl.
  - now destruct (generate_all qs kg).
  - rewrite IH. destruct (generate_all ps _). simpl.
    now destruct (generate_all qs _).
Qed.

Lemma step_ok_refl st : step_ok [] st st.
Proof.
  split; [apply preserves_refl|]. split; [reflexivity | auto].
Qed.

Lemma step_ok_trans ps qs st1 st2 st3 :
  step_ok ps st1 st2 -> step_ok qs st2 st3 -> step_ok (ps ++ qs) st1 st3.
Proof.
  intros (P1 & K1 & F1) (P2 & K2 & F2).
  split; [eapply preserves_trans; eauto|]. split.
  - rewrite generate_all_app. simpl. now rewrite K2, K1.
  - auto.
Qed.

(** Keys carry no underscore. *)
Lemma mentions_app c s t : mentions c (s ++ t) = mentions c s || mentions c t.
Proof.
  induction s as [|c' s IH]; simpl; auto.
  rewrite IH. now rewrite orb_assoc.
Qed.

Lemma replace_underscore_clean s : mentions "_"%char (replace_underscore s) = false.
Proof.
  induction s as [|c s IH]; [reflexivity|].
  cbn [replace_underscore].
  destruct (Ascii.eqb c "_"%char) eqn:E; auto.
  cbn [mentions]. rewrite IH, orb_false_r, Ascii.eqb_sym. exact E.
Qed.

Lemma str_of_nat_clean n : mentions "_"%char (str_of_nat n) = false.
Proof.
  unfold str_of_nat. generalize (Nat.to_uint n) as d.
  induction d; simpl; auto.
Qed.

Lemma generate_key_clean p kg : mentions "_"%char (fst (generate p kg)) = false.
Proof.
  unfold generate. simpl. rewrite mentions_app.
  now rewrite replace_underscore_clean, str_of_nat_clean.
Qed.

Lemma flat_ok_set k p args flat :
  mentions "_"%char k = false ->
  flat_ok flat ->
  flat_ok (dict_set k (PDict [("process_id", PStr p); ("arguments", PDict args)]) flat).
Proof.
  intros Hk [Hnd Hall]. split.
  - destruct (dict_has k flat) eqn:E.
    + now rewrite keys_dict_set_in.
    + rewrite keys_dict_set_new by exact E.
      apply NoDup_app; auto.
      * constructor; [simpl; tauto | constructor].
      * intros x Hx [<- | []]. unfold dict_has in E.
        apply in_keys_dict_get in Hx as [v Hv]. now rewrite Hv in E.
  - clear Hnd. induction flat as [|[k' v'] flat IH]; simpl.
    + constructor; [|constructor]. split; simpl; eauto.
    + inversion Hall; subst. destruct (String.eqb k k') eqn:E.
      * constructor; auto. destruct H1 as [H1 _]. split; simpl; eauto.
      * constructor; auto.
Qed.

Lemma leaveProcess_ok process_id arguments st st' :
  leaveProcess process_id arguments st = Ok st' ->
  exists p,
    process_id = PStr p
    /\ step_ok [p] st st'
    /\ last_node_id st' = PStr (fst (generate p (key_generator st)))
    /\ flat_graph st'
       = dict_set (fst (generate p (key_generator st)))
           (PDict [("process_id", PStr p); ("arguments", PDict arguments)])
           (flat_graph st).
Proof.
  unfold leaveProcess. destruct process_id; try discriminate.
  pose proof (generate_key_clean s (key_generator st)) as Hclean.
  destruct (generate s (key_generator st)) as [node_id kg] eqn:G.
  intros H. injection H as <-. exists s. rewrite G. cbn [fst] in *.
  split; [reflexivity|]. split; [|split; reflexivity].
  split; [apply preserves_refl|]. cbn [key_generator flat_graph generate_all].
  rewrite G. split; [reflexivity|].
  intros Hf. now apply flat_ok_set.
Qed.

Lemma Forall_dict_get {A : Type} (P : A -> Prop) k (d : list (string * A)) x :
  Forall (fun kv => P (snd kv)) d -> dict_get k d = Some x -> P x.
Proof.
  induction 1 as [|[k' v] d Hv Hd IH]; simpl; [discriminate|].
  destruct (String.eqb k k'); auto.
  intros H. injection H as <-. exact Hv.
Qed.

(** Induction over the four layers of the traversal: a node, its arguments,
    one argument value, one element of a sequence. *)
Section traversal_ind.
Variables PA PB PC PD : pyval -> Prop.
Hypothesis HA : forall v,
  (forall d a, v = PDict d -> dict_get "arguments" d = Some a -> PB a) -> PA v.
Hypothesis HB : forall v,
  (forall args, v = PDict args -> Forall (fun kv => PC (snd kv)) args) -> PB v.
Hypothesis HC : forall v,
  (forall l, v = PList l -> Forall PD l) ->
  (forall d k x, v = PDict d -> dict_get k d = Some x -> PA x) -> PC v.
Hypothesis HD : forall v,
  (forall d k x, v = PDict d -> dict_get k d = Some x -> PA x) -> PD v.

Lemma traversal_ind v : PA v /\ PB v /\ PC v /\ PD v.
Proof.
  induction v as [| | | | | |l IH|d IH] using pyval_ind';
    try (repeat split;
         [apply HA | apply HB | apply HC | apply HD]; intros; discriminate).
  - repeat split; [apply HA | apply HB | apply HC | apply HD];
      intros; try discriminate.
    injection H as <-. eapply Forall_impl; [|exact IH]. simpl. tauto.
  - repeat split; [apply HA | apply HB | apply HC | apply HD];
      intros; try discriminate.
    + injection H as <-.
      apply (Forall_dict_get (fun x => PA x /\ PB x /\ PC x /\ PD x) _ _ _ IH H0).
    + injection H as <-. eapply Forall_impl; [|exact IH]. simpl. tauto.
    + injection H as <-.
      apply (Forall_dict_get (fun x => PA x /\ PB x /\ PC x /\ PD x) _ _ _ IH H0).
    + injection H as <-.
      apply (Forall_dict_get (fun x => PA x /\ PB x /\ PC x /\ PD x) _ _ _ IH H0).
Qed.
End traversal_ind.

Lemma accept_unfold d st : accept (PDict d) st = visit_process accept d st.
Proof. reflexivity. Qed.

(** The traversal written with plain lookups. *)
Lemma visit_process_lookup d st :
  visit_process accept d st
  = match dict_get "process_id" d with
    | None => Ok (PDict d, st)
    | Some process_id =>
        match dict_get "arguments" d with
        | Some a =>
            '(arguments, st1) <- visit_arguments accept a st ;;
            st2 <- leaveProcess process_id arguments st1 ;;
            Ok (PDict (dict_set "arguments" (PDict arguments) d), st2)
        | None =>
            st1 <- leaveProcess process_id [] st ;;
            Ok (PDict d, st1)
        end
    end.
Proof.
  unfold visit_process. rewrite dict_with_get.
  destruct (dict_get "process_id" d); auto.
  now destruct (dict_get "arguments" d).
Qed.

Lemma visit_reference_lookup node st :
  visit_reference accept node st
  = match dict_get "from_node" node with
    | Some x => '(_, st') <- accept x st ;; Ok st'
    | None => Ok st
    end.
Proof.
  unfold visit_reference. rewrite dict_with_get.
  now destruct (dict_get "from_node" node).
Qed.

Lemma flat_callback_lookup node :
  dict_with "callback" (fun callback => flatten_callback (accept callback) callback) node
  = match dict_get "callback" node with
    | Some callback => Some (flatten_callback (accept callback) callback)
    | None => None
    end.
Proof. rewrite dict_with_get. now destruct (dict_get "callback" node). Qed.

Lemma accept_not_dict v st :
  (forall d, v <> PDict d) -> accept v st = Ok (v, st).
Proof. destruct v; auto. intros H. now destruct (H d). Qed.

Lemma postorder_unfold d : postorder (PDict d) = postorder_process postorder d.
Proof. reflexivity. Qed.

Section step_ok_layers.
Variable node : dict.
Hypothesis IH : forall k x st v' st',
  dict_get k node = Some x ->
  accept x st = Ok (v', st') -> step_ok (postorder x) st st'.

Lemma visit_reference_ok st st' :
  visit_reference accept node st = Ok st' ->
  step_ok (postorder_reference postorder node) st st'.
Proof.
  unfold visit_reference, postorder_reference. rewrite !dict_with_get.
  destruct (dict_get "from_node" node) as [x|] eqn:E; simpl.
  - intros H. bind_inv H. destruct x0 as [v' st1]. injection H as <-.
    eapply IH; eauto.
  - intros H. injection H as <-. apply step_ok_refl.
Qed.

Lemma flatten_copy_ok visit copy ps kg h flat kg' h' :
  (forall st v' st', visit st = Ok (v', st') -> step_ok ps st st') ->
  flatten_copy visit copy kg h = Ok (flat, kg', h') ->
  preserves h h' /\ kg' = snd (generate_all ps kg).
Proof.
  intros Hv. unfold flatten_copy. simpl.
  intros H. bind_inv H. destruct x as [copy' st]. bind_inv H.
  injection H as <- <- <-.
  apply Hv in Hx as (P & K & _). simpl in P, K. split; auto.
  apply preserves_set; [|apply Nat.le_refl].
  eapply preserves_trans; [apply (preserves_alloc copy h) | exact P].
Qed.

Lemma leaveArgument_ok st node' st' :
  leaveArgument
    (dict_with "callback"
       (fun callback => flatten_callback (accept callback) callback) node)
    node st = Ok (node', st') ->
  step_ok (postorder_callback postorder node) st st'
  /\ flat_graph st' = flat_graph st /\ last_node_id st' = last_node_id st.
Proof.
  unfold leaveArgument, postorder_callback. rewrite !dict_with_get.
  destruct (dict_get "callback" node) as [cb|] eqn:E; simpl.
  - intros H. bind_inv H. destruct x as [[flat kg] h]. injection H as <- <-.
    unfold flatten_callback in Hx. simpl in Hx.
    apply (flatten_copy_ok _ _ (postorder cb)) in Hx as [P K].
    + simpl. split; [|split; reflexivity].
      split; [|split; [exact K | auto]].
      eapply preserves_trans; [|exact P].
      apply (preserves_alloc cb (store st)).
    + intros st0 v' st1. now apply (IH "callback").
  - intros H. injection H as <- <-.
    split; [apply step_ok_refl | split; reflexivity].
Qed.
End step_ok_layers.

Lemma mapM_step_ok {A B : Type} (f : A -> Flattener -> outcome (B * Flattener))
  (g : A -> list string) l :
  Forall (fun x => forall s y s1, f x s = Ok (y, s1) -> step_ok (g x) s s1) l ->
  forall s ys s', mapM f l s = Ok (ys, s') -> step_ok (flat_map g l) s s'.
Proof.
  induction 1 as [|x l Hx Hl IH]; simpl; intros s ys s' H.
  - injection H as <- <-. apply step_ok_refl.
  - bind_inv H. destruct x0 as [y s1]. bind_inv H. destruct x0 as [ys' s2].
    injection H as <- <-.
    eapply step_ok_trans; eauto.
Qed.

(** The traversal keeps the objects of the store, draws its keys in post
    order and keeps the flat graph well formed. *)
Lemma accept_step_ok v :
  (forall st v' st', accept v st = Ok (v', st') -> step_ok (postorder v) st st')
  /\ (forall st r st', visit_arguments accept v st = Ok (r, st') ->
      step_ok (postorder_arguments postorder v) st st')
  /\ (forall k st r st', visit_argument accept (k, v) st = Ok (r, st') ->
      step_ok (postorder_argument postorder v) st st')
  /\ (forall st r st', visit_element accept v st = Ok (r, st') ->
      step_ok (postorder_element postorder v) st st').
Proof.
  apply (traversal_ind
    (fun v => forall st v' st', accept v st = Ok (v', st') ->
                                step_ok (postorder v) st st')
    (fun v => forall st r st', visit_arguments accept v st = Ok (r, st') ->
                               step_ok (postorder_arguments postorder v) st st')
    (fun v => forall k st r st', visit_argument accept (k, v) st = Ok (r, st') ->
                                 step_ok (postorder_argument postorder v) st st')
    (fun v => forall st r st', visit_element accept v st = Ok (r, st') ->
                               step_ok (postorder_element postorder v) st st')).
  - intros x IH st v' st' H.
    destruct x; try (injection H as <- <-; apply step_ok_refl).
    rewrite accept_unfold in H. rewrite postorder_unfold.
    unfold visit_process, postorder_process in *.
    destruct (dict_get "process_id" d) as [pid|] eqn:Ep.
    + rewrite !dict_with_get in *.
      destruct (dict_get "arguments" d) as [a|] eqn:Ea; simpl in H.
      * bind_inv H. destruct x as [arguments st1]. bind_inv H.
        injection H as <- <-.
        apply leaveProcess_ok in Hx0 as (p & -> & Hs & _). simpl.
        eapply step_ok_trans; [eapply IH; eauto | exact Hs].
      * bind_inv H. injection H as <- <-.
        apply leaveProcess_ok in Hx as (p & -> & Hs & _). exact Hs.
    + injection H as <- <-. apply step_ok_refl.
  - intros x IH st r st' H. destruct x; try discriminate. simpl in *.
    eapply (mapM_step_ok (visit_argument accept)); [|exact H].
    eapply Forall_impl; [|exact (IH d eq_refl)].
    intros [k a] Ha s y s1 Hy. simpl in *. eapply Ha; eauto.
  - intros x IHl IHd k st r st' H. unfold visit_argument in H. simpl in H.
    destruct x; try (injection H as <- <-; apply step_ok_refl).
    + bind_inv H. destruct x as [elements' st1]. injection H as <- <-. simpl.
      eapply (mapM_step_ok (visit_element accept)); [|exact Hx].
      exact (IHl l eq_refl).
    + bind_inv H. bind_inv H. destruct x0 as [node' st2]. injection H as <- <-.
      simpl. eapply step_ok_trans.
      * eapply visit_reference_ok; [|exact Hx]. intros; eapply IHd; eauto.
      * eapply leaveArgument_ok; [|exact Hx0]. intros; eapply IHd; eauto.
  - intros x IHd st r st' H. unfold visit_element in H.
    destruct x; try (injection H as <- <-; apply step_ok_refl).
    bind_inv H. injection H as <- <-. simpl.
    eapply visit_reference_ok; [|exact Hx]. intros; eapply IHd; eauto.
Qed.

(** ** Flattening and copying leave the builder alone *)

Lemma flatten_preserves self kg h flat kg' h' :
  flatten self kg h = Ok (flat, kg', h') -> preserves h h'.
Proof.
  unfold flatten. destruct (result_node self) as [r|]; [|discriminate].
  intros H. bind_inv H.
  apply (flatten_copy_ok _ _ (postorder x)) in H as [P _]; auto.
  intros st v' st'. apply accept_step_ok.
Qed.

Lemma flatten_each_preserves self kgs h flats h' :
  flatten_each self kgs h = Ok (flats, h') -> preserves h h'.
Proof.
  revert h flats h'. induction kgs as [|kg kgs IH]; simpl; intros h flats h' H.
  - injection H as <- <-. apply preserves_refl.
  - bind_inv H. destruct x as [[flat kg'] h1]. bind_inv H.
    destruct x as [flats' h2]. injection H as <- <-.
    eapply preserves_trans; [eapply flatten_preserves; eauto | eauto].
Qed.

Lemma process_preserves self process_id args h id self' h' :
  process self process_id args h = Ok (id, self', h') ->
  preserves h h' /\ result_node self' = Some (List.length h)
  /\ List.length h' = S (List.length h).
Proof.
  unfold process. intros H. bind_inv H. simpl in H. injection H as <- <- <-.
  split; [|split; [reflexivity|]].
  - apply (preserves_alloc _ h).
  - rewrite length_app. simpl. lia.
Qed.

Lemma add_process_preserves self process_id result args h id self' h' :
  add_process self process_id result args h = Ok (id, self', h') ->
  preserves h h' /\ result_node self' = Some (List.length h).
Proof.
  unfold add_process. intros H. bind_inv H. destruct x as [[id0 self0] h1].
  apply process_preserves in Hx as (P & R & L).
  assert (Hset : forall x h2, set_result (List.length h) x h1 = Ok h2 -> preserves h h2).
  { unfold set_result. intros x h2 H2.
    destruct (heap_get (List.length h) h1) as [[]|]; try discriminate.
    injection H2 as <-. apply preserves_set; auto. }
  rewrite R in H.
  destruct result;
    try (bind_inv H; injection H as <- <- <-; split; [eapply Hset; eauto | exact R]).
  injection H as <- <- <-. auto.
Qed.


(** ** Two scenarios *)

(** [load_collection] followed by [filter_bands] on its result. *)
Example flatten_chain :
  exists kg h,
    flatten {| result_node := Some 1 |} None
      [PDict [("process_id", PStr "load_collection");
              ("arguments", PDict [("id", PStr "S2")])];
       PDict [("process_id", PStr "filter_bands");
              ("arguments",
               PDict [("data", PDict [("from_node", PRef 0)]);
                      ("bands", PList [PStr "B02"])]);
              ("result", PBool true)]]
    = Ok ([("loadcollection1",
            PDict [("process_id", PStr "load_collection");
                   ("arguments", PDict [("id", PStr "S2")])]);
           ("filterbands1",
            PDict [("process_id", PStr "filter_bands");
                   ("arguments",
                    PDict [("data", PDict [("from_node", PStr "loadcollection1")]);
                           ("bands", PList [PStr "B02"])]);
                   ("result", PBool true)])], kg, h).
Proof. do 2 eexists. vm_compute. reflexivity. Qed.

(** A callback of two nodes: its flat map is a value of the parent's
    argument, with keys drawn from the parent's generator. *)
Example flatten_callback_scenario :
  let load := PDict [("process_id", PStr "load"); ("arguments", PDict [])] in
  exists kg h,
    flatten {| result_node := Some 0 |} None
      [PDict [("process_id", PStr "reduce");
              ("arguments",
               PDict [("data", PDict [("from_node", load)]);
                      ("reducer",
                       PDict [("callback",
                               PDict [("process_id", PStr "max");
                                      ("arguments",
                                       PDict [("data",
                                               PDict [("from_node", load)])])])])])]]
    = Ok ([("load1", load);
           ("reduce1",
            PDict [("process_id", PStr "reduce");
                   ("arguments",
                    PDict [("data", PDict [("from_node", PStr "load1")]);
                           ("reducer",
                            PDict [("callback",
                                    PDict [("load2", load);
                                           ("max1",
                                            PDict [("process_id", PStr "max");
                                                   ("arguments",
                                                    PDict [("data",
                                                            PDict [("from_node",
                                                                    PStr "load2")])]);
                                                   ("result", PBool true)])])])]);
                   ("result", PBool true)])], kg, h).
Proof. intros load. do 2 eexists. vm_compute. reflexivity. Qed.

(** ** The result marker *)

Lemma generate_all_snoc ps p kg :
  fst (generate_all (ps ++ [p]) kg)
  = (fst (generate_all ps kg) ++ [fst (generate p (snd (generate_all ps kg)))])%list.
Proof.
  rewrite generate_all_app. simpl.
  now destruct (generate p (snd (generate_all ps kg))).
Qed.

(** Leaving a node: what the state holds once [accept] returns on a node. *)
Lemma accept_node v st v' st' :
  is_node v = true ->
  accept v st = Ok (v', st') ->
  exists p ps args,
    getitem "process_id" v = Ok (PStr p)
    /\ postorder v = (ps ++ [p])%list
    /\ last_node_id st' = PStr (last (fst (generate_all (postorder v) (key_generator st))) "")
    /\ dict_get (last (fst (generate_all (postorder v) (key_generator st))) "")
         (flat_graph st')
       = Some (PDict [("process_id", PStr p); ("arguments", PDict args)])
    /\ (flat_ok (flat_graph st) -> flat_ok (flat_graph st')).
Proof.
  destruct v; try discriminate. unfold is_node, dict_has, getitem.
  intros Hn H. pose proof (proj1 (accept_step_ok (PDict d)) _ _ _ H) as (_ & _ & Hflat).
  rewrite accept_unfold in H. rewrite postorder_unfold.
  unfold visit_process, postorder_process in *.
  destruct (dict_get "process_id" d) as [pid|] eqn:Ep; [|discriminate].
  rewrite !dict_with_get in *.
  destruct (dict_get "arguments" d) as [a|] eqn:Ea; simpl in H.
  - bind_inv H. destruct x as [arguments st1]. bind_inv H. injection H as <- <-.
    apply (proj1 (proj2 (accept_step_ok a))) in Hx as (_ & K & _).
    apply leaveProcess_ok in Hx0 as (p & -> & _ & Hl & Hf). simpl.
    exists p, (postorder_arguments postorder a), arguments.
    rewrite generate_all_snoc, last_last, <- K.
    split; [reflexivity|]. split; [reflexivity|]. split; [exact Hl|].
    split; [|exact Hflat]. rewrite Hf. apply dict_get_set_same.
  - bind_inv H. injection H as <- <-.
    apply leaveProcess_ok in Hx as (p & -> & _ & Hl & Hf).
    exists p, [], []. cbn [option_map].
    rewrite (generate_all_snoc [] p), last_last. cbn [generate_all snd app].
    split; [reflexivity|]. split; [reflexivity|]. split; [exact Hl|].
    split; [|exact Hflat]. rewrite Hf. apply dict_get_set_same.
Qed.

Lemma entry_ok_no_result kv : entry_ok kv -> has_result (snd kv) = false.
Proof. intros [_ (p & args & ->)]. reflexivity. Qed.

Lemma result_entries_none flat :
  Forall entry_ok flat -> result_entries flat = [].
Proof.
  unfold result_entries. induction 1 as [|kv flat Hkv Hall IH]; simpl; auto.
  pose proof (entry_ok_no_result _ Hkv) as Hn. now rewrite Hn.
Qed.

Lemma result_entries_set k entry flat :
  Forall entry_ok flat ->
  dict_has k flat = true ->
  has_result entry = true ->
  result_entries (dict_set k entry flat) = [(k, entry)].
Proof.
  unfold result_entries, dict_has.
  induction 1 as [|[k' v] flat Hkv Hall IH]; simpl; [discriminate|].
  intros Hk He. destruct (String.eqb k k') eqn:E; simpl.
  - apply String.eqb_eq in E. subst k'. rewrite He.
    f_equal. apply (result_entries_none _ Hall).
  - pose proof (entry_ok_no_result _ Hkv) as Hn. simpl in Hn. rewrite Hn. auto.
Qed.

Lemma mark_result_ok flat k p args :
  flat_ok flat ->
  dict_get k flat = Some (PDict [("process_id", PStr p); ("arguments", PDict args)]) ->
  let entry := PDict [("process_id", PStr p); ("arguments", PDict args);
                      ("result", PBool true)] in
  mark_result flat (PStr k) = Ok (dict_set k entry flat)
  /\ result_entries (dict_set k entry flat) = [(k, entry)]
  /\ NoDup (keys (dict_set k entry flat)).
Proof.
  intros [Hnd Hall] Hk entry. unfold mark_result. rewrite Hk.
  assert (Hhas : dict_has k flat = true) by (unfold dict_has; now rewrite Hk).
  split; [reflexivity|]. split.
  - now apply result_entries_set.
  - now rewrite keys_dict_set_in.
Qed.

(** ** The traversal returns on a nested graph *)

Lemma mapM_total {S A B : Type} (f : A -> S -> outcome (B * S)) (ok : A -> bool) l :
  Forall (fun x => ok x = true -> forall s, exists y s', f x s = Ok (y, s')) l ->
  forallb ok l = true ->
  forall s, exists ys s', mapM f l s = Ok (ys, s').
Proof.
  induction 1 as [|x l Hx Hl IH]; simpl; intros Hok s.
  - eauto.
  - apply andb_true_iff in Hok as [Hx' Hl'].
    destruct (Hx Hx' s) as (y & s1 & ->). simpl.
    destruct (IH Hl' s1) as (ys & s2 & ->). simpl. eauto.
Qed.

Lemma flatten_copy_total copy kg h :
  is_node copy = true ->
  (forall st, exists v' st', accept copy st = Ok (v', st')) ->
  exists flat kg' h', flatten_copy (accept copy) copy kg h = Ok (flat, kg', h').
Proof.
  intros Hn Hacc. unfold flatten_copy. simpl.
  destruct (Hacc {| key_generator := kg; flat_graph := []; last_node_id := PNone;
                    store := (h ++ [copy])%list |}) as (v' & st' & Hv).
  rewrite Hv. simpl.
  destruct (accept_node _ _ _ _ Hn Hv) as (p & ps & args & _ & _ & Hl & Hg & _).
  rewrite Hl. unfold mark_result. rewrite Hg. simpl. eauto.
Qed.

Section total_layers.
Variable node : dict.
Hypothesis IH : forall k x,
  dict_get k node = Some x ->
  visitable x = true -> forall st, exists v' st', accept x st = Ok (v', st').

Lemma visit_reference_total st :
  reference_ok visitable node = true ->
  exists st', visit_reference accept node st = Ok st'.
Proof.
  unfold reference_ok, visit_reference. rewrite !dict_with_get.
  destruct (dict_get "from_node" node) as [x|] eqn:E; simpl; eauto.
  intros Hx. destruct (IH _ _ E Hx st) as (v' & st' & ->). simpl. eauto.
Qed.

Lemma leaveArgument_total st :
  callback_ok visitable node = true ->
  exists node' st',
    leaveArgument
      (dict_with "callback"
         (fun callback => flatten_callback (accept callback) callback) node)
      node st = Ok (node', st').
Proof.
  unfold callback_ok, leaveArgument. rewrite !dict_with_get.
  destruct (dict_get "callback" node) as [cb|] eqn:E; simpl; eauto.
  intros Hcb. apply andb_true_iff in Hcb as [Hn Hv].
  unfold flatten_callback. simpl.
  destruct (flatten_copy_total cb (key_generator st) (store st ++ [cb])%list Hn)
    as (flat & kg' & h' & ->); [now apply (IH "callback")|].
  simpl. eauto.
Qed.
End total_layers.

Lemma accept_total v :
  (visitable v = true -> forall st, exists v' st', accept v st = Ok (v', st'))
  /\ (arguments_ok visitable v = true ->
      forall st, exists r st', visit_arguments accept v st = Ok (r, st'))
  /\ (argument_ok visitable v = true ->
      forall k st, exists r st', visit_argument accept (k, v) st = Ok (r, st'))
  /\ (element_ok visitable v = true ->
      forall st, exists r st', visit_element accept v st = Ok (r, st')).
Proof.
  apply (traversal_ind
    (fun v => visitable v = true ->
              forall st, exists v' st', accept v st = Ok (v', st'))
    (fun v => arguments_ok visitable v = true ->
              forall st, exists r st', visit_arguments accept v st = Ok (r, st'))
    (fun v => argument_ok visitable v = true ->
              forall k st, exists r st', visit_argument accept (k, v) st = Ok (r, st'))
    (fun v => element_ok visitable v = true ->
              forall st, exists r st', visit_element accept v st = Ok (r, st'))).
  - intros x IH Hv st. destruct x; try (simpl; eauto; fail).
    rewrite accept_unfold. simpl in Hv. unfold process_ok, visit_process in *.
    destruct (dict_get "process_id" d) as [pid|] eqn:Ep; [|eauto].
    apply andb_true_iff in Hv as [Hs Ha].
    destruct pid; try discriminate.
    rewrite !dict_with_get in *.
    destruct (dict_get "arguments" d) as [a|] eqn:Ea; simpl in *.
    + destruct (IH d a eq_refl Ea Ha st) as (r & st1 & ->). simpl.
      destruct (generate s (key_generator st1)). simpl. eauto.
    + destruct (generate s (key_generator st)). simpl. eauto.
  - intros x IH Ha st. destruct x; try discriminate. simpl in *.
    apply (mapM_total (visit_argument accept) (fun kv => argument_ok visitable (snd kv)));
      auto.
    eapply Forall_impl; [|exact (IH d eq_refl)].
    intros [k a] Hk Hok s. simpl in *. apply (Hk Hok k s).
  - intros x IHl IHd Ha k st. unfold visit_argument. simpl.
    destruct x; try (eauto; fail); simpl in Ha.
    + destruct (mapM_total (visit_element accept) (element_ok visitable) l
                  (IHl l eq_refl) Ha st) as (ys & s' & ->).
      simpl. eauto.
    + apply andb_true_iff in Ha as [Hr Hc].
      destruct (visit_reference_total d (fun k x => IHd d k x eq_refl) st Hr)
        as (st1 & ->). simpl.
      destruct (leaveArgument_total d (fun k x => IHd d k x eq_refl) st1 Hc)
        as (node' & st2 & ->). simpl. eauto.
  - intros x IHd Ha st. unfold visit_element.
    destruct x; try (eauto; fail); simpl in Ha.
    destruct (visit_reference_total d (fun k x => IHd d k x eq_refl) st Ha)
      as (st1 & ->). simpl. eauto.
Qed.

(** C3.  For a builder whose root holds a non-empty nested graph [G] (a tree:
    no object under the root is reached twice), [flatten] returns a flat map
    with exactly one entry that carries the result marker; its key is the last
    of the keys drawn for the nodes of [G] in post order, which is the key of
    the root node, and the keys of the map are pairwise distinct. *)
Theorem flatten_marks_last_node self h r G key_gen :
  result_node self = Some r ->
  unshared h (PRef r) ->
  deepcopy h (PRef r) = Ok G ->
  nested_graph G ->
  let kg := match key_gen with
            | Some kg => kg
            | None => FlatGraphKeyGenerator_init
            end in
  let last_key := last (fst (generate_all (postorder G) kg)) "" in
  exists flat kg' h' entry p ps,
    flatten self key_gen h = Ok (flat, kg', h')
    /\ result_entries flat = [(last_key, entry)]
    /\ getitem "result" entry = Ok (PBool true)
    /\ NoDup (keys flat)
    /\ getitem "process_id" G = Ok (PStr p)
    /\ getitem "process_id" entry = Ok (PStr p)
    /\ postorder G = (ps ++ [p])%list
    /\ last_key = fst (generate p (snd (generate_all ps kg))).
Proof.
  intros Hr _ Hc [Hn Hv] kg last_key. unfold flatten. rewrite Hr, Hc. simpl.
  fold kg.
  destruct (proj1 (accept_total G) Hv
              {| key_generator := kg; flat_graph := [];
                 last_node_id := PNone; store := (h ++ [G])%list |})
    as (v' & st' & Hacc).
  unfold flatten_copy. simpl. rewrite Hacc. simpl.
  destruct (accept_node _ _ _ _ Hn Hacc) as (p & ps & args & Hp & Hpost & Hl & Hg & Hf).
  simpl in Hl, Hg. fold last_key in Hl, Hg.
  assert (Hok : flat_ok (flat_graph st')).
  { apply Hf. split; constructor. }
  destruct (mark_result_ok _ _ _ _ Hok Hg) as (Hm & Hres & Hnd).
  rewrite Hl, Hm. simpl.
  do 4 eexists. exists p, ps.
  split; [reflexivity|]. split; [exact Hres|].
  repeat split; auto.
  unfold last_key. now rewrite Hpost, generate_all_snoc, last_last.
Qed.

Lemma flatten_marks_last_node_witness :
  let G :=
    PDict [("process_id", PStr "filter_bands");
           ("arguments",
            PDict [("data",
                    PDict [("from_node",
                            PDict [("process_id", PStr "load_collection");
                                   ("arguments", PDict [("id", PStr "S2")])])]);
                   ("bands", PList [PStr "B02"])])] in
  exists flat kg' h' entry p ps,
    flatten {| result_node := Some 0 |} None [G] = Ok (flat, kg', h')
    /\ result_entries flat = [("filterbands1", entry)]
    /\ getitem "result" entry = Ok (PBool true)
    /\ NoDup (keys flat)
    /\ getitem "process_id" G = Ok (PStr p)
    /\ getitem "process_id" entry = Ok (PStr p)
    /\ postorder G = (ps ++ [p])%list
    /\ "filterbands1" = fst (generate p (snd (generate_all ps FlatGraphKeyGenerator_init))).
Proof.
  intros G.
  refine (flatten_marks_last_node {| result_node := Some 0 |} [G] 0 G None
            eq_refl _ eq_refl (conj eq_refl eq_refl)).
  unfold unshared. cbn. constructor; [simpl; tauto | constructor].
Defined.

(** ** Deep copies *)

Lemma deepcopy_fuel_list n h l :
  deepcopy_fuel n h (PList l)
  = ('(l', _) <- mapM (copy_item (deepcopy_fuel n h)) l tt ;; Ok (PList l')).
Proof. destruct n; reflexivity. Qed.

Lemma deepcopy_fuel_dict n h d :
  deepcopy_fuel n h (PDict d)
  = ('(d', _) <- mapM (copy_entry (deepcopy_fuel n h)) d tt ;; Ok (PDict d')).
Proof. destruct n; reflexivity. Qed.

Lemma deepcopy_fuel_ref n h a :
  deepcopy_fuel (S n) h (PRef a)
  = match heap_get a h with
    | Some o => deepcopy_fuel n h o
    | None => Raise RecursionError
    end.
Proof. reflexivity. Qed.

Lemma deepcopy_fuel_scalar n h v :
  (forall a, v <> PRef a) -> (forall l, v <> PList l) -> (forall d, v <> PDict d) ->
  deepcopy_fuel n h v = Ok v.
Proof.
  intros Hr Hl Hd. destruct n; destruct v; try reflexivity;
    solve [now destruct (Hr a) | now destruct (Hl l) | now destruct (Hd d)].
Qed.

Lemma deepcopy_fuel_ref_free n h v : ref_free v = true -> deepcopy_fuel n h v = Ok v.
Proof.
  induction v as [| | | | | |l IH|d IH] using pyval_ind'; intros Hv;
    try (apply deepcopy_fuel_scalar; intros; discriminate).
  - rewrite deepcopy_fuel_list. simpl in Hv.
    assert (H : mapM (copy_item (deepcopy_fuel n h)) l tt = Ok (l, tt)).
    { induction IH as [|x l Hx Hl IHl]; simpl in *; auto.
      apply andb_true_iff in Hv as [Hv1 Hv2].
      unfold copy_item at 1. rewrite (Hx Hv1). simpl. now rewrite (IHl Hv2). }
    now rewrite H.
  - rewrite deepcopy_fuel_dict. simpl in Hv.
    assert (H : mapM (copy_entry (deepcopy_fuel n h)) d tt = Ok (d, tt)).
    { induction IH as [|[k x] d Hx Hd IHd]; simpl in *; auto.
      apply andb_true_iff in Hv as [Hv1 Hv2].
      unfold copy_entry at 1. simpl. rewrite (Hx Hv1). simpl. now rewrite (IHd Hv2). }
    now rewrite H.
Qed.

Lemma deepcopy_fuel_result_ref_free n h :
  forall v c, deepcopy_fuel n h v = Ok c -> ref_free c = true.
Proof.
  induction n as [|n IHn].
  - induction v as [| | | | | |l IH|d IH] using pyval_ind'; intros c H;
      try (rewrite deepcopy_fuel_scalar in H by (intros; discriminate);
           injection H as <-; reflexivity).
    + simpl in H. discriminate.
    + rewrite deepcopy_fuel_list in H. bind_inv H. destruct x as [l' u].
      injection H as <-. simpl. revert l' u Hx.
      induction IH as [|x l Hx' Hl IHl]; simpl; intros l' u Hm.
      * now injection Hm as <- <-.
      * bind_inv Hm. destruct x0 as [y u1]. bind_inv Hm. destruct x0 as [ys u2].
        injection Hm as <- <-. unfold copy_item in Hx. bind_inv Hx.
        injection Hx as <- <-. simpl. rewrite (Hx' _ Hx1). eauto.
    + rewrite deepcopy_fuel_dict in H. bind_inv H. destruct x as [d' u].
      injection H as <-. simpl. revert d' u Hx.
      induction IH as [|x d Hx' Hd IHd]; simpl; intros d' u Hm.
      * now injection Hm as <- <-.
      * bind_inv Hm. destruct x0 as [y u1]. bind_inv Hm. destruct x0 as [ys u2].
        injection Hm as <- <-. unfold copy_entry in Hx. bind_inv Hx.
        injection Hx as <- <-. simpl. rewrite (Hx' _ Hx1). eauto.
  - induction v as [| | | | |a|l IH|d IH] using pyval_ind'; intros c H;
      try (rewrite deepcopy_fuel_scalar in H by (intros; discriminate);
           injection H as <-; reflexivity).
    + rewrite deepcopy_fuel_ref in H.
      destruct (heap_get a h); [eauto | discriminate].
    + rewrite deepcopy_fuel_list in H. bind_inv H. destruct x as [l' u].
      injection H as <-. simpl. revert l' u Hx.
      induction IH as [|x l Hx' Hl IHl]; simpl; intros l' u Hm.
      * now injection Hm as <- <-.
      * bind_inv Hm. destruct x0 as [y u1]. bind_inv Hm. destruct x0 as [ys u2].
        injection Hm as <- <-. unfold copy_item in Hx. bind_inv Hx.
        injection Hx as <- <-. simpl. rewrite (Hx' _ Hx1). eauto.
    + rewrite deepcopy_fuel_dict in H. bind_inv H. destruct x as [d' u].
      injection H as <-. simpl. revert d' u Hx.
      induction IH as [|x d Hx' Hd IHd]; simpl; intros d' u Hm.
      * now injection Hm as <- <-.
      * bind_inv Hm. destruct x0 as [y u1]. bind_inv Hm. destruct x0 as [ys u2].
        injection Hm as <- <-. unfold copy_entry in Hx. bind_inv Hx.
        injection Hx as <- <-. simpl. rewrite (Hx' _ Hx1). eauto.
Qed.

Lemma deepcopy_ref_free h v : ref_free v = true -> deepcopy h v = Ok v.
Proof. apply deepcopy_fuel_ref_free. Qed.

Lemma deepcopy_result_ref_free h v c : deepcopy h v = Ok c -> ref_free c = true.
Proof. apply deepcopy_fuel_result_ref_free. Qed.

(** The flattening of a callback, as the traversal takes it, is
    [from_process_graph] followed by [flatten] with the shared generator. *)
Lemma flatten_callback_spec callback kg h :
  ref_free callback = true ->
  from_process_graph callback h
  = Ok ({| result_node := Some (List.length h) |}, (h ++ [callback])%list)
  /\ flatten {| result_node := Some (List.length h) |} (Some kg) (h ++ [callback])%list
     = flatten_callback (accept callback) callback kg h.
Proof.
  intros Hrf. split.
  - unfold from_process_graph. now rewrite (deepcopy_ref_free _ _ Hrf).
  - unfold flatten, flatten_callback. cbn [result_node alloc].
    unfold deepcopy. rewrite length_app. cbn [List.length]. rewrite Nat.add_1_r.
    rewrite deepcopy_fuel_ref, heap_get_app_new.
    now rewrite (deepcopy_fuel_ref_free _ _ _ Hrf).
Qed.

(** ** The flat graph holds no reference *)

Lemma ref_free_dict_get k d x :
  ref_free (PDict d) = true -> dict_get k d = Some x -> ref_free x = true.
Proof.
  simpl. induction d as [|[k' v] d IH]; simpl; [discriminate|].
  intros H. apply andb_true_iff in H as [H1 H2].
  destruct (String.eqb k k'); auto.
  intros E. now injection E as <-.
Qed.

Lemma ref_free_dict_set k d x :
  ref_free (PDict d) = true -> ref_free x = true ->
  ref_free (PDict (dict_set k x d)) = true.
Proof.
  simpl. induction d as [|[k' v] d IH]; simpl; intros H Hx.
  - now rewrite Hx.
  - apply andb_true_iff in H as [H1 H2].
    destruct (String.eqb k k'); simpl.
    + now rewrite Hx, H2.
    + now rewrite H1, IH.
Qed.

Lemma leaveProcess_ref_free process_id arguments st st' :
  leaveProcess process_id arguments st = Ok st' ->
  ref_free (PDict arguments) = true ->
  ref_free_state st -> ref_free_state st'.
Proof.
  unfold leaveProcess. destruct process_id; try discriminate.
  destruct (generate s (key_generator st)) as [node_id kg].
  intros H Ha [Hf Hl]. injection H as <-. split; [|reflexivity].
  cbn [flat_graph]. apply ref_free_dict_set; auto.
  simpl in *. now rewrite Ha.
Qed.

Lemma mark_result_ref_free flat last flat' :
  mark_result flat last = Ok flat' ->
  ref_free (PDict flat) = true -> ref_free (PDict flat') = true.
Proof.
  unfold mark_result. destruct last; try discriminate.
  destruct (dict_get s flat) as [[]|] eqn:E; try discriminate.
  intros H Hf. injection H as <-.
  apply ref_free_dict_set; auto.
  apply ref_free_dict_set; auto.
  eapply ref_free_dict_get; eauto.
Qed.

Lemma mapM_ref_free {A B : Type} (f : A -> Flattener -> outcome (B * Flattener))
  (okin : A -> bool) (okout : B -> bool) l :
  Forall (fun x => okin x = true -> forall s y s',
              f x s = Ok (y, s') -> ref_free_state s ->
              okout y = true /\ ref_free_state s') l ->
  forallb okin l = true ->
  forall s ys s', mapM f l s = Ok (ys, s') -> ref_free_state s ->
                  forallb okout ys = true /\ ref_free_state s'.
Proof.
  induction 1 as [|x l Hx Hl IH]; simpl; intros Hok s ys s' H Hs.
  - injection H as <- <-. auto.
  - apply andb_true_iff in Hok as [Hx' Hl'].
    bind_inv H. destruct x0 as [y s1]. bind_inv H. destruct x0 as [ys' s2].
    injection H as <- <-.
    destruct (Hx Hx' _ _ _ Hx0 Hs) as [Hy Hs1].
    destruct (IH Hl' _ _ _ Hx1 Hs1) as [Hys Hs2].
    simpl. now rewrite Hy, Hys.
Qed.

Lemma flatten_copy_ref_free visit copy kg h flat kg' h' :
  (forall st v' st', visit st = Ok (v', st') -> ref_free_state st ->
                     ref_free v' = true /\ ref_free_state st') ->
  flatten_copy visit copy kg h = Ok (flat, kg', h') ->
  ref_free (PDict flat) = true.
Proof.
  intros Hv. unfold flatten_copy. simpl. intros H.
  bind_inv H. destruct x as [copy' st]. bind_inv H. injection H as <- <- <-.
  apply Hv in Hx as [_ [Hf _]]; [|split; reflexivity].
  eapply mark_result_ref_free; eauto.
Qed.

Section ref_free_layers.
Variable node : dict.
Hypothesis Hnode : ref_free (PDict node) = true.
Hypothesis IH : forall k x st v' st',
  dict_get k node = Some x ->
  accept x st = Ok (v', st') -> ref_free_state st ->
  ref_free v' = true /\ ref_free_state st'.

Lemma visit_reference_ref_free st st' :
  visit_reference accept node st = Ok st' ->
  ref_free_state st -> ref_free_state st'.
Proof.
  unfold visit_reference. rewrite dict_with_get.
  destruct (dict_get "from_node" node) as [x|] eqn:E; simpl.
  - intros H Hs. bind_inv H. destruct x0 as [v' st1]. injection H as <-.
    eapply IH; eauto.
  - intros H. now injection H as <-.
Qed.

Lemma arrayElementDone_ref_free st :
  ref_free_state st -> ref_free (PDict (arrayElementDone node st)) = true.
Proof.
  intros [_ Hl]. unfold arrayElementDone.
  destruct (dict_has "from_node" node); auto.
  now apply ref_free_dict_set.
Qed.

Lemma leaveArgument_ref_free st node' st' :
  leaveArgument
    (dict_with "callback"
       (fun callback => flatten_callback (accept callback) callback) node)
    node st = Ok (node', st') ->
  ref_free_state st ->
  ref_free (PDict node') = true /\ ref_free_state st'.
Proof.
  unfold leaveArgument. rewrite dict_with_get. intros H Hs.
  pose proof (arrayElementDone_ref_free st Hs) as Hn1.
  unfold arrayElementDone in Hn1.
  destruct (dict_get "callback" node) as [cb|] eqn:E; simpl in H.
  - bind_inv H. destruct x as [[flat kg] h]. injection H as <- <-.
    unfold flatten_callback in Hx. simpl in Hx.
    apply flatten_copy_ref_free in Hx.
    + split; [now apply ref_free_dict_set | exact Hs].
    + intros st0 v' st1. now apply (IH "callback").
  - injection H as <- <-. auto.
Qed.
End ref_free_layers.

Lemma accept_ref_free v :
  (ref_free v = true -> forall st v' st',
      accept v st = Ok (v', st') -> ref_free_state st ->
      ref_free v' = true /\ ref_free_state st')
  /\ (ref_free v = true -> forall st r st',
      visit_arguments accept v st = Ok (r, st') -> ref_free_state st ->
      ref_free (PDict r) = true /\ ref_free_state st')
  /\ (ref_free v = true -> forall k st r st',
      visit_argument accept (k, v) st = Ok (r, st') -> ref_free_state st ->
      ref_free (snd r) = true /\ ref_free_state st')
  /\ (ref_free v = true -> forall st r st',
      visit_element accept v st = Ok (r, st') -> ref_free_state st ->
      ref_free r = true /\ ref_free_state st').
Proof.
  apply (traversal_ind
    (fun v => ref_free v = true -> forall st v' st',
       accept v st = Ok (v', st') -> ref_free_state st ->
       ref_free v' = true /\ ref_free_state st')
    (fun v => ref_free v = true -> forall st r st',
       visit_arguments accept v st = Ok (r, st') -> ref_free_state st ->
       ref_free (PDict r) = true /\ ref_free_state st')
    (fun v => ref_free v = true -> forall k st r st',
       visit_argument accept (k, v) st = Ok (r, st') -> ref_free_state st ->
       ref_free (snd r) = true /\ ref_free_state st')
    (fun v => ref_free v = true -> forall st r st',
       visit_element accept v st = Ok (r, st') -> ref_free_state st ->
       ref_free r = true /\ ref_free_state st')).
  - intros x IH Hv st v' st' H Hs.
    destruct x; try (injection H as <- <-; auto; fail).
    rewrite accept_unfold in H. unfold visit_process in H.
    destruct (dict_get "process_id" d) as [pid|] eqn:Ep;
      [|injection H as <- <-; auto].
    rewrite dict_with_get in H.
    destruct (dict_get "arguments" d) as [a|] eqn:Ea; simpl in H.
    + bind_inv H. destruct x as [arguments st1]. bind_inv H. injection H as <- <-.
      destruct (IH d a eq_refl Ea (ref_free_dict_get _ _ _ Hv Ea) _ _ _ Hx Hs)
        as [Ha Hs1].
      split; [now apply ref_free_dict_set|].
      eapply leaveProcess_ref_free; eauto.
    + bind_inv H. injection H as <- <-. split; auto.
      eapply leaveProcess_ref_free; eauto.
  - intros x IH Hv st r st' H Hs. destruct x; try discriminate. simpl in H.
    eapply (mapM_ref_free (visit_argument accept)
              (fun kv => ref_free (snd kv)) (fun kv => ref_free (snd kv)) d);
      [|exact Hv|exact H|exact Hs].
    eapply Forall_impl; [|exact (IH d eq_refl)].
    intros [k a] Hk Hok s y s1 Hy Hs0. simpl in *. eapply Hk; eauto.
  - intros x IHl IHd Hv k st r st' H Hs. unfold visit_argument in H. simpl in H.
    destruct x; try (injection H as <- <-; auto; fail).
    + bind_inv H. destruct x as [elements' st1]. injection H as <- <-.
      apply (mapM_ref_free (visit_element accept) ref_free ref_free l
               (IHl l eq_refl) Hv) in Hx; auto.
    + bind_inv H. bind_inv H. destruct x0 as [node' st2]. injection H as <- <-.
      assert (Hd : forall k x st v' st',
                 dict_get k d = Some x ->
                 accept x st = Ok (v', st') -> ref_free_state st ->
                 ref_free v' = true /\ ref_free_state st').
      { intros k0 x0 st0 v' st' E. apply (IHd d k0 x0 eq_refl E).
        eapply ref_free_dict_get; eauto. }
      apply (visit_reference_ref_free d Hd) in Hx; auto.
      apply (leaveArgument_ref_free d Hv Hd) in Hx0; auto.
  - intros x IHd Hv st r st' H Hs. unfold visit_element in H.
    destruct x; try (injection H as <- <-; auto; fail).
    bind_inv H. injection H as <- <-.
    assert (Hd : forall k x st v' st',
               dict_get k d = Some x ->
               accept x st = Ok (v', st') -> ref_free_state st ->
               ref_free v' = true /\ ref_free_state st').
    { intros k0 x0 st0 v' st' E. apply (IHd d k0 x0 eq_refl E).
      eapply ref_free_dict_get; eauto. }
    apply (visit_reference_ref_free d Hd) in Hx; auto.
    split; [|exact Hx]. now apply arrayElementDone_ref_free.
Qed.

(** ** Flattening a flat graph again *)

Lemma flat_ok_no_process_id flat :
  Forall entry_ok flat -> dict_get "process_id" flat = None.
Proof.
  induction 1 as [|[k v] flat Hkv Hall IH]; [reflexivity|].
  cbn [dict_get]. destruct (String.eqb "process_id" k) eqn:E; [|exact IH].
  apply String.eqb_eq in E. subst k. destruct Hkv as [Hk _].
  simpl in Hk. discriminate.
Qed.

Lemma mark_result_inv flat last flat' :
  mark_result flat last = Ok flat' ->
  exists k node,
    last = PStr k /\ dict_get k flat = Some (PDict node)
    /\ flat' = dict_set k (PDict (dict_set "result" (PBool true) node)) flat.
Proof.
  unfold mark_result. destruct last; try discriminate.
  destruct (dict_get s flat) as [[]|] eqn:E; try discriminate.
  intros H. injection H as <-. eauto.
Qed.

(** What a successful [flatten] went through. *)
Lemma flatten_inv self key_gen h flat kg' h' :
  flatten self key_gen h = Ok (flat, kg', h') ->
  exists r G G' st,
    result_node self = Some r
    /\ deepcopy h (PRef r) = Ok G
    /\ accept G {| key_generator := match key_gen with
                                    | Some kg => kg
                                    | None => FlatGraphKeyGenerator_init
                                    end;
                   flat_graph := []; last_node_id := PNone;
                   store := (h ++ [G])%list |} = Ok (G', st)
    /\ mark_result (flat_graph st) (last_node_id st) = Ok flat
    /\ kg' = key_generator st
    /\ h' = heap_set (List.length h) G' (store st).
Proof.
  unfold flatten. destruct (result_node self) as [r|]; [|discriminate].
  intros H. bind_inv H. unfold flatten_copy in H. simpl in H.
  bind_inv H. destruct x0 as [G' st]. bind_inv H. injection H as <- <- <-.
  exists r, x, G', st. repeat split; auto.
Qed.

Lemma flatten_result_shape self key_gen h flat kg' h' :
  flatten self key_gen h = Ok (flat, kg', h') ->
  ref_free (PDict flat) = true /\ dict_get "process_id" flat = None.
Proof.
  intros H. apply flatten_inv in H
    as (r & G & G' & st & _ & Hc & Hacc & Hm & _ & _).
  split.
  - eapply mark_result_ref_free; [exact Hm|].
    apply (proj1 (accept_ref_free G)) in Hacc as [_ [Hf _]]; auto.
    + eapply deepcopy_result_ref_free; eauto.
    + split; reflexivity.
  - apply (proj1 (accept_step_ok G)) in Hacc as (_ & _ & Hok).
    destruct Hok as [_ Hall]; [split; constructor|]. simpl in Hall.
    pose proof (flat_ok_no_process_id _ Hall) as Hnone.
    apply mark_result_inv in Hm as (k & node & _ & Hk & ->).
    rewrite dict_get_set_other; auto.
    intros <-. congruence.
Qed.

(** C8 as claimed fails: the flat graph of a single node, lifted back with
    [from_process_graph], cannot be flattened again. *)
Lemma reflatten_raises :
  exists flat kg h lifted h',
    flatten {| result_node := Some 0 |} None
      [PDict [("process_id", PStr "load_collection");
              ("arguments", PDict [("id", PStr "S2")])]] = Ok (flat, kg, h)
    /\ from_process_graph (PDict flat) h = Ok (lifted, h')
    /\ flatten lifted None h' = Raise KeyError.
Proof.
  do 5 eexists. split; [vm_compute; reflexivity|].
  split; vm_compute; reflexivity.
Qed.

(** C8 (amended).  Whenever [flatten] returns a flat graph, lifting that flat
    graph with [from_process_graph] gives a builder whose root is a copy of
    the flat map; no entry of that map is a node, the traversal visits nothing,
    and flattening the lifted builder raises [KeyError] for every key
    generator. *)
Theorem reflatten_of_flat_graph_raises self key_gen h flat kg' h' :
  flatten self key_gen h = Ok (flat, kg', h') ->
  exists lifted h2,
    from_process_graph (PDict flat) h' = Ok (lifted, h2)
    /\ result_node lifted = Some (List.length h')
    /\ heap_get (List.length h') h2 = Some (PDict flat)
    /\ forall key_gen2, flatten lifted key_gen2 h2 = Raise KeyError.
Proof.
  intros H. apply flatten_result_shape in H as [Hrf Hnone].
  unfold from_process_graph. rewrite (deepcopy_ref_free h' _ Hrf). simpl.
  do 2 eexists. split; [reflexivity|]. split; [reflexivity|].
  split; [apply heap_get_app_new|].
  intros key_gen2. unfold flatten. cbn [result_node fst snd alloc].
  unfold deepcopy. rewrite length_app. cbn [List.length]. rewrite Nat.add_1_r.
  rewrite deepcopy_fuel_ref, heap_get_app_new.
  rewrite (deepcopy_fuel_ref_free _ _ _ Hrf). cbn [bind].
  unfold flatten_copy. cbn [alloc]. rewrite accept_unfold.
  unfold visit_process. rewrite Hnone. reflexivity.
Qed.

Lemma reflatten_of_flat_graph_raises_witness :
  exists lifted h2,
    from_process_graph
      (PDict [("loadcollection1",
               PDict [("process_id", PStr "load_collection");
                      ("arguments", PDict [("id", PStr "S2")]);
                      ("result", PBool true)])])
      [PDict [("process_id", PStr "load_collection");
              ("arguments", PDict [("id", PStr "S2")])];
       PDict [("process_id", PStr "load_collection");
              ("arguments", PDict [("id", PStr "S2")])]]
    = Ok (lifted, h2)
    /\ result_node lifted = Some 2
    /\ heap_get 2 h2
       = Some (PDict [("loadcollection1",
                       PDict [("process_id", PStr "load_collection");
                              ("arguments", PDict [("id", PStr "S2")]);
                              ("result", PBool true)])])
    /\ forall key_gen2, flatten lifted key_gen2 h2 = Raise KeyError.
Proof.
  exact (reflatten_of_flat_graph_raises {| result_node := Some 0 |} None
           [PDict [("process_id", PStr "load_collection");
                   ("arguments", PDict [("id", PStr "S2")])]]
           _ _ _ eq_refl).
Defined.

(** ** Paths into the store *)

Lemma step_eqb_eq a b : step_eqb a b = true <-> a = b.
Proof.
  destruct a, b; simpl; split; try discriminate; intros H.
  - apply String.eqb_eq in H. now subst.
  - injection H as <-. apply String.eqb_refl.
  - apply Nat.eqb_eq in H. now subst.
  - injection H as <-. apply Nat.eqb_refl.
Qed.

Lemma nth_error_list_set_same {A : Type} i (x : A) l :
  i < List.length l -> nth_error (list_set i x l) i = Some x.
Proof.
  revert i. induction l as [|y l IH]; intros [|i]; simpl; intros H; try lia; auto.
  apply IH. lia.
Qed.

Lemma nth_error_list_set_other {A : Type} i j (x : A) l :
  i <> j -> nth_error (list_set j x l) i = nth_error l i.
Proof.
  revert i j. induction l as [|y l IH]; intros [|i] [|j]; simpl; intros H; auto;
    try contradiction.
Qed.

Lemma path_set_cons_key k q x d :
  path_set (Key k :: q) x (PDict d)
  = match q with
    | [] => PDict (dict_set k x d)
    | _ => match dict_get k d with
           | Some y => PDict (dict_set k (path_set q x y) d)
           | None => PDict d
           end
    end.
Proof. destruct q; reflexivity. Qed.

Lemma path_get_set_diverge p q x v :
  diverge p q = true -> path_get p (path_set q x v) = path_get p v.
Proof.
  revert p v. induction q as [|b q IH]; intros p v.
  - destruct p; discriminate.
  - destruct p as [|a p]; [discriminate|]. cbn [diverge].
    destruct (step_eqb a b) eqn:E.
    + apply step_eqb_eq in E. subst b. intros Hd.
      destruct a as [k|i].
      * destruct v; try (destruct q; reflexivity).
        rewrite path_set_cons_key. destruct q as [|c q]; [destruct p; discriminate|].
        destruct (dict_get k d) as [y|] eqn:Ek; auto.
        cbn [path_get]. rewrite dict_get_set_same, Ek. now apply IH.
      * destruct v; try reflexivity. cbn [path_set].
        destruct (nth_error l i) as [y|] eqn:Ei; auto.
        cbn [path_get]. rewrite nth_error_list_set_same, Ei.
        -- now apply IH.
        -- apply nth_error_Some. congruence.
    + intros _. destruct b as [k|i].
      * destruct v; try (destruct q; reflexivity).
        rewrite path_set_cons_key.
        assert (Hset : forall y, path_get (a :: p) (PDict (dict_set k y d))
                                 = path_get (a :: p) (PDict d)).
        { intros y. destruct a as [k'|j]; cbn [path_get]; auto.
          rewrite dict_get_set_other; auto.
          intros ->. simpl in E. now rewrite String.eqb_refl in E. }
        destruct q; [apply Hset|].
        destruct (dict_get k d); auto.
      * destruct v; try reflexivity. cbn [path_set].
        destruct (nth_error l i) as [y|] eqn:Ei; auto.
        destruct a as [k'|j]; cbn [path_get]; auto.
        rewrite nth_error_list_set_other; auto.
        intros ->. simpl in E. now rewrite Nat.eqb_refl in E.
Qed.

Lemma path_get_set_same p x v y :
  path_get p v = Some y -> path_get p (path_set p x v) = Some x.
Proof.
  revert v. induction p as [|a p IH]; intros v; [reflexivity|].
  destruct a as [k|i]; cbn [path_get].
  - destruct v; try discriminate.
    destruct (dict_get k d) as [z|] eqn:Ek; [|discriminate].
    intros H. rewrite path_set_cons_key. destruct p.
    + cbn [path_get]. now rewrite dict_get_set_same.
    + rewrite Ek. cbn [path_get]. rewrite dict_get_set_same. now apply IH.
  - destruct v; try discriminate.
    destruct (nth_error l i) as [z|] eqn:Ei; [|discriminate].
    intros H. cbn [path_set]. rewrite Ei. cbn [path_get].
    rewrite nth_error_list_set_same.
    + now apply IH.
    + apply nth_error_Some. congruence.
Qed.

Lemma site_form_diverge p q :
  site_form p -> site_form q -> p <> q ->
  diverge (p ++ [Key "from_node"])%list (q ++ [Key "from_node"])%list = true.
Proof.
  intros Hp Hq Hne. destruct Hp, Hq; cbn [app diverge step_eqb];
    try reflexivity; try (now destruct Hne).
  - destruct (Nat.eqb i i0) eqn:E; auto.
    apply Nat.eqb_eq in E. subst. now destruct Hne.
  - destruct (String.eqb name name0) eqn:E; auto.
    apply String.eqb_eq in E. subst. now destruct Hne.
  - destruct (String.eqb name name0); auto.
  - destruct (String.eqb name name0); auto.
  - destruct (String.eqb name name0) eqn:E; auto.
    destruct (Nat.eqb i i0) eqn:E'; auto.
    apply String.eqb_eq in E. apply Nat.eqb_eq in E'. subst. now destruct Hne.
Qed.

Lemma site_eq_dec (s s' : site) : {s = s'} + {s <> s'}.
Proof.
  repeat decide equality; apply Ascii.ascii_dec.
Defined.

(** Assigning the [from_node] of one reference leaves the others alone. *)
Lemma from_node_frame s s' x h :
  site_form (snd s) -> site_form (snd s') -> s <> s' ->
  site_get (from_node_of s) (site_set (from_node_of s') x h)
  = site_get (from_node_of s) h.
Proof.
  intros Hs Hs' Hne. destruct s as [a p], s' as [a' p'].
  unfold site_get, site_set, from_node_of. cbn [fst snd] in *.
  destruct (heap_get a' h) as [o|] eqn:E; auto.
  destruct (Nat.eq_dec a a') as [->|Ha].
  - rewrite heap_get_set_same by (eapply heap_get_lt; eauto).
    rewrite E. apply path_get_set_diverge, site_form_diverge; auto.
    intros ->. now destruct Hne.
  - now rewrite heap_get_set_other.
Qed.

Lemma from_node_assigned s x h y :
  site_get (from_node_of s) h = Some y ->
  site_get (from_node_of s) (site_set (from_node_of s) x h) = Some x.
Proof.
  destruct s as [a p]. unfold site_get, site_set, from_node_of. cbn [fst snd].
  destruct (heap_get a h) as [o|] eqn:E; [|discriminate].
  intros H. rewrite heap_get_set_same by (eapply heap_get_lt; eauto).
  eapply path_get_set_same; eauto.
Qed.

(** ** The rewrite pass of a merge *)

Lemma rewrite_ref_on_key km s h k :
  site_get (from_node_of s) h = Some (PStr k) ->
  rewrite_ref km s h
  = Ok (tt, match dict_get k km with
            | Some new => site_set (from_node_of s) new h
            | None => h
            end).
Proof.
  intros H. unfold rewrite_ref. rewrite H. simpl.
  now destruct (dict_get k km).
Qed.

Lemma rewrite_ref_on_builtin km s h name :
  site_get (from_node_of s) h = Some (PBuiltin name) ->
  rewrite_ref km s h = Ok (tt, h).
Proof. intros H. unfold rewrite_ref. now rewrite H. Qed.

Lemma rewrite_ref_step km s h u h1 :
  rewrite_ref km s h = Ok (u, h1) ->
  h1 = h \/ exists new, h1 = site_set (from_node_of s) new h.
Proof.
  unfold rewrite_ref.
  destruct (site_get (from_node_of s) h) as [old|]; [|discriminate].
  intros H. bind_inv H. destruct x as [k|].
  - destruct (dict_get k km) as [new|]; injection H as <- <-; eauto.
  - injection H as <- <-. auto.
Qed.

Lemma rewrite_ref_frame km s s' h u h1 :
  site_form (snd s) -> site_form (snd s') -> s <> s' ->
  rewrite_ref km s' h = Ok (u, h1) ->
  site_get (from_node_of s) h1 = site_get (from_node_of s) h.
Proof.
  intros Hs Hs' Hne H. apply rewrite_ref_step in H as [->|[new ->]]; auto.
  now apply from_node_frame.
Qed.

(** The second loop, seen from one reference [s]: a key that the map knows is
    replaced when [s] is among the references, any other key stays, and what
    has been written stays. *)
Lemma rewrite_pass km refs :
  Forall (fun kv => snd kv = PBuiltin "id") km ->
  Forall (fun s => site_form (snd s)) refs ->
  forall h us h', mapM (rewrite_ref km) refs h = Ok (us, h') ->
  forall s, site_form (snd s) ->
    (site_get (from_node_of s) h = Some (PBuiltin "id") ->
     site_get (from_node_of s) h' = Some (PBuiltin "id"))
    /\ (forall k, site_get (from_node_of s) h = Some (PStr k) ->
        (dict_get k km = None -> site_get (from_node_of s) h' = Some (PStr k))
        /\ (forall new, dict_get k km = Some new -> In s refs ->
            site_get (from_node_of s) h' = Some new)
        /\ (~ In s refs -> site_get (from_node_of s) h' = Some (PStr k))).
Proof.
  intros Hkm. induction 1 as [|s' refs Hs' Hrefs IH]; intros h us h' H s Hs.
  - simpl in H. injection H as <- <-. split; [|intros k HV; split; [|split]]; auto.
    intros new _ [].
  - simpl in H. bind_inv H. destruct x as [u h1]. bind_inv H.
    destruct x as [us' h2]. injection H as <- <-.
    destruct (IH _ _ _ Hx0 s Hs) as [IHW IHV].
    destruct (site_eq_dec s s') as [<-|Hne].
    + split.
      * intros HW. rewrite (rewrite_ref_on_builtin _ _ _ _ HW) in Hx.
        injection Hx as <- <-. auto.
      * intros k HV. rewrite (rewrite_ref_on_key _ _ _ _ HV) in Hx.
        destruct (dict_get k km) as [new|] eqn:Ek.
        -- injection Hx as <- <-.
           assert (Hnew : new = PBuiltin "id")
             by apply (Forall_dict_get (fun v => v = PBuiltin "id") _ _ _ Hkm Ek).
           subst new.
           assert (HW1 : site_get (from_node_of s) (site_set (from_node_of s) (PBuiltin "id") h)
                         = Some (PBuiltin "id"))
             by (eapply from_node_assigned; eauto).
           split; [|split].
           ++ discriminate.
           ++ intros new Hn _. injection Hn as <-. auto.
           ++ intros Hnot. exfalso. apply Hnot. now left.
        -- injection Hx as <- <-. destruct (IHV k HV) as (H1 & H2 & H3).
           split; [intros _; now apply H1|split].
           ++ discriminate.
           ++ intros Hnot. exfalso. apply Hnot. now left.
    + pose proof (rewrite_ref_frame _ _ _ _ _ _ Hs Hs' Hne Hx) as Hf.
      split.
      * intros HW. apply IHW. now rewrite Hf.
      * intros k HV. rewrite <- Hf in HV. destruct (IHV k HV) as (H1 & H2 & H3).
        split; [|split]; auto.
        -- intros new Hn [Heq|Hin]; [now destruct Hne | eauto].
        -- intros Hnot. apply H3. intros Hin. apply Hnot. now right.
Qed.

(** ** The first loop of a merge *)

Lemma element_refs_form h a p i l :
  (p = [] \/ exists name, p = [Key "arguments"; Key name]) ->
  Forall (fun s => site_form (snd s)) (element_refs h a p i l).
Proof.
  intros Hp. revert i. induction l as [|x l IH]; intros i; simpl; [constructor|].
  apply Forall_app. split; [|apply IH].
  assert (Hin : Forall (fun s : site => site_form (snd s)) [(a, (p ++ [Index i])%list)]).
  { constructor; [|constructor]. simpl.
    destruct Hp as [->|[name ->]]; constructor. }
  destruct x as [| | | | |r|l'|d]; simpl; try constructor.
  - destruct (heap_get r h) as [o|]; [|constructor].
    destruct (is_node_ref o); constructor; [constructor|constructor].
  - destruct (dict_has "from_node" d); [exact Hin|constructor].
Qed.

Lemma argument_refs_form h a p x :
  (p = [] \/ exists name, p = [Key "arguments"; Key name]) ->
  Forall (fun s => site_form (snd s)) (argument_refs h a p x).
Proof.
  intros Hp. destruct x; simpl; try constructor.
  - now apply element_refs_form.
  - destruct (dict_has "from_node" d); constructor; [|constructor].
    simpl. destruct Hp as [->|[name ->]]; constructor.
Qed.

Lemma extract_node_references_form h node arguments :
  Forall (fun s => site_form (snd s)) (_extract_node_references h node arguments).
Proof.
  unfold _extract_node_references.
  induction arguments as [|[name x] arguments IH]; [constructor|].
  cbn [flat_map]. apply Forall_app. split; [|exact IH]. cbn [snd fst].
  destruct x as [| | | | |r|l|d]; try (apply argument_refs_form; right; eauto).
  destruct (heap_get r h); [|constructor].
  apply argument_refs_form. now left.
Qed.

Lemma process_returns_id self process_id args h id self' h' :
  process self process_id args h = Ok (id, self', h') -> id = PBuiltin "id".
Proof.
  unfold process. intros H. bind_inv H. simpl in H. now injection H as <- _ _.
Qed.

(** One round of the first loop: what it adds to the state. *)
Lemma merge_process_inv key process_ st u st' :
  merge_process (key, process_) st = Ok (u, st') ->
  key_map st' = dict_set key (PBuiltin "id") (key_map st)
  /\ preserves (merge_store st) (merge_store st')
  /\ exists new_refs,
      node_refs st' = (node_refs st ++ new_refs)%list
      /\ Forall (fun s => site_form (snd s)) new_refs.
Proof.
  unfold merge_process. intros H.
  bind_inv H. bind_inv H. bind_inv H. destruct x1; try discriminate.
  bind_inv H. destruct x1 as [[id self] h].
  pose proof (process_returns_id _ _ _ _ _ _ _ Hx2) as ->.
  apply process_preserves in Hx2 as (P & R & _). rewrite R in H.
  match type of H with
  | match ?X with _ => _ end = _ => destruct X as [[]|]; try discriminate
  end.
  injection H as <- <-. simpl. split; [reflexivity|]. split; [exact P|].
  eexists. split; [reflexivity|]. apply extract_node_references_form.
Qed.

Lemma merge_loop_inv items :
  forall st us st', mapM merge_process items st = Ok (us, st') ->
  preserves (merge_store st) (merge_store st')
  /\ (Forall (fun kv => snd kv = PBuiltin "id") (key_map st) ->
      Forall (fun kv => snd kv = PBuiltin "id") (key_map st'))
  /\ (forall k, dict_get k (key_map st') = None ->
      dict_get k (key_map st) = None /\ ~ In k (keys items))
  /\ (forall k, In k (keys (key_map st')) ->
      In k (keys (key_map st)) \/ In k (keys items))
  /\ (Forall (fun s => site_form (snd s)) (node_refs st) ->
      Forall (fun s => site_form (snd s)) (node_refs st')).
Proof.
  induction items as [|[key process_] items IH]; simpl; intros st us st' H.
  - injection H as <- <-. repeat split; auto using preserves_refl.
  - bind_inv H. destruct x as [u st1]. bind_inv H. destruct x as [us' st2].
    injection H as <- <-.
    apply merge_process_inv in Hx as (Hk & P & new_refs & Hr & Hf).
    destruct (IH _ _ _ Hx0) as (P' & Hb & Hnone & Hin & Hform).
    split; [eapply preserves_trans; eauto|]. split; [|split; [|split]].
    + intros Hall. apply Hb. rewrite Hk. clear -Hall.
      induction Hall as [|[k v] km Hv Hall IHk]; simpl.
      * constructor; [reflexivity|constructor].
      * destruct (String.eqb key k); constructor; auto.
    + intros k Hn. destruct (Hnone k Hn) as [Hn1 Hnot]. rewrite Hk in Hn1.
      destruct (String.eqb_spec k key) as [->|Hne].
      * now rewrite dict_get_set_same in Hn1.
      * rewrite dict_get_set_other in Hn1 by exact Hne.
        split; [exact Hn1|]. intros [Heq|Hi]; [now destruct Hne | auto].
    + intros k Hk'. destruct (Hin k Hk') as [H1|H1]; [|now right; right].
      rewrite Hk in H1. apply in_keys_dict_get in H1 as [v Hv].
      destruct (String.eqb_spec k key) as [->|Hne]; [right; now left|].
      rewrite dict_get_set_other in Hv by exact Hne.
      left. eapply dict_get_in_keys; eauto.
    + intros Hall. apply Hform. rewrite Hr. apply Forall_app. auto.
Qed.

Lemma insert_sorted_keys kv l k :
  In k (keys (insert_sorted kv l)) <-> k = fst kv \/ In k (keys l).
Proof.
  unfold keys. induction l as [|kv' l IH]; simpl.
  - intuition congruence.
  - destruct (String.leb (fst kv) (fst kv')); simpl.
    + intuition congruence.
    + rewrite IH. intuition congruence.
Qed.

Lemma sorted_items_keys d k : In k (keys (sorted_items d)) <-> In k (keys d).
Proof.
  unfold sorted_items. induction d as [|kv d IH]; simpl; [tauto|].
  rewrite insert_sorted_keys, IH. intuition congruence.
Qed.

(** ** A merge of a flat graph returns *)

Lemma unique_keys_get {A : Type} (d : list (string * A)) name x :
  unique_keys (keys d) = true -> In (name, x) d -> dict_get name d = Some x.
Proof.
  induction d as [|[k v] d IH]; simpl; [tauto|].
  intros H. apply andb_true_iff in H as [Hk Hu].
  intros [Heq|Hin].
  - injection Heq as -> ->. now rewrite String.eqb_refl.
  - destruct (String.eqb_spec name k) as [->|Hne]; [|auto].
    exfalso. apply negb_true_iff in Hk.
    assert (Hex : existsb (String.eqb k) (keys d) = true).
    { apply existsb_exists. exists k. split; [|apply String.eqb_refl].
      unfold keys. change k with (fst (k, x)). now apply in_map. }
    congruence.
Qed.

Lemma holds_key_preserved h h' s : preserves h h' -> holds_key h s -> holds_key h' s.
Proof.
  intros [_ G] [k Hk]. exists k. unfold site_get in *.
  destruct (heap_get (fst (from_node_of s)) h) as [o|] eqn:E; [|discriminate].
  rewrite G, E; auto. eapply heap_get_lt; eauto.
Qed.

Section flat_node_sites.
Variables (h : heap) (a : addr) (process_id : pyval) (args : dict).
Hypothesis Hcell :
  heap_get a h = Some (PDict [("process_id", process_id); ("arguments", PDict args)]).

Lemma element_sites name l :
  dict_get name args = Some (PList l) ->
  forall l' i,
    (forall j y, nth_error l' j = Some y -> nth_error l (i + j) = Some y) ->
    forallb key_reference l' = true ->
    Forall (holds_key h) (element_refs h a [Key "arguments"; Key name] i l').
Proof.
  intros Hname. induction l' as [|x l' IH]; intros i Hnth Hok; [constructor|].
  cbn [element_refs]. cbn [forallb] in Hok. apply andb_true_iff in Hok as [Hx Hl].
  apply Forall_app. split.
  - destruct x as [| | | | |r|l0|d]; try discriminate; try constructor.
    simpl is_node_ref. unfold dict_has.
    destruct (dict_get "from_node" d) as [v|] eqn:Ev; [|constructor].
    constructor; [|constructor].
    simpl in Hx. rewrite Ev in Hx. destruct v; try discriminate.
    exists s. unfold site_get, from_node_of. cbn [fst snd app].
    rewrite Hcell. cbn [path_get dict_get].
    change (String.eqb "arguments" "process_id") with false.
    change (String.eqb "arguments" "arguments") with true. cbn iota.
    rewrite Hname. specialize (Hnth 0 _ eq_refl). rewrite Nat.add_0_r in Hnth.
    rewrite Hnth. now rewrite Ev.
  - apply IH; auto. intros j y Hj.
    replace (S i + j) with (i + S j) by lia. now apply Hnth.
Qed.

Lemma argument_sites name x :
  dict_get name args = Some x ->
  flat_argument x = true ->
  Forall (holds_key h) (_extract_node_references h a [(name, x)]).
Proof.
  intros Hname Hx. unfold flat_argument in Hx.
  apply andb_true_iff in Hx as [Hrf Hk].
  unfold _extract_node_references. cbn [flat_map fst snd]. rewrite app_nil_r.
  destruct x as [| | | | |r|l|d]; try discriminate; try constructor.
  - cbn [argument_refs]. apply (element_sites name l Hname); auto.
  - cbn [argument_refs]. unfold dict_has.
    destruct (dict_get "from_node" d) as [v|] eqn:Ev; [|constructor].
    constructor; [|constructor].
    simpl in Hk. rewrite Ev in Hk. destruct v; try discriminate.
    exists s. unfold site_get, from_node_of. cbn [fst snd app].
    rewrite Hcell. cbn [path_get dict_get].
    change (String.eqb "arguments" "process_id") with false.
    change (String.eqb "arguments" "arguments") with true. cbn iota.
    rewrite Hname. now rewrite Ev.
Qed.

Lemma extract_sites :
  unique_keys (keys args) = true ->
  forallb (fun kv => flat_argument (snd kv)) args = true ->
  Forall (holds_key h) (_extract_node_references h a args).
Proof.
  intros Hu Hall. unfold _extract_node_references.
  apply Forall_flat_map. apply Forall_forall. intros [name x] Hin.
  assert (Hone : Forall (holds_key h) (_extract_node_references h a [(name, x)])).
  { apply argument_sites.
    - now apply unique_keys_get.
    - rewrite forallb_forall in Hall. apply (Hall _ Hin). }
  unfold _extract_node_references in Hone. cbn [flat_map] in Hone.
  now rewrite app_nil_r in Hone.
Qed.
End flat_node_sites.

Lemma merge_process_total key process_ st :
  flat_node process_ = true ->
  Forall (holds_key (merge_store st)) (node_refs st) ->
  exists u st',
    merge_process (key, process_) st = Ok (u, st')
    /\ Forall (holds_key (merge_store st')) (node_refs st').
Proof.
  unfold flat_node. destruct process_ as [| | | | | | |node]; try discriminate.
  intros H Hrefs. apply andb_true_iff in H as [Hpid H].
  unfold dict_has in Hpid.
  destruct (dict_get "process_id" node) as [pid|] eqn:Ep; [|discriminate].
  destruct (dict_get "arguments" node) as [[| | | | | | |args]|] eqn:Ea;
    try discriminate.
  apply andb_true_iff in H as [H Hflat]. apply andb_true_iff in H as [Hfrom Huniq].
  apply negb_true_iff in Hfrom.
  assert (Hrf : ref_free (PDict args) = true).
  { simpl. apply forallb_forall. intros kv Hin.
    rewrite forallb_forall in Hflat. specialize (Hflat kv Hin).
    unfold flat_argument in Hflat. now apply andb_true_iff in Hflat as [Hr _]. }
  unfold merge_process. cbn [getitem]. rewrite Ep, Ea. cbn [bind].
  rewrite (deepcopy_ref_free _ _ Hrf). cbn [bind].
  rewrite (process_spec_unchained _ _ _ _ Hfrom). cbn [bind result_node].
  set (h1 := (merge_store st ++ [PDict [("process_id", pid); ("arguments", PDict args)]])%list).
  assert (Hcell : heap_get (List.length (merge_store st)) h1
                  = Some (PDict [("process_id", pid); ("arguments", PDict args)]))
    by apply heap_get_app_new.
  match goal with
  | |- context [site_get ?s h1] =>
      assert (Hsite : site_get s h1 = Some (PDict args))
        by (unfold site_get; cbn [fst snd]; rewrite Hcell; reflexivity);
      rewrite Hsite
  end. do 2 eexists. split; [reflexivity|].
  cbn [node_refs merge_store]. apply Forall_app. split.
  - eapply Forall_impl; [|exact Hrefs].
    intros s. apply holds_key_preserved. apply (preserves_alloc _ (merge_store st)).
  - eapply extract_sites; eauto.
Qed.

Lemma merge_loop_total items :
  forallb (fun kv => flat_node (snd kv)) items = true ->
  forall st,
    Forall (holds_key (merge_store st)) (node_refs st) ->
    exists us st',
      mapM merge_process items st = Ok (us, st')
      /\ Forall (holds_key (merge_store st')) (node_refs st').
Proof.
  induction items as [|[key process_] items IH]; cbn [mapM forallb snd];
    intros Hall st Hrefs.
  - eauto.
  - apply andb_true_iff in Hall as [Hn Hall].
    destruct (merge_process_total key process_ st Hn Hrefs) as (u & st1 & -> & H1).
    cbn [bind].
    destruct (IH Hall st1 H1) as (us & st2 & -> & H2). cbn [bind]. eauto.
Qed.

Lemma forallb_insert_sorted (P : string * pyval -> bool) kv l :
  forallb P (insert_sorted kv l) = P kv && forallb P l.
Proof.
  induction l as [|kv' l IH]; simpl; auto.
  destruct (String.leb (fst kv) (fst kv')); simpl; auto.
  rewrite IH. now rewrite !andb_assoc, (andb_comm (P kv') (P kv)).
Qed.

Lemma forallb_sorted_items (P : string * pyval -> bool) d :
  forallb P (sorted_items d) = forallb P d.
Proof.
  unfold sorted_items. induction d as [|kv d IH]; simpl; auto.
  now rewrite forallb_insert_sorted, IH.
Qed.

Lemma rewrite_pass_total km refs :
  Forall (fun kv => snd kv = PBuiltin "id") km ->
  Forall (fun s => site_form (snd s)) refs ->
  forall h, Forall (holds_key_or_id h) refs ->
            exists us h', mapM (rewrite_ref km) refs h = Ok (us, h').
Proof.
  intros Hkm. induction 1 as [|s refs Hs Hrefs IH]; intros h Hall; cbn [mapM];
    [eauto|].
  inversion Hall as [|? ? Hhead Htail]; subst.
  assert (Hstep : exists h1, rewrite_ref km s h = Ok (tt, h1)
                             /\ Forall (holds_key_or_id h1) refs).
  { destruct Hhead as [[k Hk]|Hid].
    - rewrite (rewrite_ref_on_key _ _ _ _ Hk).
      destruct (dict_get k km) as [new|] eqn:Ek; [|eauto].
      eexists. split; [reflexivity|].
      assert (Hnew : new = PBuiltin "id")
        by apply (Forall_dict_get (fun v => v = PBuiltin "id") _ _ _ Hkm Ek).
      subst new.
      rewrite Forall_forall in *. intros s2 Hin.
      destruct (site_eq_dec s2 s) as [->|Hne].
      + right. eapply from_node_assigned; eauto.
      + unfold holds_key_or_id, holds_key.
        rewrite from_node_frame; auto.
        apply (Htail _ Hin).
    - rewrite (rewrite_ref_on_builtin _ _ _ _ Hid). eauto. }
  destruct Hstep as (h1 & -> & H1). cbn [bind].
  destruct (IH h1 H1) as (us & h' & ->). cbn [bind]. eauto.
Qed.

Lemma merge_total self processes h :
  flat_graph_shape processes ->
  exists us st us' h',
    mapM merge_process (sorted_items processes) (merge_start self h) = Ok (us, st)
    /\ mapM (rewrite_ref (key_map st)) (node_refs st) (merge_store st) = Ok (us', h')
    /\ _merge_processes self processes h = Ok (merged st, key_map st, h').
Proof.
  intros Hshape. unfold flat_graph_shape in Hshape.
  rewrite <- forallb_sorted_items in Hshape.
  destruct (merge_loop_total _ Hshape (merge_start self h)) as (us & st & Hloop & Hkeys);
    [constructor|].
  destruct (merge_loop_inv _ _ _ _ Hloop) as (_ & Hb & _ & _ & Hform).
  destruct (rewrite_pass_total (key_map st) (node_refs st)) with (h := merge_store st)
    as (us' & h' & Hpass).
  - apply Hb. constructor.
  - apply Hform. constructor.
  - eapply Forall_impl; [|exact Hkeys]. intros s Hs. now left.
  - exists us, st, us', h'. split; [exact Hloop|]. split; [exact Hpass|].
    unfold _merge_processes. fold (merge_start self h).
    rewrite Hloop. cbn [bind]. rewrite Hpass. reflexivity.
Qed.

(** What a merge that returns has done. *)
Lemma merge_facts self processes h us st us' h' :
  mapM merge_process (sorted_items processes) (merge_start self h) = Ok (us, st) ->
  mapM (rewrite_ref (key_map st)) (node_refs st) (merge_store st) = Ok (us', h') ->
  (forall key, In key (keys (key_map st)) -> In key (keys processes))
  /\ (forall key new, dict_get key (key_map st) = Some new ->
      new = PBuiltin "id" /\ new <> PStr key)
  /\ (forall key, In key (keys processes) ->
      exists new, dict_get key (key_map st) = Some new)
  /\ (forall s old,
         In s (node_refs st) ->
         site_get (from_node_of s) (merge_store st) = Some (PStr old) ->
         (forall new, dict_get old (key_map st) = Some new ->
                      site_get (from_node_of s) h' = Some new)
         /\ (dict_get old (key_map st) = None ->
             site_get (from_node_of s) h' = Some (PStr old))).
Proof.
  intros Hloop Hpass.
  destruct (merge_loop_inv _ _ _ _ Hloop) as (_ & Hb & Hnone & Hin & Hform).
  specialize (Hb (Forall_nil _)). specialize (Hform (Forall_nil _)).
  split; [|split; [|split]].
  - intros key Hk. destruct (Hin key Hk) as [[]|Hs]. now apply sorted_items_keys.
  - intros key new Hk.
    rewrite (Forall_dict_get (fun v => v = PBuiltin "id") _ _ _ Hb Hk).
    split; [reflexivity | discriminate].
  - intros key Hk. destruct (dict_get key (key_map st)) as [new|] eqn:E; [eauto|].
    destruct (Hnone key E) as [_ Hnot]. exfalso. apply Hnot.
    now apply sorted_items_keys.
  - intros s old Hs Hold.
    assert (Hsf : site_form (snd s)).
    { rewrite Forall_forall in Hform. now apply Hform. }
    destruct (rewrite_pass _ _ Hb Hform _ _ _ Hpass s Hsf) as [_ HV].
    destruct (HV old Hold) as (H1 & H2 & _). split; auto.
Qed.

Lemma element_refs_own h a p l :
  forallb ref_free l = true ->
  forall i,
    Forall (fun s => fst s = a /\ exists q, snd s = (p ++ q)%list)
      (element_refs h a p i l).
Proof.
  induction l as [|x l IH]; intros Hrf i; cbn [element_refs]; [constructor|].
  cbn [forallb] in Hrf. apply andb_true_iff in Hrf as [Hx Hl].
  apply Forall_app. split; [|now apply IH].
  destruct x as [| | | | |r|l'|d]; try discriminate; cbn [is_node_ref];
    try constructor.
  destruct (dict_has "from_node" d); constructor; [|constructor].
  cbn [fst snd]. eauto.
Qed.

Lemma argument_refs_own h a p x :
  ref_free x = true ->
  Forall (fun s => fst s = a /\ exists q, snd s = (p ++ q)%list)
    (argument_refs h a p x).
Proof.
  intros Hrf. destruct x as [| | | | |r|l|d]; cbn [argument_refs]; try constructor.
  - now apply element_refs_own.
  - destruct (dict_has "from_node" d); constructor; [|constructor].
    cbn [fst snd]. split; [reflexivity|]. exists []. now rewrite app_nil_r.
Qed.

(** The references found in arguments that hold no reference into the store
    lie inside the node's own arguments. *)
Lemma extract_node_references_own h a args :
  ref_free (PDict args) = true ->
  Forall (fun s => fst s = a /\ exists q, snd s = Key "arguments" :: q)
    (_extract_node_references h a args).
Proof.
  cbn [ref_free]. intros Hrf. unfold _extract_node_references.
  apply Forall_flat_map. apply Forall_forall. intros [name x] Hin.
  rewrite forallb_forall in Hrf. specialize (Hrf _ Hin). cbn [snd fst] in *.
  assert (H : Forall (fun s => fst s = a /\ exists q, snd s = Key "arguments" :: q)
                (argument_refs h a [Key "arguments"; Key name] x)).
  { eapply Forall_impl; [|apply argument_refs_own; exact Hrf].
    intros s [Hs [q Hq]]. split; [exact Hs|]. rewrite Hq. cbn [app]. eauto. }
  destruct x; try exact H. discriminate.
Qed.

(** One round of the first loop on a node of a flat graph, in full. *)
Lemma merge_process_flat key process_ st :
  flat_node process_ = true ->
  exists pid args,
    getitem "process_id" process_ = Ok pid
    /\ getitem "arguments" process_ = Ok (PDict args)
    /\ ref_free (PDict args) = true
    /\ unique_keys (keys args) = true
    /\ merge_process (key, process_) st
       = Ok (tt,
             {| merged := {| result_node := Some (List.length (merge_store st)) |};
                key_map := dict_set key (PBuiltin "id") (key_map st);
                node_refs :=
                  (node_refs st
                   ++ _extract_node_references
                        (merge_store st
                         ++ [PDict [("process_id", pid); ("arguments", PDict args)]])
                        (List.length (merge_store st)) args)%list;
                merge_store :=
                  (merge_store st
                   ++ [PDict [("process_id", pid); ("arguments", PDict args)]])%list |}).
Proof.
  unfold flat_node. destruct process_ as [| | | | | | |node]; try discriminate.
  intros H. apply andb_true_iff in H as [Hpid H].
  unfold dict_has in Hpid.
  destruct (dict_get "process_id" node) as [pid|] eqn:Ep; [|discriminate].
  destruct (dict_get "arguments" node) as [[| | | | | | |args]|] eqn:Ea;
    try discriminate.
  apply andb_true_iff in H as [H Hflat]. apply andb_true_iff in H as [Hfrom Huniq].
  apply negb_true_iff in Hfrom.
  assert (Hrf : ref_free (PDict args) = true).
  { simpl. apply forallb_forall. intros kv Hin.
    rewrite forallb_forall in Hflat. specialize (Hflat kv Hin).
    unfold flat_argument in Hflat. now apply andb_true_iff in Hflat as [Hr _]. }
  exists pid, args. unfold merge_process. cbn [getitem]. rewrite Ep, Ea.
  split; [reflexivity|]. split; [reflexivity|]. split; [exact Hrf|].
  split; [exact Huniq|].
  cbn [bind]. rewrite (deepcopy_ref_free _ _ Hrf). cbn [bind].
  rewrite (process_spec_unchained _ _ _ _ Hfrom). cbn [bind result_node].
  set (h1 := (merge_store st ++ [PDict [("process_id", pid); ("arguments", PDict args)]])%list).
  assert (Hcell : heap_get (List.length (merge_store st)) h1
                  = Some (PDict [("process_id", pid); ("arguments", PDict args)]))
    by apply heap_get_app_new.
  match goal with
  | |- context [site_get ?s h1] =>
      assert (Hsite : site_get s h1 = Some (PDict args))
        by (unfold site_get; cbn [fst snd]; rewrite Hcell; reflexivity);
      rewrite Hsite
  end.
  reflexivity.
Qed.

(** The first loop on a flat graph: one new object per item, in the order of
    the items, and references inside the new objects only. *)
Lemma merge_loop_cells items :
  forallb (fun kv => flat_node (snd kv)) items = true ->
  forall st us st',
    mapM merge_process items st = Ok (us, st') ->
    List.length (merge_store st') = List.length (merge_store st) + List.length items
    /\ (forall i key process_,
           nth_error items i = Some (key, process_) ->
           exists pid args,
             getitem "process_id" process_ = Ok pid
             /\ heap_get (List.length (merge_store st) + i) (merge_store st')
                = Some (PDict [("process_id", pid); ("arguments", PDict args)]))
    /\ (exists new_refs,
           node_refs st' = (node_refs st ++ new_refs)%list
           /\ Forall (fun s => List.length (merge_store st) <= fst s
                               /\ exists q, snd s = Key "arguments" :: q) new_refs)
    /\ merged st'
       = match items with
         | [] => merged st
         | _ => {| result_node :=
                     Some (List.length (merge_store st) + List.length items - 1) |}
         end.
Proof.
  induction items as [|[key process_] items IH]; cbn [mapM forallb snd];
    intros Hall st us st' H.
  - injection H as <- <-. split; [simpl; lia|]. split.
    + intros [|i] ? ? Hn; discriminate.
    + split; [|reflexivity]. exists []. rewrite app_nil_r. auto.
  - apply andb_true_iff in Hall as [Hn Hall].
    destruct (merge_process_flat key process_ st Hn)
      as (pid & args & Hpid & _ & Hrf & _ & Hstep).
    rewrite Hstep in H. cbn [bind] in H.
    bind_inv H. destruct x as [us' st2]. injection H as <- <-.
    destruct (IH Hall _ _ _ Hx) as (Hlen & Hcells & (new_refs & Hrefs & Hown) & Hm).
    pose proof (merge_loop_inv _ _ _ _ Hx) as [Hp _].
    cbn [merge_store node_refs merged] in *.
    rewrite length_app in *. cbn [List.length] in *.
    split; [lia|]. split; [|split].
    + intros [|i] key' process' Hi.
      * cbn [nth_error] in Hi. injection Hi as <- <-.
        exists pid, args. split; [exact Hpid|].
        destruct Hp as [_ Hp]. rewrite Nat.add_0_r.
        rewrite Hp by (rewrite length_app; simpl; lia).
        apply heap_get_app_new.
      * cbn [nth_error] in Hi. destruct (Hcells _ _ _ Hi) as (pid' & args' & H1 & H2).
        exists pid', args'. split; [exact H1|].
        replace (List.length (merge_store st) + S i)
          with (List.length (merge_store st) + 1 + i) by lia. exact H2.
    + eexists. split; [rewrite Hrefs, <- app_assoc; reflexivity|].
      apply Forall_app. split.
      * eapply Forall_impl; [|apply extract_node_references_own; exact Hrf].
        intros s [Hs Hq].
        split; [apply Nat.eq_le_incl; symmetry; exact Hs | exact Hq].
      * eapply Forall_impl; [|exact Hown]. intros s [Hs Hq]. split; [lia | exact Hq].
    + rewrite Hm. destruct items; f_equal; f_equal; simpl; lia.
Qed.

Lemma element_refs_in h a p l :
  forall i j d,
    nth_error l j = Some (PDict d) ->
    dict_has "from_node" d = true ->
    In (a, (p ++ [Index (i + j)])%list) (element_refs h a p i l).
Proof.
  induction l as [|x l IH]; intros i [|j] d Hj Hd; try discriminate;
    cbn [element_refs nth_error] in *; apply in_or_app.
  - left. injection Hj as ->. cbn [is_node_ref]. rewrite Hd, Nat.add_0_r. now left.
  - right. rewrite Nat.add_succ_r. apply (IH (S i) j d); assumption.
Qed.

(** A reference that is the value of an argument is found, whatever the
    store holds. *)
Lemma extract_node_references_direct h a args name d :
  In (name, PDict d) args ->
  dict_has "from_node" d = true ->
  In (a, [Key "arguments"; Key name]) (_extract_node_references h a args).
Proof.
  intros Hin Hd. unfold _extract_node_references. apply in_flat_map.
  exists (name, PDict d). split; [exact Hin|].
  cbn [snd fst argument_refs]. rewrite Hd. now left.
Qed.

(** A reference that is an element of a list-valued argument is found. *)
Lemma extract_node_references_element h a args name l j d :
  In (name, PList l) args ->
  nth_error l j = Some (PDict d) ->
  dict_has "from_node" d = true ->
  In (a, [Key "arguments"; Key name; Index j]) (_extract_node_references h a args).
Proof.
  intros Hin Hj Hd. unfold _extract_node_references. apply in_flat_map.
  exists (name, PList l). split; [exact Hin|].
  cbn [snd fst argument_refs].
  apply (element_refs_in h a [Key "arguments"; Key name] l 0 j d Hj Hd).
Qed.

(** The first loop on a flat graph, seen from one of its items: the object
    added for it holds the item's operation and arguments, and every reference
    that [_extract_node_references] finds in these arguments is among the
    references kept for the second loop. *)
Lemma merge_loop_sites items :
  forallb (fun kv => flat_node (snd kv)) items = true ->
  forall st us st',
    mapM merge_process items st = Ok (us, st') ->
    forall i key process_ args,
      nth_error items i = Some (key, process_) ->
      getitem "arguments" process_ = Ok (PDict args) ->
      unique_keys (keys args) = true
      /\ (exists pid,
             heap_get (List.length (merge_store st) + i) (merge_store st')
             = Some (PDict [("process_id", pid); ("arguments", PDict args)]))
      /\ forall s,
          (forall hx,
              In s (_extract_node_references hx (List.length (merge_store st) + i) args)) ->
          In s (node_refs st').
Proof.
  induction items as [|[key0 process0] items IH]; cbn [mapM forallb snd];
    intros Hall st us st' H i key process_ args Hi Hargs.
  - destruct i; discriminate.
  - apply andb_true_iff in Hall as [Hn Hall].
    destruct (merge_process_flat key0 process0 st Hn)
      as (pid & args0 & _ & Hargs0 & _ & Huniq & Hstep).
    rewrite Hstep in H. cbn [bind] in H.
    bind_inv H. destruct x as [us' st2]. injection H as <- <-.
    destruct (merge_loop_cells _ Hall _ _ _ Hx) as (_ & _ & (new_refs & Hrefs & _) & _).
    pose proof (merge_loop_inv _ _ _ _ Hx) as [[_ Hp] _].
    cbn [merge_store node_refs] in *.
    destruct i as [|i].
    + cbn [nth_error] in Hi. injection Hi as <- <-.
      rewrite Hargs0 in Hargs. injection Hargs as <-.
      split; [exact Huniq|]. split.
      * exists pid. rewrite Nat.add_0_r.
        rewrite Hp by (rewrite length_app; simpl; lia).
        apply heap_get_app_new.
      * intros s Hs. rewrite Hrefs. apply in_or_app. left. apply in_or_app. right.
        rewrite Nat.add_0_r in Hs. apply Hs.
    + cbn [nth_error] in Hi.
      destruct (IH Hall _ _ _ Hx i key process_ args Hi Hargs) as (Hu & Hcell & Hsites).
      cbn [merge_store] in Hcell, Hsites.
      rewrite length_app in Hcell, Hsites. cbn [List.length] in Hcell, Hsites.
      replace (List.length (merge_store st) + 1 + i)
        with (List.length (merge_store st) + S i) in Hcell, Hsites by lia.
      auto.
Qed.

(** C2 (the code does not keep the claim).  A merge of a flat graph
    returns, and its key map has an entry for every key of the merged graph,
    not only for keys that changed: the value recorded as the new key is what
    [process] returned, the builtin function [id], which differs from every
    key.  After the rewrite pass every reference in the arguments of a node
    that the merge added, be it the value of an argument or an element of a
    list-valued argument, holds that function object where it named a key of
    the merged graph, and not a key of the builder; a reference that named any
    other key holds the key it held. *)
Theorem merge_rewrites_references self processes h :
  flat_graph_shape processes ->
  exists self' key_map h',
    _merge_processes self processes h = Ok (self', key_map, h')
    /\ (forall key, In key (keys processes) ->
        dict_get key key_map = Some (PBuiltin "id"))
    /\ (forall key, ~ In key (keys processes) -> dict_get key key_map = None)
    /\ forall i key process_ args,
        nth_error (sorted_items processes) i = Some (key, process_) ->
        getitem "arguments" process_ = Ok (PDict args) ->
        let rewritten old :=
          if existsb (String.eqb old) (keys processes)
          then PBuiltin "id" else PStr old in
        (forall name d old,
            In (name, PDict d) args ->
            dict_get "from_node" d = Some (PStr old) ->
            site_get (List.length h + i,
                      [Key "arguments"; Key name; Key "from_node"]) h'
            = Some (rewritten old))
        /\ (forall name l j d old,
               In (name, PList l) args ->
               nth_error l j = Some (PDict d) ->
               dict_get "from_node" d = Some (PStr old) ->
               site_get (List.length h + i,
                         [Key "arguments"; Key name; Index j; Key "from_node"]) h'
               = Some (rewritten old)).
Proof.
  intros Hshape.
  destruct (merge_total self processes h Hshape) as (us & st & us' & h' & H1 & H2 & H3).
  destruct (merge_facts _ _ _ _ _ _ _ H1 H2) as (Hin & Hid & Hall & Hrw).
  exists (merged st), (key_map st), h'. split; [exact H3|].
  assert (Hkey : forall key, In key (keys processes) ->
                             dict_get key (key_map st) = Some (PBuiltin "id")).
  { intros key Hk. destruct (Hall key Hk) as [new Hnew].
    now destruct (Hid _ _ Hnew) as [-> _]. }
  assert (Hnone : forall key, ~ In key (keys processes) ->
                              dict_get key (key_map st) = None).
  { intros key Hk. apply dict_get_not_in_keys. intros Hk'. now apply Hk, Hin. }
  split; [exact Hkey|]. split; [exact Hnone|].
  intros i key process_ args Hi Hargs rewritten.
  unfold flat_graph_shape in Hshape. rewrite <- forallb_sorted_items in Hshape.
  destruct (merge_loop_sites _ Hshape _ _ _ H1 _ _ _ _ Hi Hargs)
    as (Huniq & [pid Hcell] & Hsites).
  cbn [merge_start merge_store] in Hcell, Hsites.
  assert (Hfinal : forall s old,
             In s (node_refs st) ->
             site_get (from_node_of s) (merge_store st) = Some (PStr old) ->
             site_get (from_node_of s) h' = Some (rewritten old)).
  { intros s old Hs Hold. destruct (Hrw s old Hs Hold) as [Hsome Hmiss].
    unfold rewritten.
    destruct (existsb (String.eqb old) (keys processes)) eqn:E.
    - apply Hsome, Hkey. apply existsb_exists in E as (k & Hk & Ek).
      apply String.eqb_eq in Ek. now subst.
    - apply Hmiss, Hnone. intros Hk.
      assert (existsb (String.eqb old) (keys processes) = true); [|congruence].
      apply existsb_exists. exists old. split; [exact Hk | apply String.eqb_refl]. }
  split.
  - intros name d old Hname Hold.
    apply (Hfinal (List.length h + i, [Key "arguments"; Key name])).
    + apply Hsites. intros hx. apply (extract_node_references_direct _ _ _ _ d); auto.
      unfold dict_has. now rewrite Hold.
    + unfold site_get, from_node_of. cbn [fst snd app]. rewrite Hcell.
      cbn [path_get dict_get].
      change (String.eqb "arguments" "process_id") with false.
      change (String.eqb "arguments" "arguments") with true. cbn iota.
      rewrite (unique_keys_get _ _ _ Huniq Hname). now rewrite Hold.
  - intros name l j d old Hname Hj Hold.
    apply (Hfinal (List.length h + i, [Key "arguments"; Key name; Index j])).
    + apply Hsites. intros hx.
      apply (extract_node_references_element _ _ _ _ l _ d); auto.
      unfold dict_has. now rewrite Hold.
    + unfold site_get, from_node_of. cbn [fst snd app]. rewrite Hcell.
      cbn [path_get dict_get].
      change (String.eqb "arguments" "process_id") with false.
      change (String.eqb "arguments" "arguments") with true. cbn iota.
      rewrite (unique_keys_get _ _ _ Huniq Hname), Hj. now rewrite Hold.
Qed.

Lemma merge_rewrites_references_witness :
  exists self' key_map h',
    _merge_processes GraphBuilder_init example_flat_graph [] = Ok (self', key_map, h')
    /\ (forall key, In key (keys example_flat_graph) ->
        dict_get key key_map = Some (PBuiltin "id"))
    /\ (forall key, ~ In key (keys example_flat_graph) -> dict_get key key_map = None)
    /\ forall i key process_ args,
        nth_error (sorted_items example_flat_graph) i = Some (key, process_) ->
        getitem "arguments" process_ = Ok (PDict args) ->
        let rewritten old :=
          if existsb (String.eqb old) (keys example_flat_graph)
          then PBuiltin "id" else PStr old in
        (forall name d old,
            In (name, PDict d) args ->
            dict_get "from_node" d = Some (PStr old) ->
            site_get (List.length (@nil pyval) + i,
                      [Key "arguments"; Key name; Key "from_node"]) h'
            = Some (rewritten old))
        /\ (forall name l j d old,
               In (name, PList l) args ->
               nth_error l j = Some (PDict d) ->
               dict_get "from_node" d = Some (PStr old) ->
               site_get (List.length (@nil pyval) + i,
                         [Key "arguments"; Key name; Index j; Key "from_node"]) h'
               = Some (rewritten old)).
Proof.
  apply (merge_rewrites_references GraphBuilder_init example_flat_graph []).
  reflexivity.
Defined.


(** Arguments that are a string: with ['from_node'] in it the merge raises
    [TypeError] on a builder that has a root and [AttributeError] on one that
    has none; without, [AttributeError]. *)
Example merge_string_arguments :
  let graph text := [("a1", PDict [("process_id", PStr "a");
                                   ("arguments", PStr text)])] in
  _merge_processes {| result_node := Some 0 |} (graph "x from_node") [PNone]
  = Raise TypeError
  /\ _merge_processes GraphBuilder_init (graph "x from_node") [] = Raise AttributeError
  /\ _merge_processes {| result_node := Some 0 |} (graph "x") [PNone]
     = Raise AttributeError.
Proof. repeat split; reflexivity. Qed.




(** ** The flat graph does not depend on the store *)

Lemma same_but_store_refl st : same_but_store st st.
Proof. repeat split. Qed.

Lemma leaveProcess_same process_id arguments st1 st2 st1' :
  same_but_store st1 st2 ->
  leaveProcess process_id arguments st1 = Ok st1' ->
  exists st2', leaveProcess process_id arguments st2 = Ok st2'
               /\ same_but_store st1' st2'.
Proof.
  intros (K & F & L). unfold leaveProcess.
  destruct process_id; try discriminate. rewrite <- K, <- F.
  destruct (generate s (key_generator st1)) as [node_id kg].
  intros H. injection H as <-. eexists. split; [reflexivity|]. repeat split.
Qed.

Lemma mapM_same {A B : Type} (f : A -> Flattener -> outcome (B * Flattener)) l :
  Forall (fun x => forall s1 s2 y s1',
              same_but_store s1 s2 -> f x s1 = Ok (y, s1') ->
              exists s2', f x s2 = Ok (y, s2') /\ same_but_store s1' s2') l ->
  forall s1 s2 ys s1',
    same_but_store s1 s2 -> mapM f l s1 = Ok (ys, s1') ->
    exists s2', mapM f l s2 = Ok (ys, s2') /\ same_but_store s1' s2'.
Proof.
  induction 1 as [|x l Hx Hl IH]; cbn [mapM]; intros s1 s2 ys s1' Hs H.
  - injection H as <- <-. eauto.
  - bind_inv H. destruct x0 as [y t1]. bind_inv H. destruct x0 as [ys' t2].
    injection H as <- <-.
    destruct (Hx _ _ _ _ Hs Hx0) as (u1 & -> & Hs1). cbn [bind].
    destruct (IH _ _ _ _ Hs1 Hx1) as (u2 & -> & Hs2). cbn [bind]. eauto.
Qed.

Lemma flatten_copy_same visit copy kg h1 h2 flat kg' h1' :
  (forall s1 s2 v' s1',
      same_but_store s1 s2 -> visit s1 = Ok (v', s1') ->
      exists s2', visit s2 = Ok (v', s2') /\ same_but_store s1' s2') ->
  flatten_copy visit copy kg h1 = Ok (flat, kg', h1') ->
  exists h2', flatten_copy visit copy kg h2 = Ok (flat, kg', h2').
Proof.
  intros Hv. unfold flatten_copy. cbn [alloc]. intros H.
  bind_inv H. destruct x as [copy' st]. bind_inv H. injection H as <- <- <-.
  apply (Hv _ {| key_generator := kg; flat_graph := []; last_node_id := PNone;
                  store := (h2 ++ [copy])%list |}) in Hx
    as (st2 & -> & (K & F & L)); [|repeat split].
  cbn [bind]. rewrite <- F, <- L, Hx0. cbn [bind]. rewrite <- K. eauto.
Qed.

Section same_layers.
Variable node : dict.
Hypothesis IH : forall k x s1 s2 v' s1',
  dict_get k node = Some x ->
  same_but_store s1 s2 -> accept x s1 = Ok (v', s1') ->
  exists s2', accept x s2 = Ok (v', s2') /\ same_but_store s1' s2'.

Lemma visit_reference_same s1 s2 s1' :
  same_but_store s1 s2 ->
  visit_reference accept node s1 = Ok s1' ->
  exists s2', visit_reference accept node s2 = Ok s2' /\ same_but_store s1' s2'.
Proof.
  unfold visit_reference. rewrite dict_with_get.
  destruct (dict_get "from_node" node) as [x|] eqn:E; cbn [option_map].
  - intros Hs H. bind_inv H. destruct x0 as [v' t1]. injection H as <-.
    destruct (IH _ _ _ _ _ _ E Hs Hx) as (t2 & -> & Hs'). cbn [bind]. eauto.
  - intros Hs H. injection H as <-. eauto.
Qed.

Lemma leaveArgument_same s1 s2 node' s1' :
  same_but_store s1 s2 ->
  leaveArgument
    (dict_with "callback"
       (fun callback => flatten_callback (accept callback) callback) node)
    node s1 = Ok (node', s1') ->
  exists s2',
    leaveArgument
      (dict_with "callback"
         (fun callback => flatten_callback (accept callback) callback) node)
      node s2 = Ok (node', s2')
    /\ same_but_store s1' s2'.
Proof.
  intros (K & F & L). unfold leaveArgument. rewrite dict_with_get.
  rewrite <- L, <- K.
  destruct (dict_get "callback" node) as [cb|] eqn:E; cbn [option_map].
  - intros H. bind_inv H. destruct x as [[flat kg] h]. injection H as <- <-.
    unfold flatten_callback in *. cbn [alloc] in *.
    destruct (flatten_copy_same _ _ _ _ (store s2 ++ [cb])%list _ _ _
                (fun t1 t2 v' t1' => IH _ _ t1 t2 v' t1' E) Hx) as (h2' & ->).
    cbn [bind]. eexists. split; [reflexivity|]. repeat split; auto.
  - intros H. injection H as <- <-. eexists. split; [reflexivity|].
    repeat split; auto.
Qed.
End same_layers.

Lemma accept_same v :
  (forall s1 s2 v' s1',
      same_but_store s1 s2 -> accept v s1 = Ok (v', s1') ->
      exists s2', accept v s2 = Ok (v', s2') /\ same_but_store s1' s2')
  /\ (forall s1 s2 r s1',
      same_but_store s1 s2 -> visit_arguments accept v s1 = Ok (r, s1') ->
      exists s2', visit_arguments accept v s2 = Ok (r, s2') /\ same_but_store s1' s2')
  /\ (forall k s1 s2 r s1',
      same_but_store s1 s2 -> visit_argument accept (k, v) s1 = Ok (r, s1') ->
      exists s2', visit_argument accept (k, v) s2 = Ok (r, s2')
                  /\ same_but_store s1' s2')
  /\ (forall s1 s2 r s1',
      same_but_store s1 s2 -> visit_element accept v s1 = Ok (r, s1') ->
      exists s2', visit_element accept v s2 = Ok (r, s2') /\ same_but_store s1' s2').
Proof.
  apply (traversal_ind
    (fun v => forall s1 s2 v' s1',
       same_but_store s1 s2 -> accept v s1 = Ok (v', s1') ->
       exists s2', accept v s2 = Ok (v', s2') /\ same_but_store s1' s2')
    (fun v => forall s1 s2 r s1',
       same_but_store s1 s2 -> visit_arguments accept v s1 = Ok (r, s1') ->
       exists s2', visit_arguments accept v s2 = Ok (r, s2')
                   /\ same_but_store s1' s2')
    (fun v => forall k s1 s2 r s1',
       same_but_store s1 s2 -> visit_argument accept (k, v) s1 = Ok (r, s1') ->
       exists s2', visit_argument accept (k, v) s2 = Ok (r, s2')
                   /\ same_but_store s1' s2')
    (fun v => forall s1 s2 r s1',
       same_but_store s1 s2 -> visit_element accept v s1 = Ok (r, s1') ->
       exists s2', visit_element accept v s2 = Ok (r, s2')
                   /\ same_but_store s1' s2')).
  - intros x IH s1 s2 v' s1' Hs H.
    destruct x; try (injection H as <- <-; eexists; split; [reflexivity|exact Hs]).
    rewrite accept_unfold in *. unfold visit_process in *.
    destruct (dict_get "process_id" d) as [pid|] eqn:Ep;
      [|injection H as <- <-; eauto].
    rewrite dict_with_get in *.
    destruct (dict_get "arguments" d) as [a|] eqn:Ea; cbn [option_map] in *.
    + bind_inv H. destruct x as [arguments t1]. bind_inv H. injection H as <- <-.
      destruct (IH d a eq_refl Ea _ _ _ _ Hs Hx) as (t2 & -> & Hs1). cbn [bind].
      destruct (leaveProcess_same _ _ _ _ _ Hs1 Hx0) as (t3 & -> & Hs2).
      cbn [bind]. eauto.
    + bind_inv H. injection H as <- <-.
      destruct (leaveProcess_same _ _ _ _ _ Hs Hx) as (t3 & -> & Hs2).
      cbn [bind]. eauto.
  - intros x IH s1 s2 r s1' Hs H. destruct x; try discriminate.
    unfold visit_arguments in *.
    eapply (mapM_same (visit_argument accept)); [|exact Hs|exact H].
    eapply Forall_impl; [|exact (IH d eq_refl)].
    intros [k a] Hk t1 t2 y t1' Ht Hy. eapply Hk; eauto.
  - intros x IHl IHd k s1 s2 r s1' Hs H. unfold visit_argument in *.
    cbn [snd fst] in *.
    destruct x; try (injection H as <- <-; eexists; split; [reflexivity|exact Hs]).
    + bind_inv H. destruct x as [elements' t1]. injection H as <- <-.
      destruct (mapM_same (visit_element accept) l (IHl l eq_refl) _ _ _ _ Hs Hx)
        as (t2 & -> & Hs1).
      cbn [bind]. eauto.
    + bind_inv H. bind_inv H. destruct x0 as [node' t2]. injection H as <- <-.
      assert (Hd : forall k x s1 s2 v' s1',
                 dict_get k d = Some x ->
                 same_but_store s1 s2 -> accept x s1 = Ok (v', s1') ->
                 exists s2', accept x s2 = Ok (v', s2') /\ same_but_store s1' s2')
        by (intros; eapply IHd; eauto).
      destruct (visit_reference_same d Hd _ _ _ Hs Hx) as (u1 & -> & Hs1).
      cbn [bind].
      destruct (leaveArgument_same d Hd _ _ _ _ Hs1 Hx0) as (u2 & -> & Hs2).
      cbn [bind]. eauto.
  - intros x IHd s1 s2 r s1' Hs H. unfold visit_element in *.
    destruct x; try (injection H as <- <-; eexists; split; [reflexivity|exact Hs]).
    bind_inv H. injection H as <- <-.
    assert (Hd : forall k x s1 s2 v' s1',
               dict_get k d = Some x ->
               same_but_store s1 s2 -> accept x s1 = Ok (v', s1') ->
               exists s2', accept x s2 = Ok (v', s2') /\ same_but_store s1' s2')
      by (intros; eapply IHd; eauto).
    destruct (visit_reference_same d Hd _ _ _ Hs Hx) as (u1 & -> & Hs1).
    cbn [bind].
    eexists. split; [|exact Hs1].
    unfold arrayElementDone. destruct Hs1 as (_ & _ & <-). reflexivity.
Qed.

Lemma mapM_ext_ok {S A B : Type} (f g : A -> S -> outcome (B * S)) l :
  Forall (fun x => forall s y s', f x s = Ok (y, s') -> g x s = Ok (y, s')) l ->
  forall s r, mapM f l s = Ok r -> mapM g l s = Ok r.
Proof.
  induction 1 as [|x l Hx Hl IH]; cbn [mapM]; intros s r H; auto.
  bind_inv H. destruct x0 as [y s1]. bind_inv H. destruct x0 as [ys s2].
  rewrite (Hx _ _ _ Hx0). cbn [bind]. rewrite (IH _ _ Hx1). exact H.
Qed.

(** A deep copy that succeeds is the same with more fuel and in a store that
    has kept its objects. *)
Lemma deepcopy_fuel_stable n h :
  forall v c, deepcopy_fuel n h v = Ok c ->
  forall m h2, n <= m -> preserves h h2 -> deepcopy_fuel m h2 v = Ok c.
Proof.
  induction n as [|n IHn];
    (induction v as [| | | | |a|l IH|d IH] using pyval_ind';
     intros c H m h2 Hm Hp;
     try (rewrite deepcopy_fuel_scalar in * by (intros; discriminate); exact H)).
  - rewrite deepcopy_fuel_list in *. bind_inv H. destruct x as [l' u].
    assert (H2 : mapM (copy_item (deepcopy_fuel m h2)) l tt = Ok (l', u)).
    { eapply mapM_ext_ok; [|exact Hx].
      eapply Forall_impl; [|exact IH]. intros x Hx' s y s' Hy.
      unfold copy_item in *. bind_inv Hy.
      match goal with
      | E : deepcopy_fuel _ _ x = Ok _ |- _ => now rewrite (Hx' _ E m h2 Hm Hp)
      end. }
    rewrite H2. exact H.
  - rewrite deepcopy_fuel_dict in *. bind_inv H. destruct x as [d' u].
    assert (H2 : mapM (copy_entry (deepcopy_fuel m h2)) d tt = Ok (d', u)).
    { eapply mapM_ext_ok; [|exact Hx].
      eapply Forall_impl; [|exact IH]. intros x Hx' s y s' Hy.
      unfold copy_entry in *. bind_inv Hy.
      match goal with
      | E : deepcopy_fuel _ _ (snd x) = Ok _ |- _ => now rewrite (Hx' _ E m h2 Hm Hp)
      end. }
    rewrite H2. exact H.
  - destruct m as [|m]; [lia|]. rewrite deepcopy_fuel_ref in *.
    destruct (heap_get a h) as [o|] eqn:E; [|discriminate].
    destruct Hp as [L G]. rewrite G, E by (eapply heap_get_lt; eauto).
    apply (IHn _ _ H); [lia|split; auto].
  - rewrite deepcopy_fuel_list in *. bind_inv H. destruct x as [l' u].
    assert (H2 : mapM (copy_item (deepcopy_fuel m h2)) l tt = Ok (l', u)).
    { eapply mapM_ext_ok; [|exact Hx].
      eapply Forall_impl; [|exact IH]. intros x Hx' s y s' Hy.
      unfold copy_item in *. bind_inv Hy.
      match goal with
      | E : deepcopy_fuel _ _ x = Ok _ |- _ => now rewrite (Hx' _ E m h2 Hm Hp)
      end. }
    rewrite H2. exact H.
  - rewrite deepcopy_fuel_dict in *. bind_inv H. destruct x as [d' u].
    assert (H2 : mapM (copy_entry (deepcopy_fuel m h2)) d tt = Ok (d', u)).
    { eapply mapM_ext_ok; [|exact Hx].
      eapply Forall_impl; [|exact IH]. intros x Hx' s y s' Hy.
      unfold copy_entry in *. bind_inv Hy.
      match goal with
      | E : deepcopy_fuel _ _ (snd x) = Ok _ |- _ => now rewrite (Hx' _ E m h2 Hm Hp)
      end. }
    rewrite H2. exact H.
Qed.

Lemma deepcopy_stable h h2 v c :
  deepcopy h v = Ok c -> preserves h h2 -> deepcopy h2 v = Ok c.
Proof.
  intros H Hp. eapply deepcopy_fuel_stable; eauto. now destruct Hp.
Qed.

(** [flatten] gives the same flat graph and leaves the key generator in the
    same state whatever else the store holds. *)
Lemma flatten_same_graph self r G ha hb key_gen flat kg' ha' :
  result_node self = Some r ->
  deepcopy ha (PRef r) = Ok G ->
  deepcopy hb (PRef r) = Ok G ->
  flatten self key_gen ha = Ok (flat, kg', ha') ->
  exists hb', flatten self key_gen hb = Ok (flat, kg', hb').
Proof.
  intros Hr Ha Hb. unfold flatten. rewrite Hr, Ha, Hb. cbn [bind].
  apply flatten_copy_same. apply accept_same.
Qed.

Lemma flatten_each_outputs self r G h0 kgs :
  result_node self = Some r ->
  deepcopy h0 (PRef r) = Ok G ->
  forall h flats h',
    preserves h0 h ->
    flatten_each self kgs h = Ok (flats, h') ->
    Forall2 (fun kg flat => exists kg' h1, flatten self kg h0 = Ok (flat, kg', h1))
      kgs flats.
Proof.
  intros Hr H0. induction kgs as [|kg kgs IH]; cbn [flatten_each];
    intros h flats h' Hp H.
  - injection H as <- <-. constructor.
  - bind_inv H. destruct x as [[flat kg'] h1]. bind_inv H.
    destruct x as [flats' h2]. injection H as <- <-. constructor.
    + destruct (flatten_same_graph self r G h h0 kg flat kg' h1 Hr) as [h3 H3]; eauto.
      eapply deepcopy_stable; eauto.
    + eapply IH; [|exact Hx0].
      eapply preserves_trans; [exact Hp|]. eapply flatten_preserves; eauto.
Qed.

(** C6.  Flattening a builder, once or any number of times and with any key
    generators, leaves every object of the store as it was, the builder's root
    among them, and [flatten] assigns nothing to the builder; each of the
    repeated calls returns the flat graph that a call on the untouched store
    returns for the same key generator.  [shallow_copy] likewise leaves the
    store as it was and gives the copy a root of its own, a new object that
    holds a deep copy of the builder's graph, so that assigning to the copy's
    root, or adding a process to the copy, still leaves the objects of the
    original as they were. *)
Theorem flatten_and_copy_leave_builder_unchanged self h :
  (forall kg flat kg' h', flatten self kg h = Ok (flat, kg', h') -> preserves h h')
  /\ (forall kgs flats h',
         flatten_each self kgs h = Ok (flats, h') ->
         preserves h h'
         /\ Forall2 (fun kg flat =>
                       exists kg' h1, flatten self kg h = Ok (flat, kg', h1))
              kgs flats)
  /\ (forall the_copy h', shallow_copy self h = Ok (the_copy, h') ->
      preserves h h'
      /\ result_node the_copy = Some (List.length h)
      /\ (exists r c, result_node self = Some r /\ r < List.length h
                      /\ deepcopy h (PRef r) = Ok c
                      /\ heap_get (List.length h) h' = Some c)
      /\ (forall v, preserves h (heap_set (List.length h) v h'))
      /\ (forall process_id result args id copy' h'',
             add_process the_copy process_id result args h' = Ok (id, copy', h'') ->
             preserves h h'')).
Proof.
  split; [intros; eapply flatten_preserves; eauto|]. split.
  { intros kgs flats h' H. split; [eapply flatten_each_preserves; eauto|].
    destruct kgs as [|kg kgs].
    - cbn in H. injection H as <- <-. constructor.
    - pose proof H as H0. cbn [flatten_each] in H0. bind_inv H0.
      destruct x as [[flat kg'] h1].
      apply flatten_inv in Hx as (r & G & _ & _ & Hr & Hc & _).
      eapply flatten_each_outputs; eauto using preserves_refl. }
  intros the_copy h'. unfold shallow_copy.
  destruct (result_node self) as [r|] eqn:Hr; [|discriminate].
  intros H. bind_inv H. simpl in H. injection H as <- <-.
  assert (P : preserves h (h ++ [x])%list) by apply (preserves_alloc x h).
  split; [exact P|]. split; [reflexivity|]. split; [|split].
  - exists r, x. repeat split; auto.
    + unfold deepcopy in Hx. destruct (List.length h) eqn:L; simpl in Hx; [discriminate|].
      destruct (heap_get r h) eqn:G; [|discriminate].
      apply heap_get_lt in G. lia.
    + apply heap_get_app_new.
  - intros v. apply preserves_set; auto.
  - intros process_id result args id copy' h'' Hadd.
    apply add_process_preserves in Hadd as [P' _].
    eapply preserves_trans; eauto.
Qed.

Lemma flatten_and_copy_leave_builder_unchanged_witness :
  let graph :=
    PDict [("process_id", PStr "filter_bands");
           ("arguments",
            PDict [("data", PDict [("from_node", PRef 0)]);
                   ("bands", PList [PStr "B02"])])] in
  let h := [PDict [("process_id", PStr "load_collection");
                   ("arguments", PDict [("id", PStr "S2")])]; graph] in
  let self := {| result_node := Some 1 |} in
  match flatten_each self [None; None] h with
  | Ok (flats, h') =>
      preserves h h'
      /\ Forall2 (fun kg flat => exists kg' h1, flatten self kg h = Ok (flat, kg', h1))
           [None; None] flats
      /\ heap_get 1 h' = Some graph
  | Raise _ => False
  end.
Proof.
  intros graph h self.
  pose proof (proj1 (proj2 (flatten_and_copy_leave_builder_unchanged self h))
                [None; None]) as T.
  destruct (flatten_each self [None; None] h) as [[flats h']|e] eqn:E.
  - destruct (T flats h' eq_refl) as [P F]. split; [exact P|]. split; [exact F|].
    vm_compute in E. injection E as <- <-. reflexivity.
  - vm_compute in E. discriminate.
Defined.

(** ** Combining single-node graphs whose keys do not collide *)

Lemma visit_plain_elements l st :
  forallb (fun e => match e with PDict _ => false | _ => true end) l = true ->
  mapM (visit_element accept) l st = Ok (l, st).
Proof.
  induction l as [|e l IH]; cbn [mapM forallb]; intros H; [reflexivity|].
  apply andb_true_iff in H as [He Hl].
  destruct e; try discriminate; cbn [visit_element bind]; now rewrite (IH Hl).
Qed.

Lemma visit_plain_argument k x st :
  plain_value x = true -> visit_argument accept (k, x) st = Ok ((k, x), st).
Proof.
  unfold plain_value, visit_argument. intros H.
  apply andb_true_iff in H as [_ H]. cbn [snd fst].
  destruct x; try discriminate; try reflexivity.
  now rewrite (visit_plain_elements _ _ H).
Qed.

Lemma visit_plain_arguments args st :
  forallb (fun kv => plain_value (snd kv)) args = true ->
  mapM (visit_argument accept) args st = Ok (args, st).
Proof.
  induction args as [|[k x] args IH]; cbn [mapM forallb snd]; intros H;
    [reflexivity|].
  apply andb_true_iff in H as [Hx Hl].
  rewrite (visit_plain_argument _ _ _ Hx). cbn [bind]. now rewrite (IH Hl).
Qed.

Lemma accept_single_node p args st :
  forallb (fun kv => plain_value (snd kv)) args = true ->
  accept (node_of p args) st
  = Ok (node_of p args,
        {| key_generator := snd (generate p (key_generator st));
           flat_graph := dict_set (fst (generate p (key_generator st)))
                           (node_of p args) (flat_graph st);
           last_node_id := PStr (fst (generate p (key_generator st)));
           store := store st |}).
Proof.
  intros H. unfold node_of. rewrite accept_unfold, visit_process_lookup.
  cbn [dict_get String.eqb Ascii.eqb Bool.eqb]. cbn [visit_arguments].
  rewrite (visit_plain_arguments _ _ H). cbn [bind leaveProcess].
  destruct (generate p (key_generator st)) as [k kg]. reflexivity.
Qed.

Lemma plain_arguments_ref_free p args :
  forallb (fun kv => plain_value (snd kv)) args = true ->
  ref_free (node_of p args) = true.
Proof.
  intros H. unfold node_of. cbn. rewrite andb_true_r.
  apply forallb_forall. intros kv Hin. rewrite forallb_forall in H.
  specialize (H kv Hin). unfold plain_value in H.
  now apply andb_true_iff in H as [Hr _].
Qed.

(** What does hold of [combine]: when the three keys drawn for the two
    single-node graphs and for the operator are pairwise distinct, the flat map
    has exactly the three entries of the claim, the operator's entry marked
    as the result. *)
Lemma combine_three_entries h a b pa argsA pb argsB op arg_name kA kB kS :
  heap_get a h = Some (node_of pa argsA) ->
  heap_get b h = Some (node_of pb argsB) ->
  forallb (fun kv => plain_value (snd kv)) argsA = true ->
  forallb (fun kv => plain_value (snd kv)) argsB = true ->
  bound_parameter arg_name = false ->
  arg_name <> "from_node" ->
  fst (generate_all [pa; pb; op] FlatGraphKeyGenerator_init) = [kA; kB; kS] ->
  NoDup [kA; kB; kS] ->
  exists merged h1 kg' h2,
    combine (PStr op) {| result_node := Some a |} {| result_node := Some b |}
      arg_name h = Ok (merged, h1)
    /\ flatten merged None h1
       = Ok ([(kA, node_of pa argsA); (kB, node_of pb argsB);
              (kS,
               PDict [("process_id", PStr op);
                      ("arguments",
                       PDict [(arg_name,
                               PList [PDict [("from_node", PStr kA)];
                                      PDict [("from_node", PStr kB)]])]);
                      ("result", PBool true)])], kg', h2).
Proof.
  intros Ha Hb HA HB Hbound Hname Hkeys Hnd.
  assert (Hfrom : String.eqb "from_node" arg_name = false).
  { apply String.eqb_neq. congruence. }
  set (root := PDict [("process_id", PStr op);
                      ("arguments",
                       PDict [(arg_name, PList [PDict [("from_node", PRef a)];
                                                PDict [("from_node", PRef b)]])]);
                      ("result", PBool true)]).
  assert (Hcombine :
            combine (PStr op) {| result_node := Some a |} {| result_node := Some b |}
              arg_name h
            = Ok ({| result_node := Some (List.length h) |}, (h ++ [root])%list)).
  { unfold combine. cbn [result_node]. rewrite Hbound.
    unfold add_process, process, dict_has. cbn [dict_get]. rewrite Hfrom.
    cbn [bind alloc result_node]. unfold set_result.
    rewrite heap_get_app_new. cbn [bind dict_set String.eqb Ascii.eqb Bool.eqb].
    f_equal. f_equal. clear. induction h as [|y h IH]; simpl; [reflexivity|].
    now rewrite IH. }
  set (G := PDict [("process_id", PStr op);
                   ("arguments",
                    PDict [(arg_name, PList [PDict [("from_node", node_of pa argsA)];
                                             PDict [("from_node", node_of pb argsB)]])]);
                   ("result", PBool true)]).
  assert (Hcopy : deepcopy (h ++ [root])%list (PRef (List.length h)) = Ok G).
  { unfold deepcopy. rewrite length_app. cbn [List.length]. rewrite Nat.add_1_r.
    rewrite deepcopy_fuel_ref, heap_get_app_new.
    pose proof (heap_get_lt _ _ _ Ha) as La.
    destruct (List.length h) as [|n] eqn:L; [lia|].
    assert (HrefA : deepcopy_fuel (S n) (h ++ [root])%list (PRef a)
                    = Ok (node_of pa argsA)).
    { rewrite deepcopy_fuel_ref, heap_get_app_old, Ha by lia.
      apply deepcopy_fuel_ref_free. now apply plain_arguments_ref_free. }
    assert (HrefB : deepcopy_fuel (S n) (h ++ [root])%list (PRef b)
                    = Ok (node_of pb argsB)).
    { pose proof (heap_get_lt _ _ _ Hb) as Lb.
      rewrite deepcopy_fuel_ref, heap_get_app_old, Hb by lia.
      apply deepcopy_fuel_ref_free. now apply plain_arguments_ref_free. }
    set (h1 := (h ++ [root])%list) in *. unfold root.
    rewrite deepcopy_fuel_dict. unfold copy_entry. cbn [mapM snd fst].
    rewrite (deepcopy_fuel_scalar _ _ (PStr op)) by (intros; discriminate).
    cbn [bind]. rewrite deepcopy_fuel_dict. unfold copy_entry. cbn [mapM snd fst].
    rewrite deepcopy_fuel_list. unfold copy_item. cbn [mapM].
    rewrite !deepcopy_fuel_dict. unfold copy_entry. cbn [mapM snd fst].
    rewrite HrefA, HrefB. cbn [bind].
    rewrite (deepcopy_fuel_scalar _ _ (PBool true)) by (intros; discriminate).
    reflexivity. }
  exists {| result_node := Some (List.length h) |}, (h ++ [root])%list.
  cbn [generate_all] in Hkeys.
  destruct (generate pa FlatGraphKeyGenerator_init) as [kA' kg1] eqn:GA.
  destruct (generate pb kg1) as [kB' kg2] eqn:GB.
  destruct (generate op kg2) as [kS' kg3] eqn:GS.
  cbn [fst] in Hkeys. injection Hkeys as -> -> ->.
  inversion Hnd as [|? ? HnA Hnd1]; subst.
  inversion Hnd1 as [|? ? HnB _]; subst.
  assert (EBA : String.eqb kB kA = false).
  { apply String.eqb_neq. intros ->. apply HnA. now left. }
  assert (ESA : String.eqb kS kA = false).
  { apply String.eqb_neq. intros ->. apply HnA. right. now left. }
  assert (ESB : String.eqb kS kB = false).
  { apply String.eqb_neq. intros ->. apply HnB. now left. }
  do 2 eexists. split; [exact Hcombine|].
  unfold flatten. cbn [result_node]. rewrite Hcopy. cbn [bind].
  unfold flatten_copy. cbn [alloc]. unfold G at 1.
  rewrite accept_unfold, visit_process_lookup.
  cbn [dict_get String.eqb Ascii.eqb Bool.eqb]. cbn [visit_arguments mapM].
  unfold visit_argument at 1. cbn [snd fst mapM].
  unfold visit_element at 1. rewrite visit_reference_lookup. cbn [dict_get String.eqb Ascii.eqb Bool.eqb].
  rewrite (accept_single_node _ _ _ HA). cbn [bind key_generator flat_graph last_node_id store].
  rewrite GA. cbn [fst snd].
  unfold visit_element at 1. rewrite visit_reference_lookup. cbn [dict_get String.eqb Ascii.eqb Bool.eqb].
  rewrite (accept_single_node _ _ _ HB). cbn [bind key_generator flat_graph last_node_id store].
  rewrite GB. cbn [fst snd bind].
  unfold arrayElementDone, dict_has. cbn [dict_get String.eqb Ascii.eqb Bool.eqb dict_set last_node_id].
  cbn [leaveProcess key_generator]. rewrite GS.
  cbn [bind flat_graph last_node_id dict_set]. rewrite EBA.
  cbn [dict_set]. rewrite ESA, ESB.
  unfold mark_result. cbn [dict_get]. rewrite ESA, ESB, String.eqb_refl.
  cbn [dict_set String.eqb Ascii.eqb Bool.eqb]. rewrite ESA, ESB, String.eqb_refl.
  reflexivity.
Qed.

(** * Further properties *)

(** ** Helpers of openeo/util.py *)

Module HelperFacts.
Import Util.

Lemma deep_loop_reaches all dat ks v :
  deep_loop all None dat ks = inl v <-> reaches dat ks v.
Proof.
  split; [|apply UtilFacts.deep_loop_found].
  intros H. destruct (UtilFacts.reaches_or_absent dat ks) as [[w Hw] | Habs].
  - rewrite (UtilFacts.deep_loop_found all None _ _ _ Hw) in H. now injection H as <-.
  - destruct (UtilFacts.deep_loop_missing all _ _ Habs) as [(k & _ & Hk) _]. congruence.
Qed.

Lemma reaches_app dat ks1 ks2 v :
  reaches dat (ks1 ++ ks2)%list v
  <-> exists m, reaches dat ks1 m /\ reaches m ks2 v.
Proof.
  revert dat. induction ks1 as [|k ks1 IH]; intros dat; simpl.
  - split.
    + intros H. exists dat. split; [constructor | exact H].
    + intros (m & Hm & H). inversion Hm; subst. exact H.
  - split.
    + intros H. inversion H; subst.
      apply IH in H5 as (m & Hm & Hv). exists m. split; [econstructor; eauto | exact Hv].
    + intros (m & Hm & Hv). inversion Hm; subst.
      econstructor; [eauto|]. apply IH. eauto.
Qed.

(** X1.  Following a path in two legs: [deep_get] without a default returns
    a value for the keys [ks1] followed by [ks2] exactly when it returns a
    value [m] for [ks1] and returns that value from [m] for [ks2]. *)
Theorem deep_get_composes dat ks1 ks2 v :
  deep_get dat (ks1 ++ ks2)%list None = inl v
  <-> exists m, deep_get dat ks1 None = inl m /\ deep_get m ks2 None = inl v.
Proof.
  unfold deep_get. split.
  - intros H. apply deep_loop_reaches, reaches_app in H as (m & H1 & H2).
    exists m. split; now apply deep_loop_reaches.
  - intros (m & H1 & H2). apply deep_loop_reaches, reaches_app.
    exists m. split; eapply deep_loop_reaches; eauto.
Qed.

Lemma deep_loop_first_missing all dat ks k ks' :
  deep_loop all None dat ks = inr (DeepKeyError k ks') ->
  ks' = all
  /\ exists pre post m,
      ks = (pre ++ k :: post)%list /\ reaches dat pre m /\ deep_step m k = None.
Proof.
  revert dat. induction ks as [|k0 ks IH]; intros dat; simpl; [discriminate|].
  destruct (deep_step dat k0) as [dat'|] eqn:E.
  - intros H. destruct (IH _ H) as (-> & pre & post & m & -> & Hm & Hk).
    split; [reflexivity|]. exists (k0 :: pre), post, m.
    split; [reflexivity|]. split; [|exact Hk].
    econstructor; [|exact Hm]. now apply UtilFacts.deep_step_present.
  - intros H. injection H as <- <-. split; [reflexivity|].
    exists [], ks, dat. repeat split; [constructor | exact E].
Qed.

(** X2.  The key that a [DeepKeyError] carries is the first key of the path
    that cannot be followed: the keys before it lead to a value, that value
    has no such key or index, and the error carries the whole path.  With a
    default, the same call returns the default. *)
Theorem deep_get_reports_first_missing dat ks k ks' :
  deep_get dat ks None = inr (DeepKeyError k ks') ->
  ks' = ks
  /\ (exists pre post m,
        ks = (pre ++ k :: post)%list
        /\ deep_get dat pre None = inl m
        /\ deep_step m k = None)
  /\ forall d, deep_get dat ks (Some d) = inl d.
Proof.
  unfold deep_get. intros H.
  destruct (deep_loop_first_missing _ _ _ _ _ H) as (-> & pre & post & m & E & Hm & Hk).
  split; [reflexivity|]. split.
  - exists pre, post, m. split; [exact E|]. split; [|exact Hk].
    now apply deep_loop_reaches.
  - intros d. apply UtilFacts.deep_loop_missing.
    intros v Hv. apply (UtilFacts.deep_loop_found ks None) in Hv. congruence.
Qed.

Lemma deep_get_reports_first_missing_witness :
  let dat := Dict [(KStr "a", List [Atom (AInt 1)])] in
  let ks := [KStr "a"; KInt 3; KStr "b"] in
  ks = ks
  /\ (exists pre post m,
        ks = (pre ++ KInt 3 :: post)%list
        /\ deep_get dat pre None = inl m
        /\ deep_step m (KInt 3) = None)
  /\ forall d, deep_get dat ks (Some d) = inl d.
Proof.
  exact (deep_get_reports_first_missing
           (Dict [(KStr "a", List [Atom (AInt 1)])])
           [KStr "a"; KInt 3; KStr "b"] (KInt 3) _ eq_refl).
Defined.

(** X3.  [first_not_none] returns the first argument that is not [None],
    whatever its truth value, and raises [ValueError] exactly when every
    argument is [None], in particular when there is none. *)
Theorem first_not_none_finds_first args :
  (forall v, first_not_none args = inl v
             <-> exists pre post,
                 args = (pre ++ v :: post)%list
                 /\ forallb is_none pre = true /\ is_none v = false)
  /\ (forall e, first_not_none args = inr e
                <-> e = ValueError /\ forallb is_none args = true).
Proof.
  induction args as [|item rest [IHv IHe]]; simpl.
  - split.
    + intros v. split; [discriminate|].
      intros (pre & post & E & _). now destruct pre.
    + intros e. split; [intros H; injection H as <-; auto | intros [-> _]; reflexivity].
  - destruct (is_none item) eqn:N; simpl.
    + split.
      * intros v. rewrite IHv. split.
        -- intros (pre & post & -> & Hp & Hv). exists (item :: pre), post.
           simpl. rewrite N. auto.
        -- intros (pre & post & E & Hp & Hv). destruct pre as [|x pre].
           ++ simpl in E. injection E as -> _. congruence.
           ++ simpl in E, Hp. injection E as -> ->.
              apply andb_true_iff in Hp as [_ Hp]. eauto.
      * intros e. apply IHe.
    + split.
      * intros v. split.
        -- intros H. injection H as <-. exists [], rest. auto.
        -- intros (pre & post & E & Hp & Hv). destruct pre as [|x pre].
           ++ simpl in E. now injection E as -> _.
           ++ simpl in E, Hp. injection E as -> _. rewrite N in Hp. discriminate.
      * intros e. split; [discriminate | intros [_ H]; discriminate].
Qed.

Lemma dict_no_none_keys kwargs k :
  In k (keys (dict_no_none kwargs)) -> In k (keys kwargs).
Proof.
  unfold keys, dict_no_none. rewrite !in_map_iff.
  intros (kv & E & H). apply filter_In in H as [H _]. eauto.
Qed.

(** X4.  [dict_no_none] keeps the keyword arguments whose value is not
    [None], in the order given: looking a name up in the result gives the
    value passed unless that value is [None], no value of the result is
    [None], and a value that is false without being [None] is kept. *)
Theorem dict_no_none_lookup kwargs k :
  NoDup (keys kwargs) ->
  dict_get k (dict_no_none kwargs)
  = match dict_get k kwargs with
    | Some v => if is_none v then None else Some v
    | None => None
    end
  /\ forallb (fun kv => negb (is_none (snd kv))) (dict_no_none kwargs) = true
  /\ NoDup (keys (dict_no_none kwargs)).
Proof.
  intros Hnd. split; [|split].
  - induction kwargs as [|[k' v] kwargs IH]; [reflexivity|].
    inversion Hnd as [|? ? Hk Hnd']; subst. specialize (IH Hnd').
    cbn [dict_no_none filter snd dict_get]. fold (dict_no_none kwargs).
    destruct (String.eqb k k') eqn:E.
    + apply String.eqb_eq in E as ->.
      destruct (is_none v) eqn:N; cbn [negb dict_get].
      * apply dict_get_not_in_keys. intros H. apply Hk.
        now apply dict_no_none_keys.
      * now rewrite String.eqb_refl.
    + destruct (is_none v); cbn [negb dict_get]; [exact IH|].
      now rewrite E.
  - apply forallb_forall. intros kv H. unfold dict_no_none in H.
    now apply filter_In in H as [_ H].
  - induction kwargs as [|[k' v] kwargs IH]; [constructor|].
    inversion Hnd as [|? ? Hk Hnd']; subst. specialize (IH Hnd').
    cbn [dict_no_none filter snd]. fold (dict_no_none kwargs).
    destruct (is_none v); cbn [negb]; [exact IH|].
    cbn [keys map fst]. constructor; [|exact IH].
    intros H. apply Hk. now apply dict_no_none_keys.
Qed.

Lemma dict_no_none_lookup_witness :
  let kwargs := [("a", Atom (AInt 0)); ("b", Atom ANone); ("c", Atom (AStr ""))] in
  dict_get "b" (dict_no_none kwargs)
  = match dict_get "b" kwargs with
    | Some v => if is_none v then None else Some v
    | None => None
    end
  /\ forallb (fun kv => negb (is_none (snd kv))) (dict_no_none kwargs) = true
  /\ NoDup (keys (dict_no_none kwargs)).
Proof.
  refine (dict_no_none_lookup
            [("a", Atom (AInt 0)); ("b", Atom ANone); ("c", Atom (AStr ""))] "b" _).
  cbn. repeat constructor; cbn; intuition discriminate.
Defined.

Lemma characters_length s : List.length (characters s) = String.length s.
Proof. induction s as [|c s IH]; simpl; congruence. Qed.

Lemma characters_join s : join (characters s) = s.
Proof. induction s as [|c s IH]; simpl; congruence. Qed.

(** X5.  [ensure_list] always gives a list and leaves a list as it is, so
    applying it twice is applying it once.  A string is not wrapped: it is
    split into its characters, as many elements as the string is long, which
    concatenate to the string; the empty string gives the empty list.  [None]
    and numbers are wrapped into a list of one element. *)
Theorem ensure_list_splits_strings :
  (forall x, exists l, ensure_list x = List l /\ ensure_list (List l) = List l)
  /\ (forall s, exists l,
         ensure_list (Atom (AStr s)) = List l
         /\ List.length l = String.length s /\ join l = s)
  /\ (forall a, (forall s, a <> AStr s) -> ensure_list (Atom a) = List [Atom a]).
Proof.
  split; [|split].
  - intros x. unfold ensure_list. destruct (list_of x) as [l|e]; eauto.
  - intros s. exists (characters s). split; [reflexivity|].
    split; [apply characters_length | apply characters_join].
  - intros a Ha. destruct a; try reflexivity. now destruct (Ha s).
Qed.

(** *** Dates *)

Lemma digits_app n s r t : digits n s = Some r -> digits n (s ++ t) = Some (r ++ t).
Proof.
  revert s. induction n as [|n IH]; intros s; simpl.
  - now intros [= ->].
  - destruct s as [|c s]; [discriminate|]. simpl.
    destruct (is_digit c); [apply IH | discriminate].
Qed.

Lemma hyphen_app s r t : hyphen s = Some r -> hyphen (s ++ t) = Some (r ++ t).
Proof.
  destruct s as [|c s]; cbn [append hyphen]; [discriminate|].
  destruct (Ascii.eqb c "-"); [now intros [= ->] | discriminate].
Qed.

Lemma digits_length n s r : digits n s = Some r -> String.length s = n + String.length r.
Proof.
  revert s. induction n as [|n IH]; intros s; simpl.
  - now intros [= ->].
  - destruct s as [|c s]; [discriminate|]. simpl.
    destruct (is_digit c); [|discriminate]. intros H. now rewrite (IH _ H).
Qed.

Lemma hyphen_length s r : hyphen s = Some r -> String.length s = S (String.length r).
Proof.
  destruct s as [|c s]; cbn [hyphen String.length]; [discriminate|].
  destruct (Ascii.eqb c "-"); [now intros [= ->] | discriminate].
Qed.

Lemma date_format_inv s :
  _rfc3339_date_format s = true ->
  exists s1 s2 s3 s4 s5,
    digits 4 s = Some s1 /\ hyphen s1 = Some s2 /\ digits 2 s2 = Some s3
    /\ hyphen s3 = Some s4 /\ digits 2 s4 = Some s5.
Proof.
  unfold _rfc3339_date_format, then_.
  destruct (digits 4 s) as [s1|] eqn:E1; [|discriminate].
  destruct (hyphen s1) as [s2|] eqn:E2; [|discriminate].
  destruct (digits 2 s2) as [s3|] eqn:E3; [|discriminate].
  destruct (hyphen s3) as [s4|] eqn:E4; [|discriminate].
  destruct (digits 2 s4) as [s5|] eqn:E5; [|discriminate].
  intros _. exists s1, s2, s3, s4, s5. auto.
Qed.

Lemma date_format_app s t :
  _rfc3339_date_format s = true -> _rfc3339_date_format (s ++ t) = true.
Proof.
  intros H. apply date_format_inv in H as (s1 & s2 & s3 & s4 & s5 & H1 & H2 & H3 & H4 & H5).
  unfold _rfc3339_date_format, then_.
  rewrite (digits_app _ _ _ t H1), (hyphen_app _ _ t H2), (digits_app _ _ _ t H3),
    (hyphen_app _ _ t H4), (digits_app _ _ _ t H5). reflexivity.
Qed.

(** X6.  A string that [date_to_rfc3339] accepts is returned as it is.  The
    pattern is matched at the start of the string only: the string has at
    least ten characters, and it is still accepted with anything appended to
    it.  Month and day are not checked against the calendar. *)
Theorem date_to_rfc3339_keeps_strings s r :
  date_to_rfc3339 (VStr s) = inl r ->
  r = VStr s
  /\ 10 <= String.length s
  /\ forall t, date_to_rfc3339 (VStr (s ++ t)) = inl (VStr (s ++ t)).
Proof.
  unfold date_to_rfc3339. destruct (_rfc3339_date_format s) eqn:F; [|discriminate].
  intros [= <-]. split; [reflexivity|]. split.
  - apply date_format_inv in F as (s1 & s2 & s3 & s4 & s5 & H1 & H2 & H3 & H4 & H5).
    apply digits_length in H1, H3, H5. apply hyphen_length in H2, H4. lia.
  - intros t. now rewrite (date_format_app _ t F).
Qed.

Lemma date_to_rfc3339_keeps_strings_witness :
  VStr "2019-99-99" = VStr "2019-99-99"
  /\ 10 <= String.length "2019-99-99"
  /\ forall t, date_to_rfc3339 (VStr ("2019-99-99" ++ t)) = inl (VStr ("2019-99-99" ++ t)).
Proof. exact (date_to_rfc3339_keeps_strings "2019-99-99" _ eq_refl). Defined.

Lemma digits_all s r : all_digits s = true -> digits (String.length s) (s ++ r) = Some r.
Proof.
  induction s as [|c s IH]; simpl; [reflexivity|].
  intros H. apply andb_true_iff in H as [-> H]. auto.
Qed.

Lemma in_N_range y n : forall a, (a <= y < a + N.of_nat n)%N -> In y (N_range a n).
Proof.
  induction n as [|n IH]; intros a H; [lia|].
  cbn [N_range]. destruct (N.eq_dec a y) as [->|Hne]; [now left|].
  right. apply IH. lia.
Qed.

Lemma year_four_digits y :
  (1000 <= y <= 9999)%N ->
  all_digits (str_of_N y) = true /\ String.length (str_of_N y) = 4.
Proof.
  intros Hy.
  assert (H : forallb (fun y => all_digits (str_of_N y)
                                && (String.length (str_of_N y) =? 4)%nat)
                (N_range 1000 (9 * 1000)) = true) by (vm_compute; reflexivity).
  rewrite forallb_forall in H. specialize (H y).
  apply andb_true_iff in H as [H1 H2]; [|apply in_N_range; lia].
  now apply Nat.eqb_eq in H2.
Qed.

Lemma two_digits_two n :
  (n < 100)%N -> all_digits (two_digits n) = true /\ String.length (two_digits n) = 2.
Proof.
  intros Hn.
  assert (H : forallb (fun n => all_digits (two_digits n)
                                && (String.length (two_digits n) =? 2)%nat)
                (N_range 0 100) = true) by (vm_compute; reflexivity).
  rewrite forallb_forall in H. specialize (H n).
  apply andb_true_iff in H as [H1 H2]; [|apply in_N_range; lia].
  now apply Nat.eqb_eq in H2.
Qed.

Lemma append_assoc (a b c : string) : (a ++ b) ++ c = a ++ b ++ c.
Proof. induction a as [|x a IH]; simpl; congruence. Qed.

Lemma strftime_date_format d rest :
  valid_date d = true -> _rfc3339_date_format (strftime_date d ++ rest) = true.
Proof.
  unfold valid_date. intros H.
  repeat (apply andb_true_iff in H as [H ?]).
  apply N.leb_le in H.
  repeat match goal with
         | E : (_ <=? _)%N = true |- _ => apply N.leb_le in E
         end.
  destruct (year_four_digits (year d)) as [Y1 Y2]; [lia|].
  destruct (two_digits_two (month d)) as [M1 M2]; [lia|].
  destruct (two_digits_two (day d)) as [D1 D2]; [lia|].
  unfold strftime_date, _rfc3339_date_format, then_.
  rewrite !append_assoc.
  pose proof (fun r => digits_all _ r Y1) as EY. rewrite Y2 in EY.
  pose proof (fun r => digits_all _ r M1) as EM. rewrite M2 in EM.
  pose proof (fun r => digits_all _ r D1) as ED. rewrite D2 in ED.
  rewrite EY. cbn [append hyphen Ascii.eqb Bool.eqb].
  rewrite EM. cbn [append hyphen Ascii.eqb Bool.eqb].
  rewrite ED. reflexivity.
Qed.

Lemma date_to_rfc3339_dated x r :
  well_formed x = true ->
  date_to_rfc3339 x = inl r ->
  dated r = true /\ date_to_rfc3339 r = inl r.
Proof.
  destruct x as [| | |s|d|t|l|l]; simpl; try discriminate; intros Hw.
  - destruct (_rfc3339_date_format s) eqn:F; [|discriminate].
    intros [= <-]. simpl. now rewrite F.
  - intros [= <-]. simpl.
    pose proof (strftime_date_format d "" Hw) as F.
    assert (E : strftime_date d ++ "" = strftime_date d).
    { generalize (strftime_date d). induction s as [|c s IH]; simpl; congruence. }
    rewrite E in F. now rewrite F.
  - destruct (tzinfo t); [discriminate|]. intros [= <-]. simpl.
    unfold strftime_datetime. now rewrite (strftime_date_format (on t) _ Hw).
Qed.

(** X7.  What [date_to_rfc3339] returns, it accepts and returns unchanged:
    for a string, a date or a naive datetime (dates as [datetime.date] admits
    them, from the year 1000 on) the result is a string that starts with
    four digits, a hyphen, two digits, a hyphen and two digits, and converting
    the result again gives the result. *)
Theorem date_to_rfc3339_idempotent x r :
  well_formed x = true ->
  date_to_rfc3339 x = inl r ->
  (exists s, r = VStr s /\ _rfc3339_date_format s = true)
  /\ date_to_rfc3339 r = inl r.
Proof.
  intros Hw H. destruct (date_to_rfc3339_dated _ _ Hw H) as [Hd Hr].
  split; [|exact Hr].
  destruct x as [| | |s|d|t|l|l]; simpl in H; try discriminate.
  - destruct (_rfc3339_date_format s); [|discriminate]. injection H as <-. eauto.
  - injection H as <-. eauto.
  - destruct (tzinfo t); [discriminate|]. injection H as <-. eauto.
Qed.

Lemma date_to_rfc3339_idempotent_witness :
  let t := {| on := {| year := 2019; month := 5; day := 15 |};
              hour := 7; minute := 30; second := 0; tzinfo := None |} in
  (exists s, VStr "2019-05-15T07:30:00Z" = VStr s /\ _rfc3339_date_format s = true)
  /\ date_to_rfc3339 (VStr "2019-05-15T07:30:00Z") = inl (VStr "2019-05-15T07:30:00Z").
Proof.
  exact (date_to_rfc3339_idempotent
           (VDateTime {| on := {| year := 2019; month := 5; day := 15 |};
                         hour := 7; minute := 30; second := 0; tzinfo := None |})
           (VStr "2019-05-15T07:30:00Z") eq_refl eq_refl).
Defined.

(** *** Temporal extents *)

(** X8.  The call forms of [get_temporal_extent] agree: two positional
    arguments, one positional list or tuple of two, the keywords
    [start_date] and [end_date], and the keyword [extent] with a list or tuple
    of two all give the same result, for every convertor and whatever the two
    values are. *)
Theorem get_temporal_extent_call_forms a b convertor :
  let r := get_temporal_extent [a; b] VNone VNone VNone convertor in
  get_temporal_extent [VList [a; b]] VNone VNone VNone convertor = r
  /\ get_temporal_extent [VTuple [a; b]] VNone VNone VNone convertor = r
  /\ get_temporal_extent [] a b VNone convertor = r
  /\ get_temporal_extent [] VNone VNone (VList [a; b]) convertor = r
  /\ get_temporal_extent [] VNone VNone (VTuple [a; b]) convertor = r.
Proof. repeat split; reflexivity. Qed.

(** X9.  What [get_temporal_extent] refuses and what it lets pass.
    Positional arguments next to a keyword that is not [None] fail the
    assertion; three or more positional arguments raise [ValueError]; a
    positional list or tuple that does not have two elements raises
    [ValueError]; an [extent] next to [start_date] or [end_date] fails the
    assertion, but only an [extent] that is true: a false one (an empty list,
    say) is ignored and the call is answered from the other keywords.  The
    convertor is not called on a false value: its place in the result is
    [None]. *)
Theorem get_temporal_extent_rejects args start_date end_date extent convertor :
  (args <> [] ->
   is_None start_date && is_None end_date && is_None extent = false ->
   get_temporal_extent args start_date end_date extent convertor
   = inr AssertionError)
  /\ (3 <= List.length args ->
      is_None start_date && is_None end_date && is_None extent = true ->
      get_temporal_extent args start_date end_date extent convertor
      = inr ValueError)
  /\ (forall l,
         List.length l <> 2 ->
         get_temporal_extent [VList l] VNone VNone VNone convertor = inr ValueError
         /\ get_temporal_extent [VTuple l] VNone VNone VNone convertor
            = inr ValueError)
  /\ (truth extent = true ->
      is_None start_date && is_None end_date = false ->
      get_temporal_extent [] start_date end_date extent convertor
      = inr AssertionError)
  /\ (truth extent = false ->
      get_temporal_extent [] start_date end_date extent convertor
      = get_temporal_extent [] start_date end_date VNone convertor)
  /\ (truth start_date = false -> truth end_date = false ->
      get_temporal_extent [] start_date end_date VNone convertor
      = inl (VNone, VNone)).
Proof.
  unfold get_temporal_extent. repeat split.
  - intros Ha Hk. destruct args; [congruence|]. now rewrite Hk.
  - intros Hl Hk. destruct args as [|a [|b [|c args]]]; simpl in Hl; try lia.
    now rewrite Hk.
  - destruct l as [|a [|b [|c l]]]; simpl in *; congruence.
  - destruct l as [|a [|b [|c l]]]; simpl in *; congruence.
  - intros Ht Hk. now rewrite Ht, Hk.
  - intros Ht. now rewrite Ht.
  - intros Hs He. cbn [truth]. unfold convert_if. now rewrite Hs, He.
Qed.

Lemma unpack_pair_well_formed x a b :
  well_formed x = true -> unpack_pair x = inl (a, b) ->
  well_formed a = true /\ well_formed b = true.
Proof.
  destruct x as [| | |s|d|t|l|l]; simpl; try discriminate.
  - intros _. destruct s as [|c [|c' [|c'' s]]]; try discriminate.
    intros [= <- <-]. auto.
  - destruct l as [|x [|y [|z l]]]; try discriminate.
    simpl. intros H [= <- <-]. apply andb_true_iff in H as [Hx H].
    apply andb_true_iff in H as [Hy _]. auto.
  - destruct l as [|x [|y [|z l]]]; try discriminate.
    simpl. intros H [= <- <-]. apply andb_true_iff in H as [Hx H].
    apply andb_true_iff in H as [Hy _]. auto.
Qed.

Lemma convert_if_dated x r :
  well_formed x = true -> convert_if date_to_rfc3339 x = inl r -> dated r = true.
Proof.
  unfold convert_if. intros Hw. destruct (truth x).
  - intros H. now apply (date_to_rfc3339_dated _ _ Hw) in H.
  - now intros [= <-].
Qed.

(** X10.  With the default convertor, [get_temporal_extent] returns a pair
    each of whose parts is [None] or a string that starts with a date, in
    every call form and for strings, dates and naive datetimes alike (dates as
    [datetime.date] admits them, from the year 1000 on). *)
Theorem get_temporal_extent_gives_dates args start_date end_date extent r1 r2 :
  forallb well_formed (args ++ [start_date; end_date; extent])%list = true ->
  get_temporal_extent args start_date end_date extent date_to_rfc3339
  = inl (r1, r2) ->
  dated r1 = true /\ dated r2 = true.
Proof.
  intros Hw. rewrite forallb_app in Hw. apply andb_true_iff in Hw as [Ha Hk].
  cbn [forallb] in Hk. apply andb_true_iff in Hk as [Hs Hk].
  apply andb_true_iff in Hk as [He Hk]. apply andb_true_iff in Hk as [Hx _].
  unfold get_temporal_extent.
  set (dates := match args with
                | [] => _
                | _ :: _ => _
                end).
  assert (Hd : forall a b, dates = inl (a, b) ->
                           well_formed a = true /\ well_formed b = true).
  { subst dates. intros a b. destruct args as [|x args].
    - destruct (truth extent).
      + destruct (is_None start_date && is_None end_date); [|discriminate].
        now apply unpack_pair_well_formed.
      + now intros [= <- <-].
    - destruct (is_None start_date && is_None end_date && is_None extent);
        [|discriminate].
      cbn [forallb] in Ha. apply andb_true_iff in Ha as [Hx0 Ha].
      destruct args as [|y [|z args]]; [| |discriminate].
      + destruct x; try (intros [= <- <-]; auto);
          now apply unpack_pair_well_formed.
      + cbn [forallb] in Ha. apply andb_true_iff in Ha as [Hy _].
        now intros [= <- <-]. }
  destruct dates as [[a b]|e]; [|discriminate].
  destruct (Hd a b eq_refl) as [Hwa Hwb].
  destruct (convert_if date_to_rfc3339 a) as [s|] eqn:Ea; [|discriminate].
  destruct (convert_if date_to_rfc3339 b) as [e|] eqn:Eb; [|discriminate].
  intros [= <- <-].
  split; [exact (convert_if_dated _ _ Hwa Ea) | exact (convert_if_dated _ _ Hwb Eb)].
Qed.

Lemma get_temporal_extent_gives_dates_witness :
  dated (VStr "2019-01-01") = true /\ dated (VStr "2019-05-15") = true.
Proof.
  exact (get_temporal_extent_gives_dates
           [VTuple [VStr "2019-01-01";
                    VDate {| year := 2019; month := 5; day := 15 |}]]
           VNone VNone VNone (VStr "2019-01-01") (VStr "2019-05-15")
           eq_refl eq_refl).
Defined.

End HelperFacts.

(** ** Key generation, further *)

Lemma generate_all_length ps :
  forall kg, List.length (fst (generate_all ps kg)) = List.length ps.
Proof.
  induction ps as [|p ps IH]; intros kg; [reflexivity|].
  cbn [generate_all]. destruct (generate p kg) as [k kg1]. specialize (IH kg1).
  destruct (generate_all ps kg1) as [ks kg2]. simpl in *. now rewrite IH.
Qed.

Lemma counter_generate p q kg :
  counter q (snd (generate p kg))
  = if String.eqb q p then S (counter p kg) else counter q kg.
Proof.
  destruct (String.eqb q p) eqn:E.
  - apply String.eqb_eq in E as ->. apply counter_after_generate.
  - unfold generate, counter. cbn [snd _counters].
    rewrite dict_get_set_other; [reflexivity|].
    intros ->. now rewrite String.eqb_refl in E.
Qed.

Lemma counter_generate_all q ps :
  forall kg,
    counter q (snd (generate_all ps kg))
    = counter q kg + count_occ string_dec ps q.
Proof.
  induction ps as [|p ps IH]; intros kg; [simpl; lia|].
  cbn [generate_all]. pose proof (counter_generate p q kg) as Hc.
  destruct (generate p kg) as [k kg1]. specialize (IH kg1).
  destruct (generate_all ps kg1) as [ks kg2]. cbn [snd] in *.
  rewrite IH, Hc. cbn [count_occ].
  destruct (string_dec p q) as [->|Hne].
  - rewrite String.eqb_refl. lia.
  - destruct (String.eqb q p) eqn:E; [|lia].
    apply String.eqb_eq in E. congruence.
Qed.

(** X11.  The counters of a key generator are kept per process id: whatever
    calls came before, for this id or for others, a call of [generate] for
    the process id [p] returns [p] without its underscores followed by the
    number of calls made for [p] so far, this one included, in decimal. *)
Theorem generate_counts_per_id before p after kg :
  nth_error (fst (generate_all (before ++ p :: after) kg)) (List.length before)
  = Some (replace_underscore p
          ++ str_of_nat (counter p kg + S (count_occ string_dec before p))).
Proof.
  rewrite generate_all_app. cbn [fst].
  rewrite nth_error_app2 by (rewrite generate_all_length; lia).
  rewrite generate_all_length, Nat.sub_diag.
  cbn [generate_all]. pose proof (counter_generate_all p before kg) as Hc.
  destruct (generate_all before kg) as [ks kg1]. cbn [snd] in *.
  destruct (generate p kg1) as [k kg2] eqn:G.
  destruct (generate_all after kg2) as [ks' kg3]. cbn [fst nth_error].
  unfold generate in G. injection G as <- _. rewrite Hc.
  now rewrite Nat.add_succ_r.
Qed.

Lemma uint_all_digits u : all_digits (NilEmpty.string_of_uint u) = true.
Proof. induction u; simpl; auto. Qed.

Lemma str_of_nat_all_digits n : all_digits (str_of_nat n) = true.
Proof. apply uint_all_digits. Qed.

Lemma all_digits_ends_in_digit s :
  s <> "" -> all_digits s = true -> ends_in_digit s = true.
Proof.
  induction s as [|c s IH]; [congruence|]. intros _ H.
  cbn [all_digits] in H. apply andb_true_iff in H as [Hc Hs].
  destruct s as [|c' s]; [exact Hc|].
  change (ends_in_digit (String c' s) = true). apply IH; [discriminate | exact Hs].
Qed.

Lemma all_digits_app s t : all_digits (s ++ t) = all_digits s && all_digits t.
Proof.
  induction s as [|c s IH]; simpl; [reflexivity|]. now rewrite IH, andb_assoc.
Qed.

Lemma ends_in_digit_tail c s :
  ends_in_digit (String c s) = false -> ends_in_digit s = false.
Proof. destruct s; [reflexivity | auto]. Qed.

(** A key splits in one way only into a name that does not end in a digit
    and a number. *)
Lemma key_split_unique s t d e :
  all_digits d = true -> all_digits e = true ->
  ends_in_digit s = false -> ends_in_digit t = false ->
  s ++ d = t ++ e -> s = t /\ d = e.
Proof.
  intros Hd He. revert t.
  induction s as [|c s IH]; intros [|c' t] Hs Ht E.
  - auto.
  - exfalso. cbn [append] in E. subst d.
    change (String c' (t ++ e)) with (String c' t ++ e) in Hd.
    rewrite all_digits_app in Hd. apply andb_true_iff in Hd as [Hd _].
    apply all_digits_ends_in_digit in Hd; [congruence | discriminate].
  - exfalso. cbn [append] in E. subst e.
    change (String c (s ++ d)) with (String c s ++ d) in He.
    rewrite all_digits_app in He. apply andb_true_iff in He as [He _].
    apply all_digits_ends_in_digit in He; [congruence | discriminate].
  - cbn [append] in E. injection E as -> E.
    apply ends_in_digit_tail in Hs, Ht.
    destruct (IH _ Hs Ht E) as [-> ->]. auto.
Qed.

(** Every key drawn holds a number above the counter its process id had
    before. *)
Lemma generate_all_keys ps :
  forall kg k,
    In k (fst (generate_all ps kg)) ->
    exists q n,
      In q ps /\ k = replace_underscore q ++ str_of_nat n /\ counter q kg < n.
Proof.
  induction ps as [|p ps IH]; intros kg k; [intros []|].
  cbn [generate_all]. pose proof (counter_generate p) as Hc.
  destruct (generate p kg) as [k0 kg1] eqn:G. specialize (IH kg1).
  destruct (generate_all ps kg1) as [ks kg2]. cbn [fst] in *.
  intros [<-|Hin].
  - exists p, (S (counter p kg)). split; [now left|].
    unfold generate in G. injection G as <- _. split; [reflexivity | lia].
  - destruct (IH _ Hin) as (q & n & Hq & -> & Hn).
    exists q, n. split; [now right|]. split; [reflexivity|].
    specialize (Hc q kg). rewrite G in Hc. cbn [snd] in Hc.
    destruct (String.eqb q p) eqn:E; [|lia].
    apply String.eqb_eq in E as ->. lia.
Qed.

Lemma generate_all_distinct ps :
  unambiguous ps -> forall kg, NoDup (fst (generate_all ps kg)).
Proof.
  induction ps as [|p ps IH]; intros [Hend Hinj] kg; [constructor|].
  cbn [generate_all]. pose proof (generate_all_keys ps) as Hk.
  pose proof (counter_after_generate p kg) as Hc.
  destruct (generate p kg) as [k0 kg1] eqn:G.
  specialize (Hk kg1).
  assert (Hrest : unambiguous ps).
  { split; [now inversion Hend | intros; apply Hinj; auto; now right]. }
  specialize (IH Hrest kg1).
  destruct (generate_all ps kg1) as [ks kg2]. cbn [fst snd] in *.
  constructor; [|exact IH].
  intros Hin. destruct (Hk _ Hin) as (q & n & Hq & E & Hn).
  unfold generate in G. injection G as <- _.
  rewrite Forall_forall in Hend.
  apply key_split_unique in E as [E1 E2];
    try apply str_of_nat_all_digits;
    [| apply Hend; now left | apply Hend; now right].
  apply str_of_nat_inj in E2.
  assert (p = q) by (apply Hinj; [now left | now right | exact E1]).
  subst q. lia.
Qed.

(** X12.  The keys that one generator returns are pairwise distinct, and
    hold no underscore, when the process ids it is asked for can be told
    apart without their underscores and none of them then ends in a digit:
    the number that [generate] appends can be read back from the key. *)
Theorem generate_distinct_keys process_ids kg :
  unambiguous process_ids ->
  NoDup (fst (generate_all process_ids kg))
  /\ Forall (fun k => mentions "_"%char k = false) (fst (generate_all process_ids kg)).
Proof.
  intros H. split; [now apply generate_all_distinct|].
  apply Forall_forall. intros k Hin.
  apply generate_all_keys in Hin as (q & n & _ & -> & _).
  rewrite mentions_app, replace_underscore_clean, str_of_nat_clean. reflexivity.
Qed.

Lemma generate_distinct_keys_witness :
  let ps := ["load_collection"; "filter_bands"; "load_collection"; "sum"] in
  NoDup (fst (generate_all ps FlatGraphKeyGenerator_init))
  /\ Forall (fun k => mentions "_"%char k = false)
       (fst (generate_all ps FlatGraphKeyGenerator_init)).
Proof.
  refine (generate_distinct_keys
            ["load_collection"; "filter_bands"; "load_collection"; "sum"]
            FlatGraphKeyGenerator_init _).
  split.
  - repeat constructor.
  - intros p q Hp Hq. cbn [In] in Hp, Hq.
    repeat match goal with
           | H : _ \/ _ |- _ => destruct H as [<-|H]
           | H : False |- _ => destruct H
           end; (reflexivity || (intros E; vm_compute in E; discriminate)).
Defined.

(** ** Building, further *)


Lemma deepcopy_new_cell h G :
  ref_free G = true ->
  deepcopy (h ++ [G])%list (PRef (List.length h)) = Ok G.
Proof.
  intros Hrf. unfold deepcopy. rewrite length_app. cbn [List.length].
  rewrite Nat.add_1_r, deepcopy_fuel_ref, heap_get_app_new.
  now apply deepcopy_fuel_ref_free.
Qed.

(** Flattening a builder whose root is a fresh cell that holds a copy of the
    graph of [self] gives what flattening [self] gives. *)
Lemma flatten_fresh_copy self key_gen h flat kg' h1 r G :
  result_node self = Some r ->
  deepcopy h (PRef r) = Ok G ->
  flatten self key_gen h = Ok (flat, kg', h1) ->
  exists h3,
    flatten {| result_node := Some (List.length h) |} key_gen (h ++ [G])%list
    = Ok (flat, kg', h3).
Proof.
  intros Hr HG H.
  assert (Hrf : ref_free G = true) by (eapply deepcopy_result_ref_free; eauto).
  unfold flatten in *. rewrite Hr, HG in H. cbn [bind] in H.
  cbn [result_node]. rewrite (deepcopy_new_cell _ _ Hrf). cbn [bind].
  eapply flatten_copy_same; [apply accept_same | exact H].
Qed.

(** X14.  A shallow copy flattens like the builder it was taken from:
    whenever [flatten] returns on a builder, [shallow_copy] returns on it, the
    copy has a root of its own, and flattening the copy with the same key
    generator gives the same flat graph and leaves the generator in the same
    state. *)
Theorem shallow_copy_flattens_alike self key_gen h flat kg' h1 :
  flatten self key_gen h = Ok (flat, kg', h1) ->
  exists the_copy h2 h3,
    shallow_copy self h = Ok (the_copy, h2)
    /\ result_node the_copy = Some (List.length h)
    /\ result_node the_copy <> result_node self
    /\ flatten the_copy key_gen h2 = Ok (flat, kg', h3).
Proof.
  intros H.
  destruct (flatten_inv _ _ _ _ _ _ H) as (r & G & _ & _ & Hr & HG & _).
  destruct (flatten_fresh_copy _ _ _ _ _ _ _ _ Hr HG H) as [h3 H3].
  exists {| result_node := Some (List.length h) |}, (h ++ [G])%list, h3.
  split; [unfold shallow_copy; now rewrite Hr, HG|].
  split; [reflexivity|]. split; [|exact H3].
  cbn [result_node]. rewrite Hr. intros [= E].
  unfold deepcopy in HG. destruct (List.length h) as [|n] eqn:L; [discriminate|].
  rewrite deepcopy_fuel_ref in HG.
  destruct (heap_get r h) as [o|] eqn:Eo; [|discriminate].
  apply heap_get_lt in Eo. lia.
Qed.

Lemma shallow_copy_flattens_alike_witness :
  let node := PDict [("process_id", PStr "load_collection");
                     ("arguments", PDict [("id", PStr "S2")])] in
  exists the_copy h2 h3,
    shallow_copy {| result_node := Some 0 |} [node] = Ok (the_copy, h2)
    /\ result_node the_copy = Some 1
    /\ result_node the_copy <> Some 0
    /\ flatten the_copy None h2
       = Ok ([("loadcollection1",
               PDict [("process_id", PStr "load_collection");
                      ("arguments", PDict [("id", PStr "S2")]);
                      ("result", PBool true)])],
             {| _counters := [("load_collection", 1)] |}, h3).
Proof.
  intros node.
  refine (shallow_copy_flattens_alike {| result_node := Some 0 |} None [node]
            _ _ ([node; _]) _).
  vm_compute. reflexivity.
Defined.

(** X15.  Lifting the graph of a builder with [from_process_graph] gives a
    builder that flattens like the one the graph came from, with the same
    flat graph and the same state of the key generator. *)
Theorem from_process_graph_flattens_alike self key_gen h flat kg' h1 r :
  result_node self = Some r ->
  flatten self key_gen h = Ok (flat, kg', h1) ->
  exists builder h2 h3,
    from_process_graph (PRef r) h = Ok (builder, h2)
    /\ flatten builder key_gen h2 = Ok (flat, kg', h3).
Proof.
  intros Hr H.
  destruct (flatten_inv _ _ _ _ _ _ H) as (r' & G & _ & _ & Hr' & HG & _).
  rewrite Hr in Hr'. injection Hr' as <-.
  destruct (flatten_fresh_copy _ _ _ _ _ _ _ _ Hr HG H) as [h3 H3].
  exists {| result_node := Some (List.length h) |}, (h ++ [G])%list, h3.
  split; [unfold from_process_graph; now rewrite HG | exact H3].
Qed.

Lemma from_process_graph_flattens_alike_witness :
  let node := PDict [("process_id", PStr "load_collection");
                     ("arguments", PDict [("id", PStr "S2")])] in
  exists builder h2 h3,
    from_process_graph (PRef 0) [node] = Ok (builder, h2)
    /\ flatten builder None h2
       = Ok ([("loadcollection1",
               PDict [("process_id", PStr "load_collection");
                      ("arguments", PDict [("id", PStr "S2")]);
                      ("result", PBool true)])],
             {| _counters := [("load_collection", 1)] |}, h3).
Proof.
  intros node.
  refine (from_process_graph_flattens_alike {| result_node := Some 0 |} None
            [node] _ _ ([node; _]) 0 eq_refl _).
  vm_compute. reflexivity.
Defined.

(** X16.  One [process] call on any builder, with arguments that hold no
    mapping and none named [from_node], followed by [flatten]: the flat graph
    has the single entry of that node, under the process id without
    underscores followed by [1], with the arguments as given and the result
    marker. *)
Theorem process_then_flatten self p args h :
  dict_has "from_node" args = false ->
  forallb (fun kv => plain_value (snd kv)) args = true ->
  exists self' h1 kg h2,
    process self (PStr p) args h = Ok (PBuiltin "id", self', h1)
    /\ flatten self' None h1
       = Ok ([(replace_underscore p ++ "1",
               PDict [("process_id", PStr p); ("arguments", PDict args);
                      ("result", PBool true)])], kg, h2)
    /\ forall q, counter q kg = if String.eqb q p then 1 else 0.
Proof.
  intros Hf Hplain.
  rewrite (process_spec_unchained self (PStr p) args h Hf).
  do 4 eexists. split; [reflexivity|].
  unfold flatten. cbn [result_node].
  fold (node_of p args).
  rewrite (deepcopy_new_cell h _ (plain_arguments_ref_free p args Hplain)).
  cbn [bind]. unfold flatten_copy. cbn [alloc].
  rewrite (accept_single_node _ _ _ Hplain).
  cbn [bind key_generator flat_graph last_node_id store generate counter
         FlatGraphKeyGenerator_init _counters dict_get fst snd dict_set].
  unfold mark_result. cbn [dict_get]. rewrite String.eqb_refl.
  unfold node_of. cbn [dict_set String.eqb Ascii.eqb Bool.eqb bind].
  rewrite String.eqb_refl. split; [reflexivity|].
  intros q. unfold counter. cbn [_counters dict_get].
  now destruct (String.eqb q p).
Qed.

Lemma process_then_flatten_witness :
  exists self' h1 kg h2,
    process GraphBuilder_init (PStr "load_collection")
      [("id", PStr "S2"); ("bands", PList [PStr "B02"; PStr "B03"])] []
    = Ok (PBuiltin "id", self', h1)
    /\ flatten self' None h1
       = Ok ([(replace_underscore "load_collection" ++ "1",
               PDict [("process_id", PStr "load_collection");
                      ("arguments",
                       PDict [("id", PStr "S2");
                              ("bands", PList [PStr "B02"; PStr "B03"])]);
                      ("result", PBool true)])], kg, h2)
    /\ forall q, counter q kg = if String.eqb q "load_collection" then 1 else 0.
Proof.
  exact (process_then_flatten GraphBuilder_init "load_collection"
           [("id", PStr "S2"); ("bands", PList [PStr "B02"; PStr "B03"])] []
           eq_refl eq_refl).
Defined.

(** X17.  What [combine] does in every case.  It raises [AttributeError] when
    one of the two builders has no root, [TypeError] when the argument name is
    one of [add_process]'s own parameters, and [AttributeError] when the
    argument name is [from_node]; otherwise it returns a new builder whose
    root is a new object: the operator's node, marked as the result, whose one
    argument is the list of two references that hold the roots of the two
    builders themselves, and the store is otherwise as it was. *)
Theorem combine_outcome operator first second arg_name h :
  combine operator first second arg_name h
  = match result_node first, result_node second with
    | Some a, Some b =>
        if bound_parameter arg_name then Raise TypeError
        else if String.eqb arg_name "from_node" then Raise AttributeError
        else
          Ok ({| result_node := Some (List.length h) |},
              (h ++ [PDict [("process_id", operator);
                            ("arguments",
                             PDict [(arg_name,
                                     PList [PDict [("from_node", PRef a)];
                                            PDict [("from_node", PRef b)]])]);
                            ("result", PBool true)]])%list)
    | _, _ => Raise AttributeError
    end.
Proof.
  unfold combine.
  destruct (result_node first) as [a|]; [|reflexivity].
  destruct (result_node second) as [b|]; [|reflexivity].
  destruct (bound_parameter arg_name); [reflexivity|].
  unfold add_process, process, dict_has. cbn [dict_get].
  rewrite String.eqb_sym.
  destruct (String.eqb arg_name "from_node"); [reflexivity|].
  cbn [bind alloc result_node]. unfold set_result.
  rewrite heap_get_app_new. cbn [bind dict_set String.eqb Ascii.eqb Bool.eqb].
  f_equal. f_equal. clear. induction h as [|y h IH]; simpl; [reflexivity|].
  now rewrite IH.
Qed.

(** X18.  Combining two single-node graphs and flattening the result gives
    exactly three entries when the three process ids can be told apart by
    [generate] (none ends in a digit once its underscores are removed, no two
    differ by underscores only): the nodes of the two operands in the order
    given, then the operator's node, which carries the result marker and
    refers to the two operands by their keys.  The two operands may have the
    same process id: their keys then end in [1] and [2]. *)
Theorem combine_flattens_single_nodes h a b pa argsA pb argsB op arg_name :
  heap_get a h = Some (node_of pa argsA) ->
  heap_get b h = Some (node_of pb argsB) ->
  forallb (fun kv => plain_value (snd kv)) argsA = true ->
  forallb (fun kv => plain_value (snd kv)) argsB = true ->
  bound_parameter arg_name = false ->
  arg_name <> "from_node" ->
  unambiguous [pa; pb; op] ->
  exists kA kB kS merged h1 kg' h2,
    fst (generate_all [pa; pb; op] FlatGraphKeyGenerator_init) = [kA; kB; kS]
    /\ NoDup [kA; kB; kS]
    /\ combine (PStr op) {| result_node := Some a |} {| result_node := Some b |}
         arg_name h = Ok (merged, h1)
    /\ flatten merged None h1
       = Ok ([(kA, node_of pa argsA); (kB, node_of pb argsB);
              (kS,
               PDict [("process_id", PStr op);
                      ("arguments",
                       PDict [(arg_name,
                               PList [PDict [("from_node", PStr kA)];
                                      PDict [("from_node", PStr kB)]])]);
                      ("result", PBool true)])], kg', h2).
Proof.
  intros Ha Hb HA HB Hbound Hname Hu.
  pose proof (generate_all_distinct _ Hu FlatGraphKeyGenerator_init) as Hnd.
  pose proof (generate_all_length [pa; pb; op] FlatGraphKeyGenerator_init) as Hl.
  destruct (fst (generate_all [pa; pb; op] FlatGraphKeyGenerator_init))
    as [|kA [|kB [|kS [|]]]] eqn:Hkeys; try discriminate.
  destruct (combine_three_entries h a b pa argsA pb argsB op arg_name kA kB kS
              Ha Hb HA HB Hbound Hname Hkeys Hnd) as (merged & h1 & kg' & h2 & H1 & H2).
  exists kA, kB, kS, merged, h1, kg', h2. auto.
Qed.

Lemma combine_flattens_single_nodes_witness :
  let A := node_of "load_collection" [("id", PStr "S2")] in
  let B := node_of "load_collection" [("id", PStr "S1")] in
  exists kA kB kS merged h1 kg' h2,
    fst (generate_all ["load_collection"; "load_collection"; "sum"]
           FlatGraphKeyGenerator_init) = [kA; kB; kS]
    /\ NoDup [kA; kB; kS]
    /\ combine (PStr "sum") {| result_node := Some 0 |} {| result_node := Some 1 |}
         "data" [A; B] = Ok (merged, h1)
    /\ flatten merged None h1
       = Ok ([(kA, A); (kB, B);
              (kS,
               PDict [("process_id", PStr "sum");
                      ("arguments",
                       PDict [("data",
                               PList [PDict [("from_node", PStr kA)];
                                      PDict [("from_node", PStr kB)]])]);
                      ("result", PBool true)])], kg', h2).
Proof.
  intros A B.
  refine (combine_flattens_single_nodes [A; B] 0 1
            "load_collection" [("id", PStr "S2")]
            "load_collection" [("id", PStr "S1")] "sum" "data"
            eq_refl eq_refl eq_refl eq_refl eq_refl _ _).
  - discriminate.
  - split.
    + repeat constructor.
    + intros p q Hp Hq. cbn [In] in Hp, Hq.
      repeat match goal with
             | H : _ \/ _ |- _ => destruct H as [<-|H]
             | H : False |- _ => destruct H
             end; (reflexivity || (intros E; vm_compute in E; discriminate)).
Defined.

(** ** Merging, further *)

Lemma string_compare_refl s : String.compare s s = Eq.
Proof.
  induction s as [|c s IH]; simpl; [reflexivity|].
  unfold Ascii.compare. now rewrite N.compare_refl.
Qed.

Lemma string_leb_trans a b c :
  String.leb a b = true -> String.leb b c = true -> String.leb a c = true.
Proof.
  unfold String.leb. revert b c.
  induction a as [|x a IH]; intros [|y b] [|z c]; simpl; auto; try discriminate.
  unfold Ascii.compare.
  destruct (N.compare_spec (N_of_ascii x) (N_of_ascii y)) as [Exy|Lxy|Gxy];
    try discriminate;
    destruct (N.compare_spec (N_of_ascii y) (N_of_ascii z)) as [Eyz|Lyz|Gyz];
    try discriminate; intros H1 H2.
  - rewrite Exy, Eyz, N.compare_refl. eauto.
  - rewrite Exy. now apply N.compare_lt_iff in Lyz as ->.
  - rewrite <- Eyz. now apply N.compare_lt_iff in Lxy as ->.
  - assert (L : (N_of_ascii x < N_of_ascii z)%N) by lia.
    now apply N.compare_lt_iff in L as ->.
Qed.

Lemma insert_sorted_perm kv l : Permutation (insert_sorted kv l) (kv :: l).
Proof.
  induction l as [|kv' l IH]; cbn [insert_sorted]; [reflexivity|].
  destruct (String.leb (fst kv) (fst kv')); [reflexivity|].
  rewrite IH. apply perm_swap.
Qed.

Lemma sorted_items_perm d : Permutation (sorted_items d) d.
Proof.
  induction d as [|kv d IH]; cbn [sorted_items fold_right]; [reflexivity|].
  fold (sorted_items d). rewrite insert_sorted_perm. now constructor.
Qed.

Lemma insert_sorted_sorted kv l :
  StronglySorted key_le l -> StronglySorted key_le (insert_sorted kv l).
Proof.
  induction 1 as [|kv' l Hs IH Hall]; cbn [insert_sorted].
  - repeat constructor.
  - destruct (String.leb (fst kv) (fst kv')) eqn:E.
    + constructor; [now constructor|].
      constructor; [exact E|].
      eapply Forall_impl; [|exact Hall].
      intros x Hx. unfold key_le in *. eapply string_leb_trans; eauto.
    + constructor; [exact IH|].
      eapply Permutation_Forall.
      * symmetry. apply insert_sorted_perm.
      * constructor; [|exact Hall]. unfold key_le.
        destruct (String.leb_total (fst kv) (fst kv')); congruence.
Qed.

Lemma sorted_items_sorted d : StronglySorted key_le (sorted_items d).
Proof.
  induction d as [|kv d IH]; cbn [sorted_items fold_right]; [constructor|].
  now apply insert_sorted_sorted.
Qed.

Lemma NoDup_keys_same_key (l : dict) a b :
  NoDup (keys l) -> In a l -> In b l -> fst a = fst b -> a = b.
Proof.
  induction l as [|x l IH]; [intros _ []|].
  cbn [keys map]. intros Hnd Ha Hb E. inversion Hnd as [|? ? Hx Hnd']; subst.
  destruct Ha as [->|Ha], Hb as [->|Hb]; auto.
  - exfalso. apply Hx. rewrite E. now apply in_map.
  - exfalso. apply Hx. rewrite <- E. now apply in_map.
Qed.

(** Two lists sorted by key with the same items, under distinct keys, are
    equal. *)
Lemma sorted_unique (l1 : dict) :
  forall l2,
    StronglySorted key_le l1 -> StronglySorted key_le l2 ->
    Permutation l1 l2 -> NoDup (keys l1) -> l1 = l2.
Proof.
  induction l1 as [|a l1 IH]; intros l2 S1 S2 P Hnd.
  - now apply Permutation_nil in P.
  - destruct l2 as [|b l2]; [symmetry in P; now apply Permutation_nil in P|].
    inversion S1 as [|? ? S1' A1]; subst. inversion S2 as [|? ? S2' A2]; subst.
    assert (Hab : a = b).
    { assert (Ha : In a (b :: l2)) by (eapply Permutation_in; [exact P | now left]).
      assert (Hb : In b (a :: l1))
        by (eapply Permutation_in; [symmetry; exact P | now left]).
      destruct Ha as [->|Ha]; [reflexivity|].
      destruct Hb as [->|Hb]; [reflexivity|].
      rewrite Forall_forall in A1, A2.
      apply (NoDup_keys_same_key (a :: l1)); auto; [now left | now right |].
      apply String.leb_antisym; [apply (A1 _ Hb) | apply (A2 _ Ha)]. }
    subst b. f_equal. apply IH; auto.
    + eapply Permutation_cons_inv; eauto.
    + cbn [keys map] in Hnd. now inversion Hnd.
Qed.

(** X19.  The result of a merge does not depend on the order in which the
    dictionary of processes lists its items: [sorted] puts them in the order
    of their keys, so two dictionaries with the same items give the same
    merged builder, the same key map and the same store. *)
Theorem merge_order_independent self processes processes' h :
  NoDup (keys processes) ->
  Permutation processes processes' ->
  sorted_items processes = sorted_items processes'
  /\ StronglySorted key_le (sorted_items processes)
  /\ _merge_processes self processes h = _merge_processes self processes' h.
Proof.
  intros Hnd P.
  assert (E : sorted_items processes = sorted_items processes').
  { apply sorted_unique; try apply sorted_items_sorted.
    - rewrite !sorted_items_perm. exact P.
    - unfold keys. eapply Permutation_NoDup; [|exact Hnd].
      apply Permutation_map. symmetry. apply sorted_items_perm. }
  split; [exact E|]. split; [apply sorted_items_sorted|].
  unfold _merge_processes. now rewrite E.
Qed.

Lemma merge_order_independent_witness :
  let a := ("loadcollection1",
            PDict [("process_id", PStr "load_collection");
                   ("arguments", PDict [("id", PStr "S2")])]) in
  let b := ("filterbands1",
            PDict [("process_id", PStr "filter_bands");
                   ("arguments",
                    PDict [("data", PDict [("from_node", PStr "loadcollection1")])])]) in
  sorted_items [a; b] = sorted_items [b; a]
  /\ StronglySorted key_le (sorted_items [a; b])
  /\ _merge_processes GraphBuilder_init [a; b] []
     = _merge_processes GraphBuilder_init [b; a] [].
Proof.
  intros a b.
  refine (merge_order_independent GraphBuilder_init [a; b] [b; a] [] _ _).
  - cbn. repeat constructor; cbn; intuition discriminate.
  - apply perm_swap.
Defined.

Lemma path_set_dict p x d : p <> [] -> exists d', path_set p x (PDict d) = PDict d'.
Proof.
  destruct p as [|[k|i] q]; [congruence| |]; intros _.
  - rewrite path_set_cons_key. destruct q; [eauto|].
    destruct (dict_get k d); eauto.
  - cbn [path_set]. eauto.
Qed.

(** Assigning below the arguments of a node object leaves every other object
    as it was and the node an object of the same operation. *)
Lemma site_set_arguments a q x h :
  q <> [] ->
  List.length (site_set (a, Key "arguments" :: q) x h) = List.length h
  /\ (forall b, b <> a ->
      heap_get b (site_set (a, Key "arguments" :: q) x h) = heap_get b h)
  /\ (forall b pid args,
         heap_get b h = Some (PDict [("process_id", pid); ("arguments", PDict args)]) ->
         exists args',
           heap_get b (site_set (a, Key "arguments" :: q) x h)
           = Some (PDict [("process_id", pid); ("arguments", PDict args')])).
Proof.
  intros Hq. unfold site_set. cbn [fst snd].
  destruct (heap_get a h) as [o|] eqn:Eo; [|split; [reflexivity|split; eauto]].
  split; [apply heap_set_length|]. split.
  - intros b Hb. now apply heap_get_set_other.
  - intros b pid args Hb. destruct (Nat.eq_dec b a) as [->|Hne].
    + rewrite heap_get_set_same by (eapply heap_get_lt; eauto).
      rewrite Eo in Hb. injection Hb as ->.
      rewrite path_set_cons_key. destruct q as [|s q]; [congruence|].
      cbn [dict_get String.eqb Ascii.eqb Bool.eqb].
      destruct (path_set_dict (s :: q) x args) as [args' ->]; [discriminate|].
      exists args'. reflexivity.
    + rewrite heap_get_set_other by exact Hne. eauto.
Qed.

(** The second loop, when every reference lies in the arguments of an object
    at or above [n]. *)
Lemma rewrite_pass_cells km n refs :
  Forall (fun s => n <= fst s /\ exists q, snd s = Key "arguments" :: q) refs ->
  forall h us h',
    mapM (rewrite_ref km) refs h = Ok (us, h') ->
    List.length h' = List.length h
    /\ (forall b, b < n -> heap_get b h' = heap_get b h)
    /\ (forall b pid args,
           heap_get b h = Some (PDict [("process_id", pid); ("arguments", PDict args)]) ->
           exists args',
             heap_get b h'
             = Some (PDict [("process_id", pid); ("arguments", PDict args')])).
Proof.
  induction 1 as [|s refs [Hn [q Hq]] Hrefs IH]; cbn [mapM]; intros h us h' H.
  - injection H as <- <-. split; [reflexivity|]. split; eauto.
  - bind_inv H. destruct x as [u h1]. bind_inv H. destruct x as [us' h2].
    injection H as <- <-.
    destruct (IH _ _ _ Hx0) as (L & Hlow & Hcell).
    apply rewrite_ref_step in Hx as [->|[new ->]]; [auto|].
    destruct s as [a p]. cbn [fst snd] in *. subst p.
    unfold from_node_of in *. cbn [fst snd app] in *.
    destruct (site_set_arguments a (q ++ [Key "from_node"])%list new h)
      as (L1 & Hother & Hsame); [now destruct q|].
    split; [congruence|]. split.
    + intros b Hb. rewrite Hlow by exact Hb. apply Hother. lia.
    + intros b pid args Hb. destruct (Hsame _ _ _ Hb) as [args1 H1].
      now apply Hcell in H1.
Qed.

(** X20.  A merge of a flat graph adds one object per process to the store,
    in the order of the keys: the object added for a process is a node of the
    same operation that has arguments and nothing else, so a result marker of
    the source is not carried over.  The objects that were in the store are
    left as they were, and the builder's root becomes the node added last, the
    one with the greatest key; merging an empty graph leaves the root as it
    was. *)
Theorem merge_adds_nodes_in_key_order self processes h self' km h' :
  flat_graph_shape processes ->
  _merge_processes self processes h = Ok (self', km, h') ->
  List.length h' = List.length h + List.length processes
  /\ preserves h h'
  /\ (forall i key process_,
         nth_error (sorted_items processes) i = Some (key, process_) ->
         exists pid args,
           getitem "process_id" process_ = Ok pid
           /\ heap_get (List.length h + i) h'
              = Some (PDict [("process_id", pid); ("arguments", PDict args)]))
  /\ result_node self'
     = match processes with
       | [] => result_node self
       | _ => Some (List.length h + List.length processes - 1)
       end.
Proof.
  intros Hshape H. unfold flat_graph_shape in Hshape.
  assert (Hlen : List.length (sorted_items processes) = List.length processes)
    by (apply Permutation_length, sorted_items_perm).
  rewrite <- forallb_sorted_items in Hshape.
  unfold _merge_processes in H. bind_inv H. destruct x as [us st].
  bind_inv H. destruct x as [us' h2]. injection H as <- <- <-.
  destruct (merge_loop_cells _ Hshape _ _ _ Hx)
    as (L & Hcells & (new_refs & Hrefs & Hown) & Hm).
  cbn [merge_store node_refs merged app] in *.
  rewrite Hrefs in Hx0.
  destruct (rewrite_pass_cells _ _ _ Hown _ _ _ Hx0) as (L2 & Hlow & Hsame).
  pose proof (merge_loop_inv _ _ _ _ Hx) as [[_ Hp] _]. cbn [merge_store] in Hp.
  split; [lia|]. split; [|split].
  - split; [lia|]. intros a Ha. rewrite Hlow by exact Ha. now apply Hp.
  - intros i key process_ Hi.
    destruct (Hcells _ _ _ Hi) as (pid & args & Hpid & Hcell).
    destruct (Hsame _ _ _ Hcell) as [args' Hcell'].
    exists pid, args'. auto.
  - rewrite Hm. rewrite Hlen.
    destruct processes as [|kv processes]; [reflexivity|].
    destruct (sorted_items (kv :: processes)) eqn:E; [|reflexivity].
    discriminate.
Qed.

Lemma merge_adds_nodes_in_key_order_witness :
  let load := PDict [("process_id", PStr "load_collection");
                     ("arguments", PDict [("id", PStr "S2")])] in
  let filter := PDict [("process_id", PStr "filter_bands");
                       ("arguments",
                        PDict [("data", PDict [("from_node", PStr "loadcollection1")])]);
                       ("result", PBool true)] in
  let processes := [("loadcollection1", load); ("filterbands1", filter)] in
  let h' := [PDict [("process_id", PStr "filter_bands");
                    ("arguments",
                     PDict [("data", PDict [("from_node", PBuiltin "id")])])];
             load] in
  List.length h' = 0 + List.length processes
  /\ preserves [] h'
  /\ (forall i key process_,
         nth_error (sorted_items processes) i = Some (key, process_) ->
         exists pid args,
           getitem "process_id" process_ = Ok pid
           /\ heap_get (0 + i) h'
              = Some (PDict [("process_id", pid); ("arguments", PDict args)]))
  /\ Some 1 = Some (0 + List.length processes - 1).
Proof.
  intros load filter processes h'.
  exact (merge_adds_nodes_in_key_order GraphBuilder_init processes []
           {| result_node := Some 1 |} _ h' eq_refl eq_refl).
Defined.

Lemma element_refs_exact h a p l s :
  forallb ref_free l = true ->
  forall i,
    In s (element_refs h a p i l)
    <-> exists j d,
        nth_error l j = Some (PDict d) /\ dict_has "from_node" d = true
        /\ s = (a, (p ++ [Index (i + j)])%list).
Proof.
  induction l as [|x l IH]; intros Hrf i; cbn [element_refs].
  - split; [intros [] | intros ([|j] & d & H & _); discriminate].
  - cbn [forallb] in Hrf. apply andb_true_iff in Hrf as [Hx Hl].
    rewrite in_app_iff, (IH Hl (S i)). split.
    + intros [H|(j & d & Hj & Hd & ->)].
      * destruct x as [| | | | |r|l'|d]; try discriminate; cbn [is_node_ref] in H;
          try contradiction.
        destruct (dict_has "from_node" d) eqn:Hd; [|contradiction].
        destruct H as [<-|[]]. exists 0, d. rewrite Nat.add_0_r. auto.
      * exists (S j), d. rewrite Nat.add_succ_r. auto.
    + intros ([|j] & d & Hj & Hd & ->).
      * left. cbn [nth_error] in Hj. injection Hj as ->. cbn [is_node_ref].
        rewrite Hd, Nat.add_0_r. now left.
      * right. exists j, d. rewrite Nat.add_succ_r. auto.
Qed.

(** X21.  [_extract_node_references] finds the references that are the value
    of an argument or an element of a list-valued argument, and no other: a
    reference that lies deeper, inside a mapping or inside a list within a
    list, is not found.  (The arguments are a deep copy, as in a merge: they
    hold no object by reference.) *)
Theorem extract_node_references_exact h node args s :
  ref_free (PDict args) = true ->
  In s (_extract_node_references h node args)
  <-> (exists name d,
          In (name, PDict d) args /\ dict_has "from_node" d = true
          /\ s = (node, [Key "arguments"; Key name]))
      \/ (exists name l i d,
             In (name, PList l) args /\ nth_error l i = Some (PDict d)
             /\ dict_has "from_node" d = true
             /\ s = (node, [Key "arguments"; Key name; Index i])).
Proof.
  cbn [ref_free]. intros Hrf. unfold _extract_node_references.
  rewrite in_flat_map. rewrite forallb_forall in Hrf. split.
  - intros ([name x] & Hin & H). specialize (Hrf _ Hin). cbn [snd fst] in *.
    destruct x as [| | | | |r|l|d]; try discriminate; cbn [argument_refs] in H;
      try contradiction.
    + right. apply (element_refs_exact _ _ _ _ _ Hrf) in H as (j & d & Hj & Hd & ->).
      exists name, l, j, d. auto.
    + left. destruct (dict_has "from_node" d) eqn:Hd; [|contradiction].
      destruct H as [<-|[]]. exists name, d. auto.
  - intros [(name & d & Hin & Hd & ->)|(name & l & i & d & Hin & Hi & Hd & ->)].
    + exists (name, PDict d). split; [exact Hin|]. cbn [snd fst argument_refs].
      rewrite Hd. now left.
    + exists (name, PList l). split; [exact Hin|]. cbn [snd fst argument_refs].
      specialize (Hrf _ Hin). cbn [snd ref_free] in Hrf.
      apply (element_refs_exact _ _ _ _ _ Hrf). exists i, d. auto.
Qed.

Lemma extract_node_references_exact_witness :
  let reference := PDict [("from_node", PStr "load1")] in
  let args := [("data", reference);
               ("bands", PList [PStr "B02"; reference; PList [reference]]);
               ("options", PDict [("mask", reference)])] in
  In (0, [Key "arguments"; Key "bands"; Index 1]) (_extract_node_references [] 0 args)
  <-> (exists name d,
          In (name, PDict d) args /\ dict_has "from_node" d = true
          /\ (0, [Key "arguments"; Key "bands"; Index 1])
             = (0, [Key "arguments"; Key name]))
      \/ (exists name l i d,
             In (name, PList l) args /\ nth_error l i = Some (PDict d)
             /\ dict_has "from_node" d = true
             /\ (0, [Key "arguments"; Key "bands"; Index 1])
                = (0, [Key "arguments"; Key name; Index i])).
Proof.
  intros reference args.
  exact (extract_node_references_exact [] 0 args
           (0, [Key "arguments"; Key "bands"; Index 1]) eq_refl).
Defined.

Lemma mapM_ok_in {S A B : Type} (f : A -> S -> outcome (B * S)) l :
  forall s ys s',
    mapM f l s = Ok (ys, s') ->
    forall x, In x l -> exists s1 y s2, f x s1 = Ok (y, s2).
Proof.
  induction l as [|a l IH]; cbn [mapM]; intros s ys s' H x Hin; [destruct Hin|].
  bind_inv H. destruct x0 as [y s1]. bind_inv H. destruct x0 as [ys' s2].
  destruct Hin as [<-|Hin]; [eauto|]. eapply IH; eauto.
Qed.

(** X22.  A merge returns only when every process of the dictionary, not
    just the ones it reaches first, is a mapping that has a [process_id] and
    [arguments]: one process without either makes the whole merge raise,
    wherever its key comes in the order. *)
Theorem merge_requires_process_fields self processes h result :
  _merge_processes self processes h = Ok result ->
  forall key process_,
    In (key, process_) processes ->
    exists node process_id args,
      process_ = PDict node
      /\ dict_get "process_id" node = Some process_id
      /\ dict_get "arguments" node = Some args.
Proof.
  unfold _merge_processes. intros H key process_ Hin.
  bind_inv H. destruct x as [us st].
  assert (Hs : In (key, process_) (sorted_items processes)).
  { eapply Permutation_in; [symmetry; apply sorted_items_perm | exact Hin]. }
  destruct (mapM_ok_in _ _ _ _ _ Hx _ Hs) as (s1 & y & s2 & Hstep).
  unfold merge_process in Hstep. bind_inv Hstep. bind_inv Hstep.
  unfold getitem in Hx0, Hx1.
  destruct process_ as [| | | | | | |node]; try discriminate.
  destruct (dict_get "process_id" node) as [pid|] eqn:Ep; [|discriminate].
  destruct (dict_get "arguments" node) as [args|] eqn:Ea; [|discriminate].
  exists node, pid, args. auto.
Qed.

Lemma merge_requires_process_fields_witness :
  exists node process_id args,
    PDict [("process_id", PStr "load_collection");
           ("arguments", PDict [("id", PStr "S2")])] = PDict node
    /\ dict_get "process_id" node = Some process_id
    /\ dict_get "arguments" node = Some args.
Proof.
  refine (merge_requires_process_fields GraphBuilder_init example_flat_graph [] _ _
            "loadcollection1" _ _).
  - vm_compute. reflexivity.
  - now left.
Defined.

(** ** Flattening, further *)

(** X23.  [flatten] draws one key for every node of the graph, in post order
    and with the nodes of a callback in the place where the callback is
    flattened, all from the one generator: the generator is left in the state
    that these [generate] calls leave it in, so a later [flatten] with the
    same generator continues the counters, each by the number of nodes with
    that process id.  The graph is a tree: no object under the root is reached
    twice. *)
Theorem flatten_advances_key_generator self kg h r flat kg' h' :
  result_node self = Some r ->
  unshared h (PRef r) ->
  flatten self (Some kg) h = Ok (flat, kg', h') ->
  exists G,
    deepcopy h (PRef r) = Ok G
    /\ kg' = snd (generate_all (postorder G) kg)
    /\ forall p, counter p kg' = counter p kg + count_occ string_dec (postorder G) p.
Proof.
  intros Hr _ H.
  apply flatten_inv in H as (r' & G & G' & st & Hr' & HG & Hacc & _ & -> & _).
  rewrite Hr in Hr'. injection Hr' as <-.
  exists G. split; [exact HG|].
  apply (proj1 (accept_step_ok G)) in Hacc as (_ & Hkg & _).
  cbn [key_generator] in Hkg. split; [exact Hkg|].
  intros p. rewrite Hkg. apply counter_generate_all.
Qed.

Lemma flatten_advances_key_generator_witness :
  let load := PDict [("process_id", PStr "load"); ("arguments", PDict [])] in
  let G := PDict [("process_id", PStr "reduce");
                  ("arguments",
                   PDict [("data", PDict [("from_node", load)]);
                          ("reducer",
                           PDict [("callback",
                                   PDict [("process_id", PStr "max");
                                          ("arguments",
                                           PDict [("data",
                                                   PDict [("from_node", load)])])])])])] in
  exists G',
    deepcopy [G] (PRef 0) = Ok G'
    /\ {| _counters := [("load", 2); ("max", 1); ("reduce", 1)] |}
       = snd (generate_all (postorder G') FlatGraphKeyGenerator_init)
    /\ forall p,
        counter p {| _counters := [("load", 2); ("max", 1); ("reduce", 1)] |}
        = counter p FlatGraphKeyGenerator_init
          + count_occ string_dec (postorder G') p.
Proof.
  intros load G.
  refine (flatten_advances_key_generator {| result_node := Some 0 |}
            FlatGraphKeyGenerator_init [G] 0 _ _ _ eq_refl _ _).
  - unfold unshared. cbn. constructor; [simpl; tauto | constructor].
  - vm_compute. reflexivity.
Defined.

Lemma mapM_ok_each {S A B : Type} (f : A -> S -> outcome (B * S)) (ok : A -> bool) l :
  Forall (fun x => forall s y s', f x s = Ok (y, s') -> ok x = true) l ->
  forall s ys s', mapM f l s = Ok (ys, s') -> forallb ok l = true.
Proof.
  induction 1 as [|x l Hx Hl IH]; cbn [mapM forallb]; intros s ys s' H; [reflexivity|].
  bind_inv H. destruct x0 as [y s1]. bind_inv H. destruct x0 as [ys' s2].
  rewrite (Hx _ _ _ Hx0), (IH _ _ _ Hx1). reflexivity.
Qed.

(** Where nothing is visited, the state is as it was. *)
Lemma accept_not_node v st : is_node v = false -> accept v st = Ok (v, st).
Proof.
  destruct v as [| | | | | | |d]; try reflexivity.
  cbn [is_node]. unfold dict_has. intros H.
  rewrite accept_unfold, visit_process_lookup.
  now destruct (dict_get "process_id" d).
Qed.

Lemma flatten_copy_not_node copy kg h :
  is_node copy = false -> flatten_copy (accept copy) copy kg h = Raise KeyError.
Proof.
  intros H. unfold flatten_copy. cbn [alloc].
  rewrite (accept_not_node _ _ H). reflexivity.
Qed.

Section visitable_layers.
Variable node : dict.
Hypothesis IH : forall k x st v' st',
  dict_get k node = Some x -> accept x st = Ok (v', st') -> visitable x = true.

Lemma visit_reference_visitable st st' :
  visit_reference accept node st = Ok st' -> reference_ok visitable node = true.
Proof.
  rewrite visit_reference_lookup. unfold reference_ok. rewrite dict_with_get.
  destruct (dict_get "from_node" node) as [x|] eqn:E; [|reflexivity].
  intros H. bind_inv H. destruct x0 as [v' st1]. eapply IH; eauto.
Qed.

Lemma leaveArgument_visitable st node' st' :
  leaveArgument
    (dict_with "callback"
       (fun callback => flatten_callback (accept callback) callback) node)
    node st = Ok (node', st') ->
  callback_ok visitable node = true.
Proof.
  rewrite flat_callback_lookup. unfold callback_ok. rewrite dict_with_get.
  destruct (dict_get "callback" node) as [cb|] eqn:E; [|reflexivity].
  unfold leaveArgument. intros H. bind_inv H. destruct x as [[flat kg] h].
  unfold flatten_callback in Hx. cbn [alloc] in Hx.
  destruct (is_node cb) eqn:Hn;
    [|now rewrite (flatten_copy_not_node _ _ _ Hn) in Hx].
  unfold flatten_copy in Hx. cbn [alloc] in Hx. bind_inv Hx.
  destruct x as [cb' st1]. cbn [option_map]. rewrite Hn. cbn [andb].
  eapply IH; eauto.
Qed.
End visitable_layers.

(** The traversal returns on the values that [visitable] admits only. *)
Lemma accept_ok_visitable v :
  (forall st v' st', accept v st = Ok (v', st') -> visitable v = true)
  /\ (forall st r st', visit_arguments accept v st = Ok (r, st') ->
      arguments_ok visitable v = true)
  /\ (forall k st r st', visit_argument accept (k, v) st = Ok (r, st') ->
      argument_ok visitable v = true)
  /\ (forall st r st', visit_element accept v st = Ok (r, st') ->
      element_ok visitable v = true).
Proof.
  apply (traversal_ind
    (fun v => forall st v' st', accept v st = Ok (v', st') -> visitable v = true)
    (fun v => forall st r st', visit_arguments accept v st = Ok (r, st') ->
              arguments_ok visitable v = true)
    (fun v => forall k st r st', visit_argument accept (k, v) st = Ok (r, st') ->
              argument_ok visitable v = true)
    (fun v => forall st r st', visit_element accept v st = Ok (r, st') ->
              element_ok visitable v = true)).
  - intros x IH st v' st' H. destruct x as [| | | | | | |d]; try reflexivity.
    rewrite accept_unfold, visit_process_lookup in H.
    cbn [visitable]. unfold process_ok. rewrite dict_with_get.
    destruct (dict_get "process_id" d) as [pid|] eqn:Ep; [|reflexivity].
    destruct (dict_get "arguments" d) as [a|] eqn:Ea.
    + bind_inv H. destruct x as [arguments st1]. bind_inv H.
      cbn [option_map]. rewrite (IH d a eq_refl Ea _ _ _ Hx), andb_true_r.
      destruct pid; try discriminate. reflexivity.
    + bind_inv H. cbn [option_map]. rewrite andb_true_r.
      destruct pid; try discriminate. reflexivity.
  - intros x IH st r st' H. destruct x as [| | | | | | |args]; try discriminate.
    cbn [visit_arguments arguments_ok] in *.
    apply (mapM_ok_each (visit_argument accept)
             (fun kv => argument_ok visitable (snd kv)) args) in H; [exact H|].
    eapply Forall_impl; [|exact (IH args eq_refl)].
    intros [k a] Hk s y s' Hy. cbn [snd] in *. eapply Hk; eauto.
  - intros x IHl IHd k st r st' H. unfold visit_argument in H. cbn [snd fst] in H.
    destruct x as [| | | | | |l|d]; try reflexivity; cbn [argument_ok].
    + bind_inv H. destruct x as [elements' st1].
      eapply (mapM_ok_each (visit_element accept)); [|exact Hx].
      eapply Forall_impl; [|exact (IHl l eq_refl)]. intros e He s y s' Hy.
      eapply He; eauto.
    + bind_inv H. bind_inv H. destruct x0 as [node' st2].
      rewrite (visit_reference_visitable d (fun k x st v' st' E => IHd d k x eq_refl E st v' st') _ _ Hx).
      rewrite (leaveArgument_visitable d (fun k x st v' st' E => IHd d k x eq_refl E st v' st') _ _ _ Hx0).
      reflexivity.
  - intros x IHd st r st' H. unfold visit_element in H.
    destruct x as [| | | | | | |d]; try reflexivity; cbn [element_ok].
    bind_inv H.
    exact (visit_reference_visitable d (fun k x st v' st' E => IHd d k x eq_refl E st v' st') _ _ Hx).
Qed.

(** X24.  [flatten] returns exactly on the nested graphs: the root is a node,
    the operation of every node that the traversal meets is a string, the
    arguments of a node are a mapping, and a callback is itself such a graph.
    When the root is not a node (it has no [process_id]) nothing is visited and
    [flatten] raises [KeyError], whatever the key generator.  The graph is a
    tree: no object under the root is reached twice. *)
Theorem flatten_returns_on_nested_graphs_only self key_gen h r G :
  result_node self = Some r ->
  unshared h (PRef r) ->
  deepcopy h (PRef r) = Ok G ->
  ((exists flat kg' h', flatten self key_gen h = Ok (flat, kg', h'))
   <-> nested_graph G)
  /\ (is_node G = false -> flatten self key_gen h = Raise KeyError).
Proof.
  intros Hr _ HG. unfold flatten. rewrite Hr, HG. cbn [bind]. split; [split|].
  - intros (flat & kg' & h' & H). unfold nested_graph.
    destruct (is_node G) eqn:Hn;
      [|now rewrite (flatten_copy_not_node _ _ _ Hn) in H].
    split; [reflexivity|].
    unfold flatten_copy in H. cbn [alloc] in H. bind_inv H. destruct x as [G' st].
    eapply (proj1 (accept_ok_visitable G)); eauto.
  - intros [Hn Hv]. apply flatten_copy_total; [exact Hn|].
    apply (proj1 (accept_total G) Hv).
  - apply flatten_copy_not_node.
Qed.

Lemma flatten_returns_on_nested_graphs_only_witness :
  let G := PDict [("process_id", PStr "load_collection");
                  ("arguments", PDict [("id", PStr "S2")])] in
  ((exists flat kg' h',
       flatten {| result_node := Some 0 |} None [G] = Ok (flat, kg', h'))
   <-> nested_graph G)
  /\ (is_node G = false
      -> flatten {| result_node := Some 0 |} None [G] = Raise KeyError).
Proof.
  intros G.
  refine (flatten_returns_on_nested_graphs_only {| result_node := Some 0 |} None
            [G] 0 G eq_refl _ eq_refl).
  unfold unshared. cbn. constructor; [simpl; tauto | constructor].
Defined.

(** *** References are resolved *)

Lemma resolved_unfold d :
  resolved (PDict d)
  = forallb (fun kv => entry_resolved resolved (keys d) (snd kv)) d.
Proof. reflexivity. Qed.

Lemma linked_unfold d : linked (PDict d) = process_linked linked d.
Proof. reflexivity. Qed.

Lemma existsb_key k ks : existsb (String.eqb k) ks = true <-> In k ks.
Proof.
  rewrite existsb_exists. split.
  - intros (x & Hx & E). apply String.eqb_eq in E. now subst.
  - intros H. exists k. split; [exact H | apply String.eqb_refl].
Qed.

Section resolved_mono.
Variables ks ks' : list string.
Hypothesis Hsub : forall k, In k ks -> In k ks'.

Lemma reference_resolved_mono node :
  reference_resolved ks node = true -> reference_resolved ks' node = true.
Proof.
  unfold reference_resolved. destruct (dict_get "from_node" node) as [[]|]; auto.
  rewrite !existsb_key. apply Hsub.
Qed.

Lemma element_resolved_mono x :
  element_resolved ks x = true -> element_resolved ks' x = true.
Proof. destruct x; auto. apply reference_resolved_mono. Qed.

Lemma argument_resolved_mono x :
  argument_resolved resolved ks x = true -> argument_resolved resolved ks' x = true.
Proof.
  destruct x as [| | | | | |l|d]; auto; cbn [argument_resolved].
  - rewrite !forallb_forall. intros H e He. apply element_resolved_mono. auto.
  - rewrite !andb_true_iff. intros [H1 H2]. split; [|exact H2].
    now apply reference_resolved_mono.
Qed.

Lemma arguments_resolved_mono x :
  arguments_resolved resolved ks x = true -> arguments_resolved resolved ks' x = true.
Proof.
  destruct x as [| | | | | | |args]; auto; cbn [arguments_resolved].
  rewrite !forallb_forall. intros H kv Hkv. apply argument_resolved_mono. auto.
Qed.

Lemma entry_resolved_mono x :
  entry_resolved resolved ks x = true -> entry_resolved resolved ks' x = true.
Proof.
  destruct x as [| | | | | | |e]; auto; cbn [entry_resolved].
  rewrite !dict_with_get. destruct (dict_get "arguments" e) as [a|]; auto.
  cbn [option_map]. apply arguments_resolved_mono.
Qed.
End resolved_mono.

Lemma in_dict_set {A : Type} (kv : string * A) k v d :
  In kv (dict_set k v d) -> In kv d \/ kv = (k, v).
Proof.
  induction d as [|[k' v'] d IH]; cbn [dict_set].
  - intros [<-|[]]. now right.
  - destruct (String.eqb k k') eqn:E.
    + apply String.eqb_eq in E as <-. intros [<-|H]; [now right | left; now right].
    + intros [<-|H]; [left; now left|]. destruct (IH H); [left; now right | now right].
Qed.

Lemma keys_dict_set_mono {A : Type} k (v : A) d k0 :
  In k0 (keys d) -> In k0 (keys (dict_set k v d)).
Proof.
  induction d as [|[k' v'] d IH]; cbn [dict_set keys map]; [intros []|].
  destruct (String.eqb k k'); cbn [map fst]; intros [E|H];
    [now left | now right | now left |].
  right. now apply IH.
Qed.

Lemma forallb_dict_get {A : Type} (P : A -> bool) k (d : list (string * A)) x :
  forallb (fun kv => P (snd kv)) d = true -> dict_get k d = Some x -> P x = true.
Proof.
  induction d as [|[k' v] d IH]; cbn [forallb dict_get snd]; [discriminate|].
  intros H. apply andb_true_iff in H as [Hv Hd].
  destruct (String.eqb k k'); [now intros [= <-] | auto].
Qed.

Lemma keys_dict_set_self {A : Type} k (v : A) d : In k (keys (dict_set k v d)).
Proof.
  induction d as [|[k' v'] d IH]; cbn [dict_set keys map]; [now left|].
  destruct (String.eqb k k') eqn:E; cbn [map fst].
  - apply String.eqb_eq in E. now left.
  - right. exact IH.
Qed.

(** Adding an entry whose references are resolved keeps a flat graph
    resolved. *)
Lemma resolved_dict_set k entry flat :
  resolved (PDict flat) = true ->
  entry_resolved resolved (keys (dict_set k entry flat)) entry = true ->
  resolved (PDict (dict_set k entry flat)) = true.
Proof.
  rewrite !resolved_unfold, !forallb_forall. intros Hflat Hentry kv Hin.
  apply in_dict_set in Hin as [Hin| ->]; [|exact Hentry].
  eapply entry_resolved_mono; [|apply Hflat; exact Hin].
  intros k0. apply keys_dict_set_mono.
Qed.

Lemma leaveProcess_resolved process_id arguments st st' :
  leaveProcess process_id arguments st = Ok st' ->
  (forall k, In k (keys (flat_graph st)) -> In k (keys (flat_graph st')))
  /\ (exists k, last_node_id st' = PStr k /\ In k (keys (flat_graph st')))
  /\ (resolved (PDict (flat_graph st)) = true ->
      arguments_resolved resolved (keys (flat_graph st)) (PDict arguments) = true ->
      resolved (PDict (flat_graph st')) = true).
Proof.
  unfold leaveProcess. destruct process_id; try discriminate.
  destruct (generate s (key_generator st)) as [node_id kg].
  intros [= <-]. cbn [flat_graph last_node_id]. split; [|split].
  - intros k. apply keys_dict_set_mono.
  - exists node_id. split; [reflexivity | apply keys_dict_set_self].
  - intros Hflat Hargs. apply resolved_dict_set; [exact Hflat|].
    cbn [entry_resolved]. rewrite dict_with_get.
    cbn [dict_get String.eqb Ascii.eqb Bool.eqb option_map].
    eapply arguments_resolved_mono; [|exact Hargs].
    intros k. apply keys_dict_set_mono.
Qed.

Lemma mark_result_resolved flat last flat' :
  mark_result flat last = Ok flat' ->
  resolved (PDict flat) = true -> resolved (PDict flat') = true.
Proof.
  unfold mark_result. destruct last; try discriminate.
  destruct (dict_get s flat) as [[| | | | | | |node]|] eqn:E; try discriminate.
  intros [= <-] Hflat. apply resolved_dict_set; [exact Hflat|].
  assert (Hentry : entry_resolved resolved (keys flat) (PDict node) = true).
  { rewrite resolved_unfold in Hflat.
    exact (forallb_dict_get (entry_resolved resolved (keys flat)) _ _ _ Hflat E). }
  cbn [entry_resolved] in *. rewrite dict_with_get in *.
  rewrite dict_get_set_other by discriminate.
  destruct (dict_get "arguments" node) as [a|]; [|discriminate].
  cbn [option_map] in *. eapply arguments_resolved_mono; [|exact Hentry].
  intros k. apply keys_dict_set_mono.
Qed.

Lemma grows_refl st : grows st st.
Proof. split; auto. Qed.

Lemma grows_trans st1 st2 st3 : grows st1 st2 -> grows st2 st3 -> grows st1 st3.
Proof. intros [K1 R1] [K2 R2]. split; auto. Qed.

Lemma mapM_grows {A B : Type} (f : A -> Flattener -> outcome (B * Flattener))
  (ok : A -> bool) (good : list string -> B -> bool) l :
  (forall ks ks' y, (forall k, In k ks -> In k ks') ->
                    good ks y = true -> good ks' y = true) ->
  Forall (fun x => ok x = true ->
                   forall s y s', f x s = Ok (y, s') ->
                                  grows s s' /\ good (keys (flat_graph s')) y = true) l ->
  forallb ok l = true ->
  forall s ys s',
    mapM f l s = Ok (ys, s') ->
    grows s s' /\ forallb (good (keys (flat_graph s'))) ys = true.
Proof.
  intros Hmono. induction 1 as [|x l Hx Hl IH]; cbn [mapM forallb];
    intros Hok s ys s' H.
  - injection H as <- <-. split; [apply grows_refl | reflexivity].
  - apply andb_true_iff in Hok as [Hx' Hl'].
    bind_inv H. destruct x0 as [y s1]. bind_inv H. destruct x0 as [ys' s2].
    injection H as <- <-.
    destruct (Hx Hx' _ _ _ Hx0) as [G1 Hy].
    destruct (IH Hl' _ _ _ Hx1) as [G2 Hys].
    split; [eapply grows_trans; eauto|].
    cbn [forallb]. rewrite Hys, andb_true_r.
    eapply Hmono; [|exact Hy]. apply G2.
Qed.

Section resolved_layers.
Variable node : dict.
Hypothesis IH : forall k x,
  dict_get k node = Some x ->
  linked x = true ->
  forall st v' st',
    accept x st = Ok (v', st') ->
    grows st st' /\ (is_node x = true -> last_key_known st').

Lemma visit_reference_grows st st' :
  reference_linked linked node = true ->
  visit_reference accept node st = Ok st' ->
  grows st st' /\ (dict_has "from_node" node = true -> last_key_known st').
Proof.
  unfold reference_linked, dict_has. rewrite visit_reference_lookup, dict_with_get.
  destruct (dict_get "from_node" node) as [x|] eqn:E; cbn [option_map].
  - intros Hl H. apply andb_true_iff in Hl as [Hn Hl].
    bind_inv H. destruct x0 as [v' st1]. injection H as <-.
    destruct (IH _ _ E Hl _ _ _ Hx) as [G L]. auto.
  - intros _ [= <-]. split; [apply grows_refl | discriminate].
Qed.

Lemma reference_set_resolved st :
  (dict_has "from_node" node = true -> last_key_known st) ->
  reference_resolved (keys (flat_graph st))
    (if dict_has "from_node" node
     then dict_set "from_node" (last_node_id st) node
     else node) = true.
Proof.
  intros Hl. unfold reference_resolved.
  destruct (dict_has "from_node" node) eqn:Hf.
  - rewrite dict_get_set_same. destruct (Hl eq_refl) as (k & -> & Hk).
    now apply existsb_key.
  - unfold dict_has in Hf. now destruct (dict_get "from_node" node).
Qed.

Lemma leaveArgument_grows st node' st' :
  callback_linked linked node = true ->
  (dict_has "from_node" node = true -> last_key_known st) ->
  leaveArgument
    (dict_with "callback"
       (fun callback => flatten_callback (accept callback) callback) node)
    node st = Ok (node', st') ->
  flat_graph st' = flat_graph st
  /\ reference_resolved (keys (flat_graph st)) node' = true
  /\ callback_resolved resolved node' = true.
Proof.
  intros Hcb Hl. pose proof (reference_set_resolved st Hl) as Href.
  unfold callback_linked in Hcb. rewrite dict_with_get in Hcb.
  rewrite flat_callback_lookup. unfold leaveArgument.
  set (node1 := if dict_has "from_node" node
                then dict_set "from_node" (last_node_id st) node
                else node) in *.
  assert (Hcb1 : dict_get "callback" node1 = dict_get "callback" node).
  { unfold node1. destruct (dict_has "from_node" node); [|reflexivity].
    now rewrite dict_get_set_other. }
  destruct (dict_get "callback" node) as [cb|] eqn:E; cbn [option_map] in Hcb.
  - intros H. bind_inv H. destruct x as [[flat kg] h]. injection H as <- <-.
    cbn [flat_graph]. split; [reflexivity|]. split.
    + unfold reference_resolved in *. now rewrite dict_get_set_other.
    + unfold callback_resolved. rewrite dict_with_get, dict_get_set_same.
      cbn [option_map].
      unfold flatten_callback, flatten_copy in Hx. cbn [alloc] in Hx.
      bind_inv Hx. destruct x as [cb' st1]. bind_inv Hx. injection Hx as <- _ _.
      destruct (IH _ _ E Hcb _ _ _ Hx0) as [[_ R] _].
      eapply mark_result_resolved; [eassumption|]. now apply R.
  - intros [= <- <-]. split; [reflexivity|]. split; [exact Href|].
    unfold callback_resolved. now rewrite dict_with_get, Hcb1.
Qed.
End resolved_layers.

(** The traversal of a graph whose references embed nodes keeps the flat
    graph resolved, and what it leaves of the arguments is resolved. *)
Lemma accept_resolved v :
  (linked v = true ->
   forall st v' st',
     accept v st = Ok (v', st') ->
     grows st st' /\ (is_node v = true -> last_key_known st'))
  /\ (arguments_linked linked v = true ->
      forall st r st',
        visit_arguments accept v st = Ok (r, st') ->
        grows st st'
        /\ arguments_resolved resolved (keys (flat_graph st')) (PDict r) = true)
  /\ (argument_linked linked v = true ->
      forall k st r st',
        visit_argument accept (k, v) st = Ok (r, st') ->
        grows st st'
        /\ argument_resolved resolved (keys (flat_graph st')) (snd r) = true)
  /\ (element_linked linked v = true ->
      forall st r st',
        visit_element accept v st = Ok (r, st') ->
        grows st st' /\ element_resolved (keys (flat_graph st')) r = true).
Proof.
  apply (traversal_ind
    (fun v => linked v = true ->
              forall st v' st',
                accept v st = Ok (v', st') ->
                grows st st' /\ (is_node v = true -> last_key_known st'))
    (fun v => arguments_linked linked v = true ->
              forall st r st',
                visit_arguments accept v st = Ok (r, st') ->
                grows st st'
                /\ arguments_resolved resolved (keys (flat_graph st')) (PDict r) = true)
    (fun v => argument_linked linked v = true ->
              forall k st r st',
                visit_argument accept (k, v) st = Ok (r, st') ->
                grows st st'
                /\ argument_resolved resolved (keys (flat_graph st')) (snd r) = true)
    (fun v => element_linked linked v = true ->
              forall st r st',
                visit_element accept v st = Ok (r, st') ->
                grows st st' /\ element_resolved (keys (flat_graph st')) r = true)).
  - intros x IH Hl st v' st' H.
    destruct x as [| | | | | | |d];
      try (injection H as <- <-; split; [apply grows_refl | discriminate]).
    rewrite accept_unfold, visit_process_lookup in H.
    rewrite linked_unfold in Hl. unfold process_linked in Hl.
    rewrite dict_with_get in Hl. cbn [is_node]. unfold dict_has.
    destruct (dict_get "process_id" d) as [pid|] eqn:Ep;
      [|injection H as <- <-; split; [apply grows_refl | discriminate]].
    destruct (dict_get "arguments" d) as [a|] eqn:Ea; cbn [option_map] in Hl.
    + bind_inv H. destruct x as [arguments st1]. bind_inv H. injection H as <- <-.
      destruct (IH d a eq_refl Ea Hl _ _ _ Hx) as [[K1 R1] Hargs].
      apply leaveProcess_resolved in Hx0 as (K2 & L & R2).
      split; [split|]; auto.
    + bind_inv H. injection H as <- <-.
      apply leaveProcess_resolved in Hx as (K2 & L & R2).
      split; [split|]; auto.
  - intros x IH Hl st r st' H. destruct x as [| | | | | | |args]; try discriminate.
    cbn [visit_arguments arguments_linked arguments_resolved] in *.
    apply (mapM_grows (visit_argument accept)
             (fun kv => argument_linked linked (snd kv))
             (fun ks kv => argument_resolved resolved ks (snd kv)) args);
      auto.
    + intros ks ks' y Hsub. now apply argument_resolved_mono.
    + eapply Forall_impl; [|exact (IH args eq_refl)].
      intros [k a] Hk Hok s y s' Hy. cbn [snd] in *. eapply Hk; eauto.
  - intros x IHl IHd Hl k st r st' H. unfold visit_argument in H. cbn [snd fst] in H.
    destruct x as [| | | | | |l|d];
      try (injection H as <- <-; split; [apply grows_refl | reflexivity]);
      cbn [argument_linked] in Hl.
    + bind_inv H. destruct x as [elements' st1]. injection H as <- <-.
      cbn [snd argument_resolved].
      apply (mapM_grows (visit_element accept) (element_linked linked)
               element_resolved l); auto.
      intros ks ks' y Hsub. now apply element_resolved_mono.
    + apply andb_true_iff in Hl as [Hr Hc].
      bind_inv H. bind_inv H. destruct x0 as [node' st2]. injection H as <- <-.
      destruct (visit_reference_grows d (fun k x => IHd d k x eq_refl) _ _ Hr Hx)
        as [G L].
      destruct (leaveArgument_grows d (fun k x => IHd d k x eq_refl) _ _ _ Hc L Hx0)
        as (F & R1 & R2).
      cbn [snd argument_resolved]. rewrite F, R1, R2.
      split; [|reflexivity]. destruct G as [K R]. split; rewrite F; auto.
  - intros x IHd Hl st r st' H. unfold visit_element in H.
    destruct x as [| | | | | | |d];
      try (injection H as <- <-; split; [apply grows_refl | reflexivity]).
    cbn [element_linked] in Hl. bind_inv H. injection H as <- <-.
    destruct (visit_reference_grows d (fun k x => IHd d k x eq_refl) _ _ Hl Hx)
      as [G L].
    split; [exact G|]. cbn [element_resolved]. unfold arrayElementDone.
    now apply reference_set_resolved.
Qed.

(** X25.  The flat graph of a nested graph whose references embed nodes has
    no dangling reference: every reference that is the value of an argument or
    an element of a list-valued argument names a key of the flat map its entry
    lies in, and the flat graph of every callback is closed in the same
    way.  The graph is a tree: no object under the root is reached twice. *)
Theorem flatten_resolves_references self key_gen h r G flat kg' h' :
  result_node self = Some r ->
  unshared h (PRef r) ->
  deepcopy h (PRef r) = Ok G ->
  linked G = true ->
  flatten self key_gen h = Ok (flat, kg', h') ->
  resolved (PDict flat) = true.
Proof.
  intros Hr _ HG Hl H.
  apply flatten_inv in H as (r' & G0 & G' & st & Hr' & HG' & Hacc & Hm & _ & _).
  rewrite Hr in Hr'. injection Hr' as <-. rewrite HG in HG'. injection HG' as <-.
  destruct (proj1 (accept_resolved G) Hl _ _ _ Hacc) as [[_ R] _].
  eapply mark_result_resolved; [exact Hm|]. now apply R.
Qed.

Lemma flatten_resolves_references_witness :
  resolved
    (PDict [("load1", PDict [("process_id", PStr "load"); ("arguments", PDict [])]);
            ("reduce1",
             PDict [("process_id", PStr "reduce");
                    ("arguments",
                     PDict [("data", PDict [("from_node", PStr "load1")]);
                            ("reducer",
                             PDict [("callback",
                                     PDict [("load2",
                                             PDict [("process_id", PStr "load");
                                                    ("arguments", PDict [])]);
                                            ("max1",
                                             PDict [("process_id", PStr "max");
                                                    ("arguments",
                                                     PDict [("data",
                                                             PDict [("from_node",
                                                                     PStr "load2")])]);
                                                    ("result", PBool true)])])])]);
                    ("result", PBool true)])]) = true.
Proof.
  refine (flatten_resolves_references {| result_node := Some 0 |} None
      [PDict [("process_id", PStr "reduce");
              ("arguments",
               PDict [("data",
                       PDict [("from_node",
                               PDict [("process_id", PStr "load");
                                      ("arguments", PDict [])])]);
                      ("reducer",
                       PDict [("callback",
                               PDict [("process_id", PStr "max");
                                      ("arguments",
                                       PDict [("data",
                                               PDict [("from_node",
                                                       PDict [("process_id", PStr "load");
                                                              ("arguments", PDict [])])])])])])])]]
      0 _ _ _ _ eq_refl _ eq_refl eq_refl _).
  - unfold unshared. cbn. constructor; [simpl; tauto | constructor].
  - vm_compute. reflexivity.
Defined.

(** X26.  The shape of a flat graph that [flatten] returns: its keys are
    pairwise distinct and hold no underscore, and every entry is a mapping
    with a [process_id] that is a string and [arguments] that are a mapping
    holding no object by reference, in this order and with nothing else,
    except for the result marker [True] that one entry carries. *)
Theorem flatten_entry_shape self key_gen h flat kg' h' :
  flatten self key_gen h = Ok (flat, kg', h') ->
  NoDup (keys flat)
  /\ forall k entry,
      In (k, entry) flat ->
      mentions "_"%char k = false
      /\ exists p args,
          (entry = PDict [("process_id", PStr p); ("arguments", PDict args)]
           \/ entry = PDict [("process_id", PStr p); ("arguments", PDict args);
                             ("result", PBool true)])
          /\ ref_free (PDict args) = true.
Proof.
  intros H. pose proof (flatten_result_shape _ _ _ _ _ _ H) as [Hrf _].
  apply flatten_inv in H as (r & G & G' & st & _ & _ & Hacc & Hm & _ & _).
  apply (proj1 (accept_step_ok G)) in Hacc as (_ & _ & Hok).
  destruct Hok as [Hnd Hall]; [split; constructor|].
  apply mark_result_inv in Hm as (k0 & node & _ & Hk0 & ->).
  split.
  - rewrite keys_dict_set_in; [exact Hnd|]. unfold dict_has. now rewrite Hk0.
  - intros k entry Hin.
    cbn [ref_free] in Hrf. rewrite forallb_forall in Hrf.
    pose proof (Hrf _ Hin) as He. cbn [snd] in He.
    rewrite Forall_forall in Hall.
    apply in_dict_set in Hin as [Hin|E].
    + destruct (Hall _ Hin) as [Hc (p & args & Hs)]. cbn [fst snd] in *. subst entry.
      split; [exact Hc|]. exists p, args. split; [now left|].
      cbn in He. now rewrite !andb_true_r in He.
    + injection E as -> ->.
      assert (Hin0 : In (k0, PDict node) (flat_graph st)).
      { clear -Hk0. induction (flat_graph st) as [|[k v] l IH]; [discriminate|].
        cbn [dict_get] in Hk0. destruct (String.eqb k0 k) eqn:E.
        - apply String.eqb_eq in E as ->. injection Hk0 as ->. now left.
        - right. auto. }
      destruct (Hall _ Hin0) as [Hc (p & args & Hs)]. cbn [fst snd] in *.
      injection Hs as ->. split; [exact Hc|]. exists p, args.
      split; [now right|].
      cbn in He. now rewrite !andb_true_r in He.
Qed.

Lemma flatten_entry_shape_witness :
  let flat := [("loadcollection1",
                PDict [("process_id", PStr "load_collection");
                       ("arguments", PDict [("id", PStr "S2")])]);
               ("filterbands1",
                PDict [("process_id", PStr "filter_bands");
                       ("arguments",
                        PDict [("data", PDict [("from_node", PStr "loadcollection1")]);
                               ("bands", PList [PStr "B02"])]);
                       ("result", PBool true)])] in
  NoDup (keys flat)
  /\ forall k entry,
      In (k, entry) flat ->
      mentions "_"%char k = false
      /\ exists p args,
          (entry = PDict [("process_id", PStr p); ("arguments", PDict args)]
           \/ entry = PDict [("process_id", PStr p); ("arguments", PDict args);
                             ("result", PBool true)])
          /\ ref_free (PDict args) = true.
Proof.
  intros flat.
  refine (flatten_entry_shape {| result_node := Some 1 |} None
            [PDict [("process_id", PStr "load_collection");
                    ("arguments", PDict [("id", PStr "S2")])];
             PDict [("process_id", PStr "filter_bands");
                    ("arguments",
                     PDict [("data", PDict [("from_node", PRef 0)]);
                            ("bands", PList [PStr "B02"])])]]
            flat _ _ _).
  vm_compute. reflexivity.
Defined.
